(** * TaskAgile (No_Gas_Slaps): the convergence core, embedded and verified

    The development follows the JavaScript sources:
    - [client/modules/state.js]           : rate limiter / combo engine ([Engine]);
    - [modules/ui.js] (WebSocket section) : authoritative arena server ([Arena]),
                                            its game loop and resets ([ArenaLoop]);
    - [unnamed/part_001]                  : the multiplayer client ([Multiplayer]);
    - [client/modules/leaderboard-api.js] : leaderboard merge and local update ([Leaderboard]),
                                            queries and sync grouping ([LeaderboardApi]);
    - [modules/persistence.js]            : offline sync queue ([SyncQueue],
                                            [QueueSession]), saved state ([Storage]);
    - [client/modules/security.js]        : request rate limiter ([Security]).

    JavaScript numbers that the code keeps integral (scores, combos, health,
    gas, millisecond timestamps) are [Z]; numbers that may be fractional
    (point multipliers, arena coordinates, a raw score before [Math.floor])
    are [Q].  Module-level [let] variables become fields of an explicit state
    record that every operation takes and returns.  [Date.now()] and the
    random id generators are inputs of the operation that calls them. *)

From Stdlib Require Import ZArith QArith Qround String List Lia Lqa.
From stdpp Require Import base option list gmap sorting strings pretty.

Local Open Scope string_scope.
Local Open Scope list_scope.
Local Open Scope Z_scope.

(** ** Array helpers shared by the modules *)

(** [Array.prototype.sort] is stable; [before a b] reads "the comparator does
    not put [b] strictly before [a]", i.e. [compare(a, b) <= 0].  A stable
    insertion sort is the reference behaviour of every stable sort. *)
Fixpoint insert_sorted {A : Type} (before : A -> A -> bool) (x : A) (l : list A) : list A :=
  match l with
  | [] => [x]
  | y :: r => if before x y then x :: y :: r else y :: insert_sorted before x r
  end.

Definition stable_sort {A : Type} (before : A -> A -> bool) (l : list A) : list A :=
  foldr (insert_sorted before) [] l.

(** The comparator as a relation. *)
Definition beforeP {A : Type} (before : A -> A -> bool) (a b : A) : Prop := before a b = true.

(** [a || b] on strings: the empty string is falsy. *)
Definition str_or (a : option string) (b : string) : string :=
  match a with
  | Some s => if String.eqb s "" then b else s
  | None => b
  end.

(** [a || b] on numbers: [undefined] and [0] are falsy. *)
Definition num_or (a : option Z) (b : Z) : Z :=
  match a with
  | Some n => if n =? 0 then b else n
  | None => b
  end.

Definition Qlt_bool (a b : Q) : bool := negb (Qle_bool b a).

(** ** client/modules/state.js *)
Module Engine.

Definition MAX_TAPS_PER_SECOND : Z := 4.
Definition MIN_INTERVAL : Z := 1000 / MAX_TAPS_PER_SECOND.
Definition COMBO_TIMEOUT : Z := 1200.
Definition MAX_SCORE_INCREMENT : Z := 1000.
Definition SUSPICIOUS_JUMP_THRESHOLD : Z := 5000.

Record Statistics := mkStatistics {
  totalPlayTime : Z;
  highestCombo : Z;
  totalTaps : Z;
  sessionsPlayed : Z
}.

Record GameState := mkGameState {
  score : Z;
  combo : Z;
  lastSlapAt : Z;
  lastComboTick : Z;
  totalSlaps : Z;
  sessionStartTime : Z;
  dailyClaimed : bool;
  lastDailyClaim : Z;
  achievements : list string;
  statistics : Statistics
}.

Record PowerUp := mkPowerUp {
  unlocked : bool;
  active : bool;
  cooldown : Z;
  duration : Z;
  unlockThreshold : Z
}.

Inductive PowerUpId := doublePoints | rapidFire | shield | magnet | boost.

(** [powerUpsState]: an object with exactly the five keys above. *)
Definition PowerUps := PowerUpId -> PowerUp.

Definition powerUpIds : list PowerUpId := [doublePoints; rapidFire; shield; magnet; boost].

Definition PowerUpId_eqb (a b : PowerUpId) : bool :=
  match a, b with
  | doublePoints, doublePoints | rapidFire, rapidFire | shield, shield
  | magnet, magnet | boost, boost => true
  | _, _ => false
  end.

Definition setPowerUp (id : PowerUpId) (p : PowerUp) (ps : PowerUps) : PowerUps :=
  fun k => if PowerUpId_eqb k id then p else ps k.

Definition lockedPowerUp (threshold : Z) : PowerUp := mkPowerUp false false 0 0 threshold.

Definition initialPowerUps : PowerUps :=
  fun k => match k with
           | doublePoints => lockedPowerUp 500
           | rapidFire => lockedPowerUp 1000
           | shield => lockedPowerUp 2000
           | magnet => lockedPowerUp 5000
           | boost => lockedPowerUp 10000
           end.

(** The module-level variables of state.js, and what [saveState] last wrote
    under [STATE_KEY] and [POWERUPS_KEY]. *)
Record Engine := mkEngine {
  gameState : GameState;
  powerUpsState : PowerUps;
  tapsWindow : list Z;
  scoreHistory : list (Z * Z);
  savedGameState : option GameState;
  savedPowerUps : option PowerUps
}.

Definition setGameState (g : GameState) (e : Engine) : Engine :=
  mkEngine g (powerUpsState e) (tapsWindow e) (scoreHistory e) (savedGameState e) (savedPowerUps e).
Definition setPowerUpsState (p : PowerUps) (e : Engine) : Engine :=
  mkEngine (gameState e) p (tapsWindow e) (scoreHistory e) (savedGameState e) (savedPowerUps e).
Definition setTapsWindow (w : list Z) (e : Engine) : Engine :=
  mkEngine (gameState e) (powerUpsState e) w (scoreHistory e) (savedGameState e) (savedPowerUps e).
Definition setScoreHistory (h : list (Z * Z)) (e : Engine) : Engine :=
  mkEngine (gameState e) (powerUpsState e) (tapsWindow e) h (savedGameState e) (savedPowerUps e).

(** [resetGameState]: the default state object created at [now]. *)
Definition resetGameState (now : Z) : GameState :=
  mkGameState 0 1 0 0 0 now false 0 [] (mkStatistics 0 0 0 1).

Definition saveGameState (e : Engine) : Engine :=
  mkEngine (gameState e) (powerUpsState e) (tapsWindow e) (scoreHistory e)
           (Some (gameState e)) (savedPowerUps e).
Definition savePowerUpsState (e : Engine) : Engine :=
  mkEngine (gameState e) (powerUpsState e) (tapsWindow e) (scoreHistory e)
           (savedGameState e) (Some (powerUpsState e)).

(** [isValidTapRate]: prunes the window in place, then tests its length. *)
Definition isValidTapRate (now : Z) (e : Engine) : bool * Engine :=
  let w := List.filter (fun time => now - time <? 1000) (tapsWindow e) in
  let e := setTapsWindow w e in
  if MAX_TAPS_PER_SECOND <=? Z.of_nat (length w) then (false, e) else (true, e).

Definition calculateCombo (now : Z) (g : GameState) : Z :=
  if now - lastComboTick g <? COMBO_TIMEOUT then Z.min (combo g + 1) 50 else 1.

Definition applyPowerUpEffects (ps : PowerUps) (basePoints : Q) : Z :=
  let points := basePoints in
  let points := if active (ps doublePoints) then (points * 2)%Q else points in
  let points := if active (ps rapidFire) then (points * (3 # 2))%Q else points in
  let points := if active (ps boost) then (points * 3)%Q else points in
  Qfloor points.

(** [trackScoreHistory]: bounded history; the suspicious-jump test only logs. *)
Definition trackScoreHistory (score0 timestamp : Z) (e : Engine) : Engine :=
  let h := scoreHistory e ++ [(score0, timestamp)] in
  let h := if (100 <? Z.of_nat (length h))%Z then tail h else h in
  setScoreHistory h e.

Definition includes (a : string) (l : list string) : bool :=
  existsb (String.eqb a) l.

Definition unlockAchievement (achievementId : string) (g : GameState) : GameState :=
  if includes achievementId (achievements g) then g
  else mkGameState (score g) (combo g) (lastSlapAt g) (lastComboTick g) (totalSlaps g)
         (sessionStartTime g) (dailyClaimed g) (lastDailyClaim g)
         (achievements g ++ [achievementId]) (statistics g).

(** The milestone list with the achievement id [score_<milestone>] of each. *)
Definition milestones : list (Z * string) :=
  [(100, "score_100"); (500, "score_500"); (1000, "score_1000"); (5000, "score_5000");
   (10000, "score_10000"); (50000, "score_50000"); (100000, "score_100000")].

Definition checkAchievements (prevScore newScore : Z) (g : GameState) : GameState :=
  let g := fold_left (fun g m =>
             if (prevScore <? fst m) && (fst m <=? newScore)
             then unlockAchievement (snd m) g else g) milestones g in
  let g := if (combo g =? 10) && negb (includes "combo_10" (achievements g))
           then unlockAchievement "combo_10" g else g in
  if (combo g =? 25) && negb (includes "combo_25" (achievements g))
  then unlockAchievement "combo_25" g else g.

Definition checkPowerUpUnlocks (e : Engine) : Engine :=
  let step (acc : PowerUps * bool) (id : PowerUpId) :=
    let p := fst acc id in
    if negb (unlocked p) && (unlockThreshold p <=? score (gameState e))
    then (setPowerUp id (mkPowerUp true (active p) (cooldown p) (duration p) (unlockThreshold p))
                     (fst acc), true)
    else acc in
  let '(ps, any) := fold_left step powerUpIds (powerUpsState e, false) in
  let e := setPowerUpsState ps e in
  if any then savePowerUpsState e else e.

(** What a call of the async function [slap] settles to. *)
Inductive SlapResult :=
| Threw (message : string)     (* the promise rejects: [throw new Error(message)] *)
| Ignored                      (* [return;] *)
| Awarded (points : Z).        (* [return points;] *)

Definition RATE_MESSAGE : string := "Tap rate too high. Please slow down!".
Definition INCREMENT_MESSAGE : string := "Invalid score increment detected".

(** "Update tap tracking": the window and the two tap counters. *)
Definition countTap (now : Z) (e : Engine) : Engine :=
  let e := setTapsWindow (tapsWindow e ++ [now]) e in
  let g := gameState e in
  let st := statistics g in
  setGameState
    (mkGameState (score g) (combo g) (lastSlapAt g) (lastComboTick g) (totalSlaps g + 1)
       (sessionStartTime g) (dailyClaimed g) (lastDailyClaim g) (achievements g)
       (mkStatistics (totalPlayTime st) (highestCombo st) (totalTaps st + 1)
                     (sessionsPlayed st))) e.

(** "Update game state" down to the periodic save: what [slap] does once
    the points have passed the increment check. *)
Definition commitSlap (now newCombo prevScore points : Z) (e : Engine) : Engine :=
  let g := gameState e in
  let st := statistics g in
  let g := mkGameState (score g + points) newCombo now now (totalSlaps g)
             (sessionStartTime g) (dailyClaimed g) (lastDailyClaim g) (achievements g)
             (mkStatistics (totalPlayTime st) (Z.max (highestCombo st) newCombo)
                           (totalTaps st) (sessionsPlayed st)) in
  let e := setGameState g e in
  let e := trackScoreHistory (score g) now e in
  let e := setGameState (checkAchievements prevScore (score g) (gameState e)) e in
  let e := checkPowerUpUnlocks e in
  if totalSlaps (gameState e) mod 10 =? 0 then saveGameState e else e.

Definition slap (now : Z) (e : Engine) : SlapResult * Engine :=
  let '(valid, e) := isValidTapRate now e in
  if negb valid then (Threw RATE_MESSAGE, e)
  else if now - lastSlapAt (gameState e) <? MIN_INTERVAL then (Ignored, e)
  else
    let e := countTap now e in
    let newCombo := calculateCombo now (gameState e) in
    let prevScore := score (gameState e) in
    let points := 1 in
    let points := points * newCombo in
    let points := applyPowerUpEffects (powerUpsState e) (inject_Z points) in
    if MAX_SCORE_INCREMENT <? points then (Threw INCREMENT_MESSAGE, e)
    else (Awarded points, commitSlap now newCombo prevScore points e).

Definition getPowerUpDuration (id : PowerUpId) : Z :=
  match id with
  | doublePoints => 30000 | rapidFire => 15000 | shield => 60000
  | magnet => 20000 | boost => 10000
  end.

Definition getPowerUpCooldown (id : PowerUpId) : Z :=
  match id with
  | doublePoints => 120000 | rapidFire => 90000 | shield => 180000
  | magnet => 150000 | boost => 300000
  end.

(** [activatePowerUp] on one of the five ids; [inl] is the thrown message. *)
Definition activatePowerUp (id : PowerUpId) (e : Engine) : (string + unit) * Engine :=
  let p := powerUpsState e id in
  if negb (unlocked p) then (inl "Power-up not unlocked", e)
  else if 0 <? cooldown p then (inl "Power-up on cooldown", e)
  else if active p then (inl "Power-up already active", e)
  else
    let p := mkPowerUp (unlocked p) true (getPowerUpCooldown id) (getPowerUpDuration id)
                       (unlockThreshold p) in
    (inr tt, savePowerUpsState (setPowerUpsState (setPowerUp id p (powerUpsState e)) e)).

(** [deactivatePowerUp], run by the timer armed on activation. *)
Definition deactivatePowerUp (id : PowerUpId) (e : Engine) : Engine :=
  let p := powerUpsState e id in
  if active p then
    let p := mkPowerUp (unlocked p) false (cooldown p) 0 (unlockThreshold p) in
    savePowerUpsState (setPowerUpsState (setPowerUp id p (powerUpsState e)) e)
  else e.

Definition claimDailyReward (now : Z) (e : Engine) : (string + Z) * Engine :=
  let g := gameState e in
  let lastClaim := lastDailyClaim g in
  let daysSinceLastClaim := (now - lastClaim) / (24 * 60 * 60 * 1000) in
  if dailyClaimed g && (daysSinceLastClaim <? 1) then (inl "Daily reward already claimed today", e)
  else
    let baseReward := 100 in
    let streakBonus := Z.min daysSinceLastClaim 7 * 20 in
    let totalReward := baseReward + streakBonus in
    let g := mkGameState (score g + totalReward) (combo g) (lastSlapAt g) (lastComboTick g)
               (totalSlaps g) (sessionStartTime g) true now (achievements g) (statistics g) in
    (inr totalReward, saveGameState (setGameState g e)).

Definition addDebugScore (amount : Z) (e : Engine) : Engine :=
  if 0 <? amount then
    let g := gameState e in
    setGameState (mkGameState (score g + amount) (combo g) (lastSlapAt g) (lastComboTick g)
                    (totalSlaps g) (sessionStartTime g) (dailyClaimed g) (lastDailyClaim g)
                    (achievements g) (statistics g)) e
  else e.

(** The four interval callbacks of [startBackgroundTasks]. *)
Definition cooldownTick (e : Engine) : Engine :=
  setPowerUpsState (fun k =>
    let p := powerUpsState e k in
    if 0 <? cooldown p
    then mkPowerUp (unlocked p) (active p) (Z.max 0 (cooldown p - 1000)) (duration p)
                   (unlockThreshold p)
    else p) e.

Definition playTimeTick (e : Engine) : Engine :=
  let g := gameState e in
  let st := statistics g in
  setGameState (mkGameState (score g) (combo g) (lastSlapAt g) (lastComboTick g) (totalSlaps g)
                  (sessionStartTime g) (dailyClaimed g) (lastDailyClaim g) (achievements g)
                  (mkStatistics (totalPlayTime st + 1000) (highestCombo st) (totalTaps st)
                                (sessionsPlayed st))) e.

(** [dateChanged]: the calendar date of "now" differs from that of the last claim. *)
Definition dailyResetTick (dateChanged : bool) (e : Engine) : Engine :=
  if dateChanged then
    let g := gameState e in
    setGameState (mkGameState (score g) (combo g) (lastSlapAt g) (lastComboTick g) (totalSlaps g)
                    (sessionStartTime g) false (lastDailyClaim g) (achievements g)
                    (statistics g)) e
  else e.

(** The operations that act on a running engine: the exported entry points
    and the timer callbacks.  [initState] and [resetGameState] do not act on
    a running engine: they build the state object a session starts from. *)
Inductive Op :=
| OpSlap (now : Z)
| OpClaimDailyReward (now : Z)
| OpAddDebugScore (amount : Z)
| OpActivatePowerUp (id : PowerUpId)
| OpDeactivatePowerUp (id : PowerUpId)
| OpCooldownTick
| OpPlayTimeTick
| OpDailyResetTick (dateChanged : bool)
| OpAutoSave.

Definition run_op (op : Op) (e : Engine) : Engine :=
  match op with
  | OpSlap now => snd (slap now e)
  | OpClaimDailyReward now => snd (claimDailyReward now e)
  | OpAddDebugScore amount => addDebugScore amount e
  | OpActivatePowerUp id => snd (activatePowerUp id e)
  | OpDeactivatePowerUp id => deactivatePowerUp id e
  | OpCooldownTick => cooldownTick e
  | OpPlayTimeTick => playTimeTick e
  | OpDailyResetTick d => dailyResetTick d e
  | OpAutoSave => saveGameState e
  end.

(** [validateGameState], applied by [initState] to a loaded state. *)
Definition validateGameState (g : GameState) : GameState :=
  mkGameState (if score g <? 0 then 0 else score g) (if combo g <? 1 then 1 else combo g)
    (lastSlapAt g) (lastComboTick g) (if totalSlaps g <? 0 then 0 else totalSlaps g)
    (sessionStartTime g) (dailyClaimed g) (lastDailyClaim g) (achievements g) (statistics g).

(** [initState]: the state a session starts from, given what [loadState]
    found under [STATE_KEY]. *)
Definition initState (now : Z) (saved : option GameState) : GameState :=
  let g := match saved with
           | Some s => validateGameState s
           | None => mkGameState 0 1 0 0 0 now false 0 [] (mkStatistics 0 0 0 0)
           end in
  let st := statistics g in
  mkGameState (score g) (combo g) (lastSlapAt g) (lastComboTick g) (totalSlaps g) now
    (dailyClaimed g) (lastDailyClaim g) (achievements g)
    (mkStatistics (totalPlayTime st) (highestCombo st) (totalTaps st) (sessionsPlayed st + 1)).

(** [initState] followed by [initPowerUps]. *)
Definition startEngine (now : Z) (saved : option GameState) (savedPU : option PowerUps) : Engine :=
  checkPowerUpUnlocks
    (mkEngine (initState now saved) (default initialPowerUps savedPU) [] [] saved savedPU).

(** States of a session: a session starts fresh or from what an earlier
    session persisted, and proceeds by engine operations. *)
Inductive reachable : Engine -> Prop :=
| reach_start now : reachable (startEngine now None None)
| reach_resume now e :
    reachable e -> reachable (startEngine now (savedGameState e) (savedPowerUps e))
| reach_step op e : reachable e -> reachable (run_op op e).

(** *** Notions used to state the properties of the engine *)

(** The modifier a power-up contributes: its factor when active. *)
Definition modifier (on : bool) (m : Q) : Q := if on then m else 1%Q.

(** 1 x combo multiplier x active modifiers, floored. *)
Definition pointTotal (ps : PowerUps) (comboMultiplier : Z) : Z :=
  Qfloor (1 * inject_Z comboMultiplier
            * modifier (active (ps doublePoints)) 2
            * modifier (active (ps rapidFire)) (3 # 2)
            * modifier (active (ps boost)) 3)%Q.

(** The sliding window as [isValidTapRate] leaves it at time [now]. *)
Definition window (now : Z) (e : Engine) : list Z :=
  List.filter (fun time => now - time <? 1000) (tapsWindow e).

Definition is_awarded (r : SlapResult) : bool :=
  match r with Awarded _ => true | _ => false end.

(** A run of slaps at the given times. *)
Definition slaps (times : list Z) (e : Engine) : Engine :=
  fold_left (fun e now => snd (slap now e)) times e.

(** [g'] differs from [g] at most in its achievements. *)
Definition same_but_achievements (g g' : GameState) : Prop :=
  g' = mkGameState (score g) (combo g) (lastSlapAt g) (lastComboTick g) (totalSlaps g)
         (sessionStartTime g) (dailyClaimed g) (lastDailyClaim g) (achievements g')
         (statistics g).

(** The combo clock is the time of the last accepted slap. *)
Definition clocks_agree (g : GameState) : Prop := lastComboTick g = lastSlapAt g.

(** Four accepted slaps, 250 ms apart, in a fresh session. *)
Definition after_four_slaps : Engine :=
  slaps [1000000; 1000250; 1000500; 1000750] (startEngine 999000 None None).

(** *** Notions used to state further properties of the engine *)

(** The times, among [times], at which a run of slaps awards points. *)
Fixpoint accepted_times (times : list Z) (e : Engine) : list Z :=
  match times with
  | [] => []
  | now :: rest =>
      (if is_awarded (fst (slap now e)) then [now] else [])
      ++ accepted_times rest (snd (slap now e))
  end.

(** Every element is at least [lo], and each next one at least [MIN_INTERVAL]
    after the one before. *)
Fixpoint spaced (lo : Z) (l : list Z) : Prop :=
  match l with
  | [] => True
  | x :: r => lo <= x /\ spaced (x + MIN_INTERVAL) r
  end.

(** The taps of [l] that fall in the second that starts at [t]. *)
Definition within_second (t : Z) (l : list Z) : list Z :=
  List.filter (fun x => (t <=? x) && (x <? t + 1000)) l.

(** A run of engine operations. *)
Definition run_ops (ops : list Op) (e : Engine) : Engine :=
  fold_left (fun e op => run_op op e) ops e.


(** [n] runs of the one-second cooldown timer. *)
Definition cooldownTicks (n : nat) (e : Engine) : Engine := Nat.iter n cooldownTick e.

(** The power-up is ready: unlocked, off cooldown and not active. *)
Definition ready (p : PowerUp) : bool :=
  unlocked p && negb (0 <? cooldown p) && negb (active p).


End Engine.

(** ** modules/ui.js: the arena server (WebSocket section) *)
Module Arena.

Record Player := mkPlayer {
  id : Z;
  x : Q;
  y : Q;
  health : Z;
  gas : Z;
  alive : bool;
  score : Z;
  combo : Z;
  name : option string
}.

(** Server-to-client messages, by their [type] discriminator. *)
Inductive Event :=
| init (id : Z) (players : gmap Z Player)
| playerJoined (player : Player)
| playerLeft (id : Z)
| playerMoved (id : Z) (x y : Q)
| playerDied (id killerId : Z)
| playerHit (id health attacker damage : Z)
| playerUpdate (id gas score combo : Z).


(** The roster [players], the id counter, and the messages passed to
    [broadcast] so far, oldest first. *)
Record Server := mkServer {
  players : gmap Z Player;
  nextId : Z;
  broadcasts : list Event
}.

Definition broadcast (ev : Event) (s : Server) : Server :=
  mkServer (players s) (nextId s) (broadcasts s ++ [ev]).

(** [players[k].field = ...]: an update of the object stored under [k]. *)
Definition modify (k : Z) (f : Player -> Player) (s : Server) : Server :=
  mkServer (alter f k (players s)) (nextId s) (broadcasts s).

Definition set_health (v : Z) (p : Player) : Player :=
  mkPlayer (id p) (x p) (y p) v (gas p) (alive p) (score p) (combo p) (name p).
Definition set_gas (v : Z) (p : Player) : Player :=
  mkPlayer (id p) (x p) (y p) (health p) v (alive p) (score p) (combo p) (name p).
Definition set_alive (v : bool) (p : Player) : Player :=
  mkPlayer (id p) (x p) (y p) (health p) (gas p) v (score p) (combo p) (name p).
Definition set_score (v : Z) (p : Player) : Player :=
  mkPlayer (id p) (x p) (y p) (health p) (gas p) (alive p) v (combo p) (name p).
Definition set_combo (v : Z) (p : Player) : Player :=
  mkPlayer (id p) (x p) (y p) (health p) (gas p) (alive p) (score p) v (name p).
Definition set_xy (vx vy : Q) (p : Player) : Player :=
  mkPlayer (id p) vx vy (health p) (gas p) (alive p) (score p) (combo p) (name p).
Definition set_name (v : string) (p : Player) : Player :=
  mkPlayer (id p) (x p) (y p) (health p) (gas p) (alive p) (score p) (combo p) (Some v).

(** Squared Euclidean distance between two players. *)
Definition dist2 (t a : Player) : Q :=
  let dx := (x t - x a)%Q in
  let dy := (y t - y a)%Q in
  (dx * dx + dy * dy)%Q.

(** [Math.sqrt(dx * dx + dy * dy) < 60], decided on the squares. *)
Definition in_slap_range (t a : Player) : bool := Qlt_bool (dist2 t a) 3600.

Definition Qclamp (lo hi v : Q) : Q :=
  let m := if Qle_bool hi v then hi else v in      (* Math.min(hi, v) *)
  if Qle_bool m lo then lo else m.                 (* Math.max(lo, m) *)

(** [wss.on('connection')]: the spawn position is drawn at random. *)
Definition on_connection (spawnX spawnY : Q) (s : Server) : Z * Server :=
  let playerId := nextId s in
  let p := mkPlayer playerId spawnX spawnY 100 100 true 0 1 None in
  let s := mkServer (<[playerId := p]> (players s)) (nextId s + 1) (broadcasts s) in
  (playerId, broadcast (playerJoined p) s).

(** The hit resolution: the body of [if (dist < 60)]. *)
Definition resolve_hit (playerId targetId : Z) (s : Server) : Server :=
  let s := modify targetId (fun p => set_health (health p - 25) p) s in
  let s := modify playerId (fun p => set_score (score p + 50 * combo p) p) s in
  let s :=
    match players s !! targetId with
    | Some t =>
        if health t <=? 0 then
          let s := modify targetId (set_alive false) s in
          let s := modify playerId (fun p => set_score (score p + 200) p) s in
          broadcast (playerDied targetId playerId) s
        else s
    | None => s
    end in
  match players s !! targetId with
  | Some t => broadcast (playerHit targetId (health t) playerId 25) s
  | None => s
  end.

(** The [slap] branch of the message handler of connection [playerId];
    [targetId] is [data.targetId] when it names a roster key. *)
Definition on_slap (playerId : Z) (targetId : option Z) (s : Server) : Server :=
  match players s !! playerId with
  | None => s
  | Some a =>
      if negb (alive a) || (gas a <? 20) then s
      else
        let s := modify playerId (fun p => set_gas (gas p - 20) p) s in
        let s := modify playerId (fun p => set_score (score p + 10) p) s in
        let s := modify playerId (fun p => set_combo (Z.min (combo p + 1) 50) p) s in
        let s :=
          match targetId with
          | Some tid =>
              match players s !! tid, players s !! playerId with
              | Some t, Some a =>
                  if alive t && in_slap_range t a then resolve_hit playerId tid s else s
              | _, _ => s
              end
          | None => s
          end in
        match players s !! playerId with
        | Some a => broadcast (playerUpdate playerId (gas a) (score a) (combo a)) s
        | None => s
        end
  end.

Definition on_move (playerId : Z) (dx dy : Q) (s : Server) : Server :=
  match players s !! playerId with
  | None => s
  | Some a =>
      if negb (alive a) then s
      else
        let vx := Qclamp 20 680 dx in
        let vy := Qclamp 20 480 dy in
        broadcast (playerMoved playerId vx vy) (modify playerId (set_xy vx vy) s)
  end.

(** Client-to-server messages handled by [ws.on('message')]. *)
Inductive Message :=
| move (x y : Q)
| slap (targetId : option Z)
| updateProfile (name : string).

Definition on_message (playerId : Z) (m : Message) (s : Server) : Server :=
  match m with
  | move vx vy => on_move playerId vx vy s
  | slap targetId => on_slap playerId targetId s
  | updateProfile n =>
      if String.eqb n "" then s
      else modify playerId (set_name (String.substring 0 20 n)) s
  end.



(** *** Notions used to state the properties of the arena *)

(** The attacker after the three updates that open an accepted slap. *)
Definition charged (p : Player) : Player :=
  let p := set_gas (gas p - 20) p in
  let p := set_score (score p + 10) p in
  set_combo (Z.min (combo p + 1) 50) p.

(** The broadcasts made since the server was in state [s0]. *)
Definition broadcasts_since (s0 s : Server) : list Event :=
  drop (length (broadcasts s0)) (broadcasts s).



End Arena.

(** ** modules/persistence.js: the offline sync queue *)
Module SyncQueue.

Definition SYNC_RETRY_DELAY : Z := 30000.
Definition MAX_RETRY_ATTEMPTS : Z := 5.
Definition MAX_QUEUE_SIZE : nat := 1000.

Section Queue.

(** The payload of a queue item is opaque to the queue. *)
Context {D : Type}.

(** [sanitizeInput] of security.js, a pure function on strings. *)
Variable sanitizeInput : string -> string.

(** The argument of [enqueueSync]: every property may be missing. *)
Record SyncRequest := mkRequest {
  arg_type : option string;
  arg_data : D;
  arg_maxAttempts : option Z;
  arg_priority : option string;
  arg_retries : option Z
}.

Record Item := mkItem {
  id : string;
  type : string;
  data : D;
  timestamp : Z;
  attempts : Z;
  maxAttempts : Z;
  priority : string;
  retries : Z;
  lastError : option string
}.

(** The module-level variables, and what [saveSyncQueue] last wrote. *)
Record Persistence := mkPersistence {
  syncQueue : list Item;
  onlineStatus : bool;
  syncInProgress : bool;
  savedQueue : option (list Item)
}.

Definition setQueue (q : list Item) (st : Persistence) : Persistence :=
  mkPersistence q (onlineStatus st) (syncInProgress st) (savedQueue st).
Definition setInProgress (b : bool) (st : Persistence) : Persistence :=
  mkPersistence (syncQueue st) (onlineStatus st) b (savedQueue st).
Definition saveSyncQueue (st : Persistence) : Persistence :=
  mkPersistence (syncQueue st) (onlineStatus st) (syncInProgress st) (Some (syncQueue st)).

(** [priorityOrder[p] || 2] *)
Definition priorityOrder (p : string) : option Z :=
  if String.eqb p "high" then Some 3
  else if String.eqb p "normal" then Some 2
  else if String.eqb p "low" then Some 1
  else None.

Definition priorityRank (p : string) : Z := num_or (priorityOrder p) 2.

(** The comparator handed to [syncQueue.sort]. *)
Definition compareItems (a b : Item) : Z :=
  let priorityDiff := priorityRank (priority b) - priorityRank (priority a) in
  if negb (priorityDiff =? 0) then priorityDiff
  else timestamp a - timestamp b.

Definition itemBefore (a b : Item) : bool := compareItems a b <=? 0.

Definition enqueueSync (item : option SyncRequest) (now : Z) (newId : string)
    (st : Persistence) : Persistence :=
  match item with
  | None => st
  | Some item =>
      let sanitizedItem :=
        mkItem newId
               (sanitizeInput (str_or (arg_type item) "unknown"))
               (arg_data item)
               now
               0
               (num_or (arg_maxAttempts item) MAX_RETRY_ATTEMPTS)
               (str_or (arg_priority item) "normal")
               (num_or (arg_retries item) 0)
               None in
      let q := syncQueue st ++ [sanitizedItem] in
      let q := stable_sort itemBefore q in
      let q := if (MAX_QUEUE_SIZE <? length q)%nat then take MAX_QUEUE_SIZE q else q in
      saveSyncQueue (setQueue q st)
  end.

(** [findIndex] by id, then [splice(index, 1)]. *)
Fixpoint remove_by_id (k : string) (q : list Item) : list Item :=
  match q with
  | [] => []
  | it :: r => if String.eqb (id it) k then r else it :: remove_by_id k r
  end.

Definition dequeueSync (item : Item) (st : Persistence) : Persistence :=
  if String.eqb (id item) "" then st
  else if existsb (fun it => String.eqb (id it) (id item)) (syncQueue st)
  then saveSyncQueue (setQueue (remove_by_id (id item) (syncQueue st)) st)
  else st.

(** How a promise of [Promise.allSettled] settles. *)
Inductive Outcome :=
| Fulfilled (value : bool)
| Rejected (message : option string).

(** The remote submission, which the queue does not control. *)
Variable remote : Item -> Outcome.

Definition processSyncItem (item : Item) : Outcome :=
  if String.eqb (type item) "leaderboard_update" then remote item
  else if String.eqb (type item) "achievement_unlock" then remote item
  else if String.eqb (type item) "user_progress" then remote item
  else Fulfilled false.

Definition succeeded (r : Outcome) : bool :=
  match r with
  | Fulfilled v => v
  | Rejected _ => false
  end.

Definition failure_message (r : Outcome) : string :=
  str_or (match r with Rejected m => m | Fulfilled _ => None end) "Unknown error".

(** [item.attempts++; item.lastError = ...] *)
Definition record_failure (r : Outcome) (item : Item) : Item :=
  mkItem (id item) (type item) (data item) (timestamp item) (attempts item + 1)
         (maxAttempts item) (priority item) (retries item) (Some (failure_message r)).

(** The batch holds the very objects of the queue: a field written through
    the batch is seen in the queue.  The object is found by its id, which
    [generateSyncId] makes unique. *)
Definition write_through (item' : Item) (st : Persistence) : Persistence :=
  setQueue (map (fun it => if String.eqb (id it) (id item') then item' else it) (syncQueue st)) st.

(** One iteration of [results.forEach] in [processSyncBatch]. *)
Definition settle (st : Persistence) (ir : Item * Outcome) : Persistence :=
  let '(item, result) := ir in
  if succeeded result then dequeueSync item st
  else
    let item := record_failure result item in
    let st := write_through item st in
    if maxAttempts item <=? attempts item then dequeueSync item st else st.

Definition processSyncBatch (batch : list Item) (st : Persistence) : Persistence :=
  let results := map processSyncItem batch in
  saveSyncQueue (fold_left settle (zip batch results) st).

(** The selection made by [processSyncQueue] at time [now]. *)
Definition readyForSync (now : Z) (item : Item) : bool :=
  (attempts item <? maxAttempts item) &&
  (attempts item * SYNC_RETRY_DELAY <? now - timestamp item).

Definition itemsToSync (now : Z) (st : Persistence) : list Item :=
  List.filter (readyForSync now) (syncQueue st).

Definition batchSize : nat := 5.

(** The loop [for (i = 0; i < itemsToSync.length; i += batchSize)]; at most
    [fuel] iterations. *)
Fixpoint process_batches (fuel : nat) (items : list Item) (st : Persistence) : Persistence :=
  match fuel, items with
  | O, _ => st
  | _, [] => st
  | S fuel, _ => process_batches fuel (drop batchSize items)
                                 (processSyncBatch (take batchSize items) st)
  end.

Definition processSyncQueue (now : Z) (st : Persistence) : Persistence :=
  if syncInProgress st || negb (onlineStatus st) || (length (syncQueue st) =? 0)%nat then st
  else
    let st := setInProgress true st in
    let items := itemsToSync now st in
    let st := process_batches (length items) items st in
    setInProgress false st.

End Queue.

Arguments SyncRequest : clear implicits.
Arguments Item : clear implicits.
Arguments Persistence : clear implicits.

(** A sequence of drains, each at its own time and with its own remote
    outcomes. *)
Definition drains {D : Type} (ds : list (Z * (Item D -> Outcome))) (st : Persistence D)
    : Persistence D :=
  fold_left (fun st d => processSyncQueue (snd d) (fst d) st) ds st.

(** *** Notions used to state the properties of the queue *)

Definition ids {D : Type} (q : list (Item D)) : list string := map id q.

(** [settle] as a function of the queue array alone. *)
Definition settle_queue {D : Type} (q : list (Item D)) (ir : Item D * Outcome) : list (Item D) :=
  let '(item, result) := ir in
  if String.eqb (id item) "" then
    (if succeeded result then q
     else map (fun it => if String.eqb (id it) "" then record_failure result item else it) q)
  else if succeeded result then remove_by_id (id item) q
  else
    let item' := record_failure result item in
    let q := map (fun it => if String.eqb (id it) (id item') then item' else it) q in
    if maxAttempts item' <=? attempts item' then remove_by_id (id item') q else q.

(** Priority-major (high, normal, low), timestamp-minor (older first). *)
Definition queue_ordered {D : Type} (q : list (Item D)) : Prop :=
  Sorted (fun a b : Item D =>
            priorityRank (priority b) < priorityRank (priority a) \/
            (priorityRank (priority b) = priorityRank (priority a) /\
             timestamp a <= timestamp b)) q.

(** The queue after all the selected items have been settled, whatever the
    batching. *)
Definition settle_all {D : Type} (f : Item D -> Outcome) (items q : list (Item D))
    : list (Item D) :=
  fold_left settle_queue (map (fun it => (it, f it)) items) q.

(** Sample items: a progress snapshot queued at [ts] with [att] failed
    attempts, default limits and priority. *)
Definition progressItem (k : string) (ts att : Z) : Item unit :=
  mkItem k "user_progress" tt ts att MAX_RETRY_ATTEMPTS "normal" 0 None.

(** A queue with one item on its last attempt and one fresh item. *)
Definition twoItems : Persistence unit :=
  mkPersistence [progressItem "sync_a" 0 4; progressItem "sync_b" 10 0] true false None.

(** A remote that is down. *)
Definition remoteDown (item : Item unit) : Outcome := Rejected (Some "Network timeout").

(** A full queue: 1000 items of priority normal, queued at times 1 .. 1000. *)
Definition fullQueue : list (Item unit) :=
  map (fun n => progressItem ("sync_" +:+ pretty n) n 0) (seqZ 1 1000).

Definition progressRequest : SyncRequest unit :=
  mkRequest (Some "user_progress") tt None (Some "normal") None.

(** The item [enqueueSync] builds from its argument. *)
Definition sanitizedItem {D : Type} (sanitize : string -> string) (req : SyncRequest D)
    (now : Z) (newId : string) : Item D :=
  mkItem newId (sanitize (str_or (arg_type req) "unknown")) (arg_data req) now 0
         (num_or (arg_maxAttempts req) MAX_RETRY_ATTEMPTS)
         (str_or (arg_priority req) "normal") (num_or (arg_retries req) 0) None.

End SyncQueue.

(** ** client/modules/leaderboard-api.js *)
Module Leaderboard.

Definition MAX_LEADERBOARD_SIZE : nat := 100.

Record Entry := mkEntry {
  id : string;
  name : string;
  score : Z;
  timestamp : Z;
  session : string
}.

(** A [Map] keyed by entry id: [set] on a present key replaces the value in
    place, on a new key appends; [values()] iterates in insertion order. *)
Fixpoint map_set (k : string) (v : Entry) (m : list (string * Entry)) : list (string * Entry) :=
  match m with
  | [] => [(k, v)]
  | (k', v') :: r => if String.eqb k' k then (k', v) :: r else (k', v') :: map_set k v r
  end.

Fixpoint map_get (k : string) (m : list (string * Entry)) : option Entry :=
  match m with
  | [] => None
  | (k', v') :: r => if String.eqb k' k then Some v' else map_get k r
  end.

Definition map_values (m : list (string * Entry)) : list Entry := map snd m.

(** The test under which a secondary entry replaces the existing one. *)
Definition replaces (entry existing : Entry) : bool :=
  (score existing <? score entry) ||
  ((score entry =? score existing) && (timestamp existing <? timestamp entry)).

(** The two [forEach] loops of [mergeLeaderboards]. *)
Definition joinLeaderboards (primary secondary : list Entry) : list (string * Entry) :=
  let merged := fold_left (fun merged entry => map_set (id entry) entry merged) primary [] in
  fold_left (fun merged entry =>
               match map_get (id entry) merged with
               | None => map_set (id entry) entry merged
               | Some existing =>
                   if replaces entry existing then map_set (id entry) entry merged
                   else merged
               end) secondary merged.

(** The comparator [(a, b) => b.score - a.score]. *)
Definition scoreBefore (a b : Entry) : bool := score b - score a <=? 0.

Definition sortByScore (l : list Entry) : list Entry := stable_sort scoreBefore l.

Definition mergeLeaderboards (primary secondary : list Entry) : list Entry :=
  take MAX_LEADERBOARD_SIZE (sortByScore (map_values (joinLeaderboards primary secondary))).

(** What [getUser()] returns: [user.id?.toString()], [first_name], [username]. *)
Record User := mkUser {
  user_id : option string;
  first_name : option string;
  username : option string
}.

(** The module state, what [saveLocalLeaderboard] last wrote, and the sync
    queue of persistence.js that [enqueueSync] acts on. *)
Record Board := mkBoard {
  leaderboard : list Entry;
  savedLeaderboard : option (list Entry);
  persistence : SyncQueue.Persistence Entry
}.

Section Update.

Variable sanitizeInput : string -> string.

(** The request handed to [enqueueSync] by [updateLeaderboard]. *)
Definition syncRequest (playerEntry : Entry) : SyncQueue.SyncRequest Entry :=
  SyncQueue.mkRequest (Some "leaderboard_update") playerEntry None (Some "normal") (Some 3).

(** [updateLeaderboard(score)]: [user] is [getUser()], [inTelegram] is
    [isInsideTelegram()], [sessionId] and [syncId] are the generated ids. *)
Definition updateLeaderboard (user : option User) (score0 : Q) (now : Z)
    (sessionId syncId : string) (inTelegram : bool) (b : Board) : Board :=
  match user with
  | None => b
  | Some user =>
      if Qlt_bool score0 0 then b
      else
        let playerEntry :=
          mkEntry (sanitizeInput (str_or (user_id user) "anonymous"))
                  (sanitizeInput (str_or (first_name user) (str_or (username user) "Anonymous")))
                  (Qfloor score0) now sessionId in
        let lb := List.filter (fun entry => negb (String.eqb (id entry) (id playerEntry)))
                              (leaderboard b) in
        let lb := lb ++ [playerEntry] in
        let lb := sortByScore lb in
        let lb := take MAX_LEADERBOARD_SIZE lb in
        let b := mkBoard lb (Some lb) (persistence b) in
        if inTelegram
        then mkBoard (leaderboard b) (savedLeaderboard b)
               (SyncQueue.enqueueSync sanitizeInput (Some (syncRequest playerEntry)) now syncId
                                      (persistence b))
        else b
  end.

End Update.

(** *** Notions used to state the properties of the leaderboard *)

Definition ids (l : list Entry) : list string := map id l.

(** [l.find(entry => entry.id === k)] *)
Definition find_entry (k : string) (l : list Entry) : option Entry :=
  List.find (fun entry => String.eqb (id entry) k) l.

(** The entries of an array as a [Map] from their ids, in array order. *)
Definition as_map (l : list Entry) : list (string * Entry) := map (fun entry => (id entry, entry)) l.

(** Descending by score. *)
Definition descending (l : list Entry) : Prop := Sorted (fun a b => score b <= score a) l.

(** Every value of the [Map] sits under its own id. *)
Definition keyed (m : list (string * Entry)) : Prop := Forall (fun kv => fst kv = id (snd kv)) m.

(** What the join keeps for an id, given the entry of each side. *)
Definition merge_choice (a b : option Entry) : option Entry :=
  match b with
  | None => a
  | Some b => match a with
              | None => Some b
              | Some a => if replaces b a then Some b else Some a
              end
  end.

(** One step of the second loop of [mergeLeaderboards]. *)
Definition secondary_step (merged : list (string * Entry)) (entry : Entry) : list (string * Entry) :=
  match map_get (id entry) merged with
  | None => map_set (id entry) entry merged
  | Some existing =>
      if replaces entry existing then map_set (id entry) entry merged else merged
  end.

(** Two small leaderboards that share the id "bob". *)
Definition boardA : list Entry :=
  [mkEntry "alice" "Alice" 300 10 "s1"; mkEntry "bob" "Bob" 200 20 "s2"].
Definition boardB : list Entry :=
  [mkEntry "bob" "Bob" 250 30 "s3"; mkEntry "carol" "Carol" 100 40 "s4"].

(** The entry [updateLeaderboard] builds for the acting player. *)
Definition playerEntry (sanitize : string -> string) (user : User) (score0 : Q) (now : Z)
    (sessionId : string) : Entry :=
  mkEntry (sanitize (str_or (user_id user) "anonymous"))
          (sanitize (str_or (first_name user) (str_or (username user) "Anonymous")))
          (Qfloor score0) now sessionId.

(** A signed-in player, and a board with an empty sync queue. *)
Definition ann : User := mkUser (Some "42") (Some "Ann") None.
Definition board0 : Board :=
  mkBoard boardA None (SyncQueue.mkPersistence [] true false None).

End Leaderboard.

(** On text without markup characters, script-like patterns or redundant
    white space, [sanitizeInput] returns its argument; the worked examples
    below only use such text. *)
Definition plainText (input : string) : string := input.

(** ** modules/ui.js: connections closing, the game loop and resets *)
Module ArenaLoop.
Import Arena.

(** What [broadcast] sends: the messages of the connection handlers, and the
    two of the game loop, which carry the whole roster. *)
Inductive Notice :=
| event (ev : Event)
| gasRecharge (players : gmap Z Player)
| gameReset (players : gmap Z Player).

(** The server with every broadcast in the order sent, and the number of
    [setTimeout(resetGame, 3000)] timers that have not fired yet. *)
Record World := mkWorld {
  arena : Server;
  sent : list Notice;
  resetTimers : nat
}.

(** A handler of a connection runs on the roster; its broadcasts are sent. *)
Definition handle (f : Server -> Server) (w : World) : World :=
  let s := f (arena w) in
  mkWorld s (sent w ++ map event (broadcasts_since (arena w) s)) (resetTimers w).

(** [ws.on('close')]. *)
Definition on_close (playerId : Z) (s : Server) : Server :=
  broadcast (playerLeft playerId)
    (mkServer (delete playerId (players s)) (nextId s) (broadcasts s)).

(** [ws.on('error')]. *)
Definition on_error (playerId : Z) (s : Server) : Server :=
  match players s !! playerId with
  | Some _ => on_close playerId s
  | None => s
  end.

(** The body of the loop of the tick over one player. *)
Definition recharge (p : Player) : Player :=
  if alive p then set_gas (Z.min 100 (gas p + 8)) p else p.

(** The counter [activePlayers] at the end of that loop. *)
Definition activePlayers (m : gmap Z Player) : nat :=
  size (filter (fun kp : Z * Player => alive (snd kp) = true) m).

(** The callback of [setInterval(..., 1000)]. *)
Definition tick (w : World) : World :=
  let s := arena w in
  let roster := recharge <$> players s in
  let active := activePlayers roster in
  let sent' := if (0 <? active)%nat then sent w ++ [gasRecharge roster] else sent w in
  let timers :=
    if (active =? 1)%nat && (1 <? size roster)%nat
    then S (resetTimers w) else resetTimers w in
  mkWorld (mkServer roster (nextId s) (broadcasts s)) sent' timers.

(** The body of the loop of [resetGame] over one player, at the position drawn. *)
Definition reset_player (pos : Q * Q) (p : Player) : Player :=
  mkPlayer (id p) (fst pos) (snd pos) 100 100 true 0 1 (name p).

(** [resetGame]; [spawn] gives the position drawn for each roster key. *)
Definition resetGame (spawn : Z -> Q * Q) (w : World) : World :=
  let s := arena w in
  let roster := map_imap (fun k p => Some (reset_player (spawn k) p)) (players s) in
  mkWorld (mkServer roster (nextId s) (broadcasts s)) (sent w ++ [gameReset roster])
          (resetTimers w).

(** What happens at the server: a connection opens, a message arrives on
    the connection of a player, a connection fails or closes, the loop
    ticks, a reset timer fires. *)
Inductive Step :=
| Connect (spawnX spawnY : Q)
| Receive (playerId : Z) (m : Message)
| Fault (playerId : Z)
| Close (playerId : Z)
| Tick
| Reset (spawn : Z -> Q * Q).

Definition step (st : Step) (w : World) : World :=
  match st with
  | Connect spawnX spawnY => handle (fun s => snd (on_connection spawnX spawnY s)) w
  | Receive playerId m => handle (on_message playerId m) w
  | Fault playerId => handle (on_error playerId) w
  | Close playerId => handle (on_close playerId) w
  | Tick => tick w
  | Reset spawn =>
      let w' := resetGame spawn w in
      mkWorld (arena w') (sent w') (Nat.pred (resetTimers w'))
  end.

Definition steps (sts : list Step) (w : World) : World :=
  fold_left (fun w st => step st w) sts w.


(** [Math.random() * 600 + 50] and [Math.random() * 400 + 50]. *)
Definition spawn_range (pos : Q * Q) : Prop :=
  (50 <= fst pos)%Q /\ (fst pos < 650)%Q /\ (50 <= snd pos)%Q /\ (snd pos < 450)%Q.

(** A step that can occur: positions are drawn in the spawn range, messages
    and closes come from connections made earlier, and a reset fires only
    from a pending timer. *)
Definition possible (st : Step) (w : World) : Prop :=
  match st with
  | Connect spawnX spawnY => spawn_range (spawnX, spawnY)
  | Receive playerId _ | Fault playerId | Close playerId =>
      1 <= playerId < nextId (arena w)
  | Tick => True
  | Reset spawn => (0 < resetTimers w)%nat /\ forall k, spawn_range (spawn k)
  end.

(** The server starts with an empty roster and [nextId = 1]. *)
Definition boot : World := mkWorld (mkServer ∅ 1 []) [] 0.

Inductive reachable : World -> Prop :=
| reach_boot : reachable boot
| reach_step st w : reachable w -> possible st w -> reachable (step st w).

(** *** Notions used to state the properties of the loop *)

(** The broadcasts made since the world was [w0]. *)
Definition sent_since (w0 w : World) : list Notice :=
  drop (length (sent w0)) (sent w).

Definition ticks (n : nat) (w : World) : World := Nat.iter n tick w.


(** The condition under which the tick arms a reset: exactly one player
    alive among several. *)
Definition lone_survivor (m : gmap Z Player) : bool :=
  (activePlayers m =? 1)%nat && (1 <? size m)%nat.

(** Players 1 and 2 connect 30 units apart. *)
Definition skirmish : World := steps [Connect 100 100; Connect 130 100] boot.

(** Player 1 then slaps player 2 four times, which brings player 2 down. *)
Definition knockout : World :=
  steps (replicate 4 (Receive 1 (slap (Some 2)))) skirmish.


(** The target of a hit afterwards. *)
Definition struck (p : Player) : Player :=
  let p := set_health (health p - 25) p in
  if health p <=? 0 then set_alive false p else p.

(** The hit is the one that brings the target down. *)
Definition lethal (p : Player) : bool := health p - 25 <=? 0.

(** The attacker after the rewards of a hit. *)
Definition rewarded (kill : bool) (p : Player) : Player :=
  let p := set_score (score p + 50 * combo p) p in
  if kill then set_score (score p + 200) p else p.

(** The target a slap of [a] hits, as the range test sees it once the
    attacker has paid for the slap; [m] is the roster before the slap. *)
Definition hit_target (a : Z) (tgt : option Z) (m : gmap Z Player) : option (Z * Player) :=
  let m1 := alter charged a m in
  match tgt, m1 !! a with
  | Some t, Some p1 =>
      match m1 !! t with
      | Some pt => if alive pt && in_slap_range pt p1 then Some (t, pt) else None
      | None => None
      end
  | _, _ => None
  end.

(** The roster after an accepted slap of [a]. *)
Definition slap_roster (a : Z) (tgt : option Z) (m : gmap Z Player) : gmap Z Player :=
  let m1 := alter charged a m in
  match hit_target a tgt m with
  | Some (t, pt) => alter (rewarded (lethal pt)) a (alter struck t m1)
  | None => m1
  end.

(** The broadcasts of an accepted slap of [a]. *)
Definition slap_events (a : Z) (tgt : option Z) (m : gmap Z Player) : list Event :=
  match hit_target a tgt m with
  | Some (t, pt) =>
      (if lethal pt then [playerDied t a] else []) ++ [playerHit t (health pt - 25) a 25]
  | None => []
  end ++
  match slap_roster a tgt m !! a with
  | Some p => [playerUpdate a (gas p) (score p) (combo p)]
  | None => []
  end.

End ArenaLoop.

(** ** unnamed/part_001: the multiplayer client *)
Module Multiplayer.
Import Arena ArenaLoop.

(** The module variables [playerId] and [players]. *)
Record Client := mkClient {
  playerId : option Z;
  players : gmap Z Player
}.

Definition update (f : gmap Z Player -> gmap Z Player) (c : Client) : Client :=
  mkClient (playerId c) (f (players c)).

(** [handleMessage], on the parsed message. *)
Definition handleMessage (c : Client) (data : Notice) : Client :=
  match data with
  | event (init i ps) => mkClient (Some i) ps
  | event (playerJoined p) => update (insert (id p) p) c
  | event (playerLeft i) => update (delete i) c
  | event (playerMoved i vx vy) => update (alter (set_xy vx vy) i) c
  | event (playerHit i h _ _) => update (alter (set_health h) i) c
  | event (playerDied i _) => update (alter (set_alive false) i) c
  | event (playerUpdate i g s k) =>
      update (alter (fun p => set_combo k (set_score s (set_gas g p))) i) c
  | gasRecharge ps => update (fun m => ps ∪ m) c       (* Object.assign(players, ps) *)
  | gameReset ps => mkClient (playerId c) ps
  end.

Definition receive (c : Client) (msgs : list Notice) : Client :=
  fold_left handleMessage msgs c.

(** Two player objects that differ at most in [name]. *)
Definition same_but_name (p q : Player) : Prop :=
  id p = id q /\ x p = x q /\ y p = y q /\ health p = health q /\ gas p = gas q /\
  alive p = alive q /\ score p = score q /\ combo p = combo q.

(** The client's copy of the roster has the keys of the server's, and
    under each key the same player but possibly for its [name]. *)
Definition mirrors (view roster : gmap Z Player) : Prop :=
  forall k, option_Forall2 same_but_name (view !! k) (roster !! k).

End Multiplayer.

(** ** client/modules/leaderboard-api.js: queries and the sync grouping *)
Module LeaderboardApi.
Import Leaderboard.

(** [getLeaderboard]: the top 50, for display. *)
Definition getLeaderboard (l : list Entry) : list Entry := take 50 l.

(** [Array.prototype.findIndex]; [None] stands for -1. *)
Fixpoint findIndex {A : Type} (p : A -> bool) (l : list A) : option nat :=
  match l with
  | [] => None
  | a :: r => if p a then Some 0%nat else S <$> findIndex p r
  end.

(** [getPlayerRank]: [index + 1], or [null]. *)
Definition getPlayerRank (playerId : string) (l : list Entry) : option nat :=
  S <$> findIndex (fun entry => String.eqb (id entry) playerId) l.

(** The queue items [syncLeaderboard] looks at. *)
Definition leaderboardItems (syncQueue : list (SyncQueue.Item Entry))
    : list (SyncQueue.Item Entry) :=
  List.filter (fun item => String.eqb (SyncQueue.type item) "leaderboard_update") syncQueue.

(** The [Map] [latestScores] that [syncLeaderboard] builds from them. *)
Definition latestScores (items : list (SyncQueue.Item Entry)) : list (string * Entry) :=
  fold_left (fun latest item =>
               let playerId := id (SyncQueue.data item) in
               match map_get playerId latest with
               | None => map_set playerId (SyncQueue.data item) latest
               | Some known =>
                   if timestamp known <? timestamp (SyncQueue.data item)
                   then map_set playerId (SyncQueue.data item) latest
                   else latest
               end) items [].

(** *** Notions used to state the properties *)

(** The players that stay ahead of a new entry with score [s]: everybody
    else whose score is at least [s]. *)
Definition ahead_of (playerId : string) (s : Z) (l : list Entry) : nat :=
  length (List.filter (fun e => negb (String.eqb (id e) playerId) && (s <=? score e)) l).

End LeaderboardApi.

(** ** modules/persistence.js: the sync queue over a session *)
Module QueueSession.
Import SyncQueue.

Section Session.
Context {D : Type}.
Variable sanitizeInput : string -> string.

(** The [online] and [offline] handlers of [setupNetworkHandlers]. *)
Definition setOnline (b : bool) (st : Persistence D) : Persistence D :=
  mkPersistence (syncQueue st) b (syncInProgress st) (savedQueue st).

(** What happens to the queue: the exported operations, a drain with the
    outcomes the remote then gives, and the network coming and going. *)
Inductive Op :=
| Enqueue (item : SyncRequest D) (now : Z) (newId : string)
| Dequeue (item : Item D)
| Drain (remote : Item D -> Outcome) (now : Z)
| Network (online : bool).

Definition run_op (op : Op) (st : Persistence D) : Persistence D :=
  match op with
  | Enqueue item now newId => enqueueSync sanitizeInput (Some item) now newId st
  | Dequeue item => dequeueSync item st
  | Drain remote now => processSyncQueue remote now st
  | Network online => setOnline online st
  end.

(** [generateSyncId] returns an id that is not empty and not in the queue. *)
Definition fresh (op : Op) (st : Persistence D) : Prop :=
  match op with
  | Enqueue _ _ newId => newId <> "" /\ newId ∉ ids (syncQueue st)
  | _ => True
  end.

(** The module starts with an empty queue. *)
Definition start (online : bool) : Persistence D := mkPersistence [] online false None.

Inductive reachable : Persistence D -> Prop :=
| reach_start online : reachable (start online)
| reach_op op st : reachable st -> fresh op st -> reachable (run_op op st).

End Session.

(** *** Notions used to state the properties of a session *)



(** The item is not due at [now]: its attempts are used up, or its retry
    delay - 30 s for each failed attempt, counted from the time it was
    queued - has not passed. *)
Definition not_due {D : Type} (now : Z) (x : Item D) : Prop :=
  maxAttempts x <= attempts x \/ now - timestamp x <= attempts x * SYNC_RETRY_DELAY.

End QueueSession.

(** ** client/modules/security.js: the request rate limiter *)
Module Security.

Definition RATE_LIMIT_WINDOW : Z := 60000.
Definition MAX_REQUESTS_PER_WINDOW : nat := 100.

(** The [Map] [requestLog] holds the timestamps kept for each identifier. *)

(** [checkRateLimit(identifier)] at time [now]. *)
Definition checkRateLimit (identifier : string) (now : Z) (requestLog : gmap string (list Z))
    : bool * gmap string (list Z) :=
  let windowStart := now - RATE_LIMIT_WINDOW in
  let requests := default [] (requestLog !! identifier) in
  let validRequests := List.filter (fun timestamp => windowStart <? timestamp) requests in
  if (MAX_REQUESTS_PER_WINDOW <=? length validRequests)%nat
  then (false, <[identifier := validRequests]> requestLog)
  else (true, <[identifier := validRequests ++ [now]]> requestLog).

(** *** Notions used to state the properties of the limiter *)

(** The log after the calls made at [times], in order, for one identifier. *)
Definition after_calls (identifier : string) (times : list Z) (requestLog : gmap string (list Z))
    : gmap string (list Z) :=
  fold_left (fun log now => snd (checkRateLimit identifier now log)) times requestLog.

(** The times, among [times], at which the call returned [true]. *)
Fixpoint allowed (identifier : string) (times : list Z) (requestLog : gmap string (list Z)) : list Z :=
  match times with
  | [] => []
  | now :: rest =>
      let r := checkRateLimit identifier now requestLog in
      (if fst r then [now] else []) ++ allowed identifier rest (snd r)
  end.

(** [a] lies in the window of one minute that ends at [t]. *)
Definition in_window (t a : Z) : bool := (t - RATE_LIMIT_WINDOW <? a) && (a <=? t).

End Security.

(** ** modules/persistence.js: saving and loading state *)
Module Storage.

Definition STORAGE_PREFIX : string := "ngs_".

(** [30 * 24 * 60 * 60 * 1000]: the age, in ms, beyond which [loadState]
    discards what it finds. *)
Definition maxAge : Z := 30 * 24 * 60 * 60 * 1000.

Section Store.

(** The data handed to [saveState]; [JSON.parse] gives back what
    [JSON.stringify] was given. *)
Context {D : Type}.

(** What [loadState] makes of a string of [localStorage]: an object, whose
    [data] and [timestamp] may be missing, or something it cannot read (an
    empty string, text that is not JSON, a value that is not an object). *)
Inductive Stored :=
| Wrapper (data : option D) (timestamp : option Z)
| Unreadable.

(** [localStorage] is a map from keys to what is stored.  [setItem] is taken
    to succeed: the branch of [saveState] for a [QuotaExceededError] is
    outside this embedding. *)

(** [cleanupOldData], which [saveState] runs first when the browser reports
    the quota as nearly used up; nothing below depends on what it removes. *)
Variable cleanupOldData : gmap string Stored -> gmap string Stored.

Definition removeState (key : string) (ls : gmap string Stored) : gmap string Stored :=
  if String.eqb key "" then ls
  else delete (STORAGE_PREFIX +:+ key) ls.

(** [saveState(key, data)] at time [now]; [data = None] stands for
    [undefined], [wouldExceedQuota] is the answer of the quota estimate.  The
    result is the message of the error thrown, if any. *)
Definition saveState (key : string) (data : option D) (now : Z) (wouldExceedQuota : bool)
    (ls : gmap string Stored) : option string * gmap string Stored :=
  match data with
  | None => (Some "Failed to save data locally", ls)
  | Some d =>
      if String.eqb key "" then (Some "Failed to save data locally", ls)
      else
        let prefixedKey := STORAGE_PREFIX +:+ key in
        let ls := if wouldExceedQuota then cleanupOldData ls else ls in
        (None, <[prefixedKey := Wrapper (Some d) (Some now)]> ls)
  end.

(** [loadState(key)] at time [now]: the data, or [None] for [null]. *)
Definition loadState (key : string) (now : Z) (ls : gmap string Stored)
    : option D * gmap string Stored :=
  if String.eqb key "" then (None, ls)
  else
    match ls !! (STORAGE_PREFIX +:+ key) with
    | None => (None, ls)
    | Some Unreadable => (None, ls)
    | Some (Wrapper data timestamp) =>
        let age := now - num_or timestamp 0 in
        if maxAge <? age then (None, removeState key ls)
        else (data, ls)
    end.

End Store.

End Storage.

(** * Properties *)

(** ** The rate limiter / combo engine *)
Section EngineFacts.
Import Engine.

Lemma Qfloor_le_Z (q : Q) (n : Z) : (q <= inject_Z n)%Q -> Qfloor q <= n.
Proof.
  intros H. rewrite <- (Qfloor_Z n). now apply Qfloor_resp_le.
Qed.

Lemma applyPowerUpEffects_total ps c :
  applyPowerUpEffects ps (inject_Z (1 * c)) = pointTotal ps c.
Proof.
  unfold applyPowerUpEffects, pointTotal, modifier.
  apply Qfloor_comp.
  destruct (active (ps doublePoints)), (active (ps rapidFire)), (active (ps boost));
    rewrite inject_Z_mult; ring.
Qed.

Lemma pointTotal_le_450 ps c : c <= 50 -> pointTotal ps c <= 450.
Proof.
  intros Hc. unfold pointTotal, modifier.
  apply Qfloor_le_Z.
  assert (Hq : (inject_Z c <= 50)%Q).
  { change 50%Q with (inject_Z 50). now rewrite <- Zle_Qle. }
  change (inject_Z 450) with (450%Q).
  destruct (active (ps doublePoints)), (active (ps rapidFire)), (active (ps boost)); lra.
Qed.

Lemma calculateCombo_le_50 now g : calculateCombo now g <= 50.
Proof. unfold calculateCombo. destruct (_ <? _); lia. Qed.

Lemma same_but_achievements_refl g : same_but_achievements g g.
Proof. now destruct g. Qed.

Lemma same_but_achievements_trans g1 g2 g3 :
  same_but_achievements g1 g2 -> same_but_achievements g2 g3 -> same_but_achievements g1 g3.
Proof. unfold same_but_achievements. intros H12 H23. rewrite H23, H12. reflexivity. Qed.

Lemma unlockAchievement_same a g : same_but_achievements g (unlockAchievement a g).
Proof.
  unfold unlockAchievement. destruct (includes a (achievements g)).
  - apply same_but_achievements_refl.
  - reflexivity.
Qed.

Lemma fold_same {M : Type} (f : GameState -> M -> GameState) :
  (forall g m, same_but_achievements g (f g m)) ->
  forall l g, same_but_achievements g (fold_left f l g).
Proof.
  intros Hf. induction l as [|m l IH]; intros g; simpl.
  - apply same_but_achievements_refl.
  - eapply same_but_achievements_trans; [apply Hf | apply IH].
Qed.

Lemma checkAchievements_same prev new g : same_but_achievements g (checkAchievements prev new g).
Proof.
  unfold checkAchievements.
  match goal with |- context [fold_left ?f milestones g] =>
    pose proof (fold_same f) as Hfold; set (g1 := fold_left f milestones g) end.
  assert (H1 : same_but_achievements g g1).
  { apply Hfold. intros g0 m. destruct (_ && _).
    - apply unlockAchievement_same.
    - apply same_but_achievements_refl. }
  clearbody g1. clear Hfold.
  eapply same_but_achievements_trans; [exact H1|].
  assert (Hif : forall (c : bool) a x,
             same_but_achievements x (if c then unlockAchievement a x else x)).
  { intros [] a x; [apply unlockAchievement_same | apply same_but_achievements_refl]. }
  eapply same_but_achievements_trans; [|apply Hif]. apply Hif.
Qed.

Lemma checkPowerUpUnlocks_gameState e : gameState (checkPowerUpUnlocks e) = gameState e.
Proof.
  unfold checkPowerUpUnlocks.
  destruct (fold_left _ _ _) as [ps any]. now destruct any.
Qed.

Lemma checkPowerUpUnlocks_tapsWindow e : tapsWindow (checkPowerUpUnlocks e) = tapsWindow e.
Proof.
  unfold checkPowerUpUnlocks.
  destruct (fold_left _ _ _) as [ps any]. now destruct any.
Qed.

Lemma checkPowerUpUnlocks_savedGameState e :
  savedGameState (checkPowerUpUnlocks e) = savedGameState e.
Proof.
  unfold checkPowerUpUnlocks.
  destruct (fold_left _ _ _) as [ps any]. now destruct any.
Qed.

(** The three ways a call of [slap] ends.  The increment guard never fires:
    the new combo is at most 50, so the total is at most 450. *)
Lemma slap_cases now e :
  let g := gameState e in
  let w := window now e in
  (4 <= Z.of_nat (length w) /\ slap now e = (Threw RATE_MESSAGE, setTapsWindow w e))
  \/ (Z.of_nat (length w) < 4 /\ now - lastSlapAt g < MIN_INTERVAL /\
      slap now e = (Ignored, setTapsWindow w e))
  \/ (Z.of_nat (length w) < 4 /\ MIN_INTERVAL <= now - lastSlapAt g /\
      exists e',
        slap now e = (Awarded (pointTotal (powerUpsState e) (calculateCombo now g)), e') /\
        same_but_achievements
          (mkGameState (score g + pointTotal (powerUpsState e) (calculateCombo now g))
             (calculateCombo now g) now now (totalSlaps g + 1) (sessionStartTime g)
             (dailyClaimed g) (lastDailyClaim g) (achievements g)
             (mkStatistics (totalPlayTime (statistics g))
                (Z.max (highestCombo (statistics g)) (calculateCombo now g))
                (totalTaps (statistics g) + 1) (sessionsPlayed (statistics g))))
          (gameState e') /\
        tapsWindow e' = w ++ [now] /\
        (savedGameState e' = savedGameState e \/ savedGameState e' = Some (gameState e'))).
Proof.
  intros g w. unfold slap, isValidTapRate. fold (window now e). fold w.
  unfold MAX_TAPS_PER_SECOND.
  destruct (Z.leb_spec 4 (Z.of_nat (length w))) as [Hw|Hw]; cbn [negb].
  { left. split; [lia | reflexivity]. }
  right.
  change (gameState (setTapsWindow w e)) with g.
  destruct (Z.ltb_spec (now - lastSlapAt g) MIN_INTERVAL) as [Hi|Hi].
  { left. split; [lia|]. split; [exact Hi | reflexivity]. }
  right. split; [lia|]. split; [exact Hi|].
  cbv zeta.
  change (calculateCombo now (gameState (countTap now (setTapsWindow w e))))
    with (calculateCombo now g).
  change (powerUpsState (countTap now (setTapsWindow w e))) with (powerUpsState e).
  rewrite !applyPowerUpEffects_total.
  pose proof (pointTotal_le_450 (powerUpsState e) (calculateCombo now g)
                (calculateCombo_le_50 now g)) as Hp.
  destruct (Z.ltb_spec MAX_SCORE_INCREMENT (pointTotal (powerUpsState e) (calculateCombo now g)))
    as [Hbad|_].
  { unfold MAX_SCORE_INCREMENT in Hbad. lia. }
  eexists. split; [reflexivity|].
  unfold commitSlap. cbv zeta.
  match goal with |- context [if ?c then saveGameState ?x else ?x] =>
    set (c0 := c); set (x0 := x) end.
  assert (Hg0 : gameState (if c0 then saveGameState x0 else x0) = gameState x0)
    by now destruct c0.
  assert (Hw0 : tapsWindow (if c0 then saveGameState x0 else x0) = tapsWindow x0)
    by now destruct c0.
  rewrite Hg0, Hw0. split; [|split].
  - subst x0. rewrite checkPowerUpUnlocks_gameState.
    cbn [gameState setGameState]. apply checkAchievements_same.
  - subst x0. rewrite checkPowerUpUnlocks_tapsWindow. reflexivity.
  - destruct c0; [right; reflexivity | left].
    subst x0. rewrite checkPowerUpUnlocks_savedGameState. reflexivity.
Qed.

(** In every state of a session the combo clock is the time of the last
    accepted slap: [slap] writes [lastSlapAt] and [lastComboTick] together
    and nothing else writes either. *)
Lemma same_but_achievements_clocks g g' :
  same_but_achievements g g' -> clocks_agree g -> clocks_agree g'.
Proof. unfold same_but_achievements, clocks_agree. intros -> H. exact H. Qed.

Lemma run_op_clocks op e :
  clocks_agree (gameState e) ->
  (forall g, savedGameState e = Some g -> clocks_agree g) ->
  clocks_agree (gameState (run_op op e)) /\
  (forall g, savedGameState (run_op op e) = Some g -> clocks_agree g).
Proof.
  intros Hg Hs. destruct op as [now|now|amount|id|id| | |d|]; cbn [run_op].
  - destruct (slap_cases now e) as [[_ ->]|[(_ & _ & ->)|(_ & _ & e' & -> & Hsame & _ & Hsaved)]];
      cbn [snd]; [now split | now split |].
    assert (Hc : clocks_agree (gameState e')).
    { eapply same_but_achievements_clocks; [exact Hsame | reflexivity]. }
    split; [exact Hc|]. intros g0 Hg0.
    destruct Hsaved as [Heq|Heq]; rewrite Heq in Hg0.
    + now apply Hs.
    + now inversion Hg0; subst.
  - unfold claimDailyReward. destruct (_ && _); cbn [snd]; [now split|].
    split; [exact Hg|]. cbn. intros g0 [= <-]. exact Hg.
  - unfold addDebugScore. destruct (0 <? amount); now split.
  - unfold activatePowerUp.
    destruct (negb _); [now split|]. destruct (0 <? _); [now split|].
    destruct (active _); now split.
  - unfold deactivatePowerUp. destruct (active _); now split.
  - now split.
  - now split.
  - unfold dailyResetTick. destruct d; now split.
  - split; [exact Hg|]. cbn. intros g0 [= <-]. exact Hg.
Qed.

Lemma startEngine_clocks now saved savedPU :
  (forall g, saved = Some g -> clocks_agree g) ->
  clocks_agree (gameState (startEngine now saved savedPU)) /\
  (forall g, savedGameState (startEngine now saved savedPU) = Some g -> clocks_agree g).
Proof.
  intros Hs. unfold startEngine.
  rewrite checkPowerUpUnlocks_gameState, checkPowerUpUnlocks_savedGameState.
  split; [|exact Hs].
  destruct saved as [g|]; [|reflexivity].
  unfold clocks_agree. cbn. now apply Hs.
Qed.

Lemma reachable_clocks e :
  reachable e ->
  clocks_agree (gameState e) /\ (forall g, savedGameState e = Some g -> clocks_agree g).
Proof.
  induction 1 as [now|now e _ [_ IHs]|op e _ [IHg IHs]].
  - apply startEngine_clocks. discriminate.
  - now apply startEngine_clocks.
  - now apply run_op_clocks.
Qed.

(** A session without persisted state starts from the defaults of
    [resetGameState], with the combo at 1. *)
Lemma fresh_start_is_reset now :
  gameState (startEngine now None None) = resetGameState now /\
  combo (resetGameState now) = 1.
Proof. split; reflexivity. Qed.


(** C2 (counterexample): in a fresh session, after four accepted slaps at
    1000000, 1000250, 1000500 and 1000750 the window holds four entries at
    time 1000999, and the fifth slap does not return silently: it throws
    the error "Tap rate too high. Please slow down!". *)
Lemma rate_limit_throws_at_fifth_slap :
  window 1000999 after_four_slaps = [1000000; 1000250; 1000500; 1000750] /\
  fst (slap 1000999 after_four_slaps) = Threw RATE_MESSAGE /\
  fst (slap 1000999 after_four_slaps) <> Ignored.
Proof.
  assert (H : fst (slap 1000999 after_four_slaps) = Threw RATE_MESSAGE) by (vm_compute; reflexivity).
  split; [vm_compute; reflexivity|]. split; [exact H|].
  rewrite H. discriminate.
Qed.

(** C2 (amended): whenever the sliding one-second window already holds four
    or more accepted taps, [slap] awards nothing and leaves the game state
    untouched, but the rejection is not silent: the call throws the error
    "Tap rate too high. Please slow down!" to its caller. *)
Theorem rate_limit_rejects_by_throwing (now : Z) (e : Engine) :
  4 <= Z.of_nat (length (window now e)) ->
  slap now e = (Threw RATE_MESSAGE, setTapsWindow (window now e) e) /\
  is_awarded (fst (slap now e)) = false /\
  gameState (snd (slap now e)) = gameState e.
Proof.
  intros Hw.
  destruct (slap_cases now e) as [[_ H]|[(Hlt & _)|(Hlt & _)]]; [|lia|lia].
  rewrite H. repeat split.
Qed.

(** The fifth slap of the run above, settled by the theorem. *)
Lemma rate_limit_rejects_by_throwing_witness :
  slap 1000999 after_four_slaps
  = (Threw RATE_MESSAGE, setTapsWindow (window 1000999 after_four_slaps) after_four_slaps).
Proof.
  apply (rate_limit_rejects_by_throwing 1000999 after_four_slaps).
  vm_compute. discriminate.
Defined.

(** C10: a rejected slap is atomic.  A call of [slap] that awards nothing
    ended either on the rate limit (it throws) or on the 250 ms minimum
    interval (it returns silently), and in both cases every field of the
    game state - score, combo, lastSlapAt, lastComboTick, totalSlaps,
    achievements, statistics - is what it was before the call. *)
Theorem rejected_slap_is_atomic (now : Z) (e : Engine) :
  is_awarded (fst (slap now e)) = false ->
  let g := gameState e in
  let g' := gameState (snd (slap now e)) in
  ((4 <= Z.of_nat (length (window now e)) /\ fst (slap now e) = Threw RATE_MESSAGE) \/
   (now - lastSlapAt g < MIN_INTERVAL /\ fst (slap now e) = Ignored)) /\
  g' = g /\
  score g' = score g /\ combo g' = combo g /\ lastSlapAt g' = lastSlapAt g /\
  lastComboTick g' = lastComboTick g /\ totalSlaps g' = totalSlaps g /\
  achievements g' = achievements g /\ statistics g' = statistics g.
Proof.
  intros Hna g g'. subst g g'.
  destruct (slap_cases now e) as [[Hw H]|[(_ & Hi & H)|(_ & _ & e' & H & _)]].
  - rewrite H. cbn [fst snd]. split; [left; now split|]. repeat split.
  - rewrite H. cbn [fst snd]. split; [right; now split|]. repeat split.
  - rewrite H in Hna. discriminate.
Qed.

(** A second slap 100 ms after an accepted one is ignored and changes nothing. *)
Lemma rejected_slap_is_atomic_witness :
  gameState (snd (slap 1000100 (slaps [1000000] (startEngine 999000 None None))))
  = gameState (slaps [1000000] (startEngine 999000 None None)).
Proof.
  apply (rejected_slap_is_atomic 1000100 (slaps [1000000] (startEngine 999000 None None))).
  vm_compute. reflexivity.
Defined.

(** C5: the point total of a slap is 1 x combo multiplier x the modifiers
    of the active power-ups (doublePoints 2, rapidFire 1.5, boost 3),
    multiplied and then floored.  With a combo multiplier of at most 50 the
    total is at most the ceiling of 1000 (indeed at most 450); the combo
    that [slap] computes is always at most 50, so in no engine state does
    [slap] take the "invalid increment" branch, and what it awards is the
    total. *)
Theorem point_total_below_ceiling (ps : PowerUps) (c : Z) (now : Z) (e : Engine) :
  c <= 50 ->
  applyPowerUpEffects ps (inject_Z (1 * c)) = pointTotal ps c /\
  pointTotal ps c <= MAX_SCORE_INCREMENT /\
  calculateCombo now (gameState e) <= 50 /\
  fst (slap now e) <> Threw INCREMENT_MESSAGE /\
  (forall points, fst (slap now e) = Awarded points ->
     points = pointTotal (powerUpsState e) (calculateCombo now (gameState e)) /\
     points <= MAX_SCORE_INCREMENT).
Proof.
  intros Hc.
  split; [apply applyPowerUpEffects_total|].
  split; [pose proof (pointTotal_le_450 ps c Hc); unfold MAX_SCORE_INCREMENT; lia|].
  split; [apply calculateCombo_le_50|].
  pose proof (pointTotal_le_450 (powerUpsState e) _ (calculateCombo_le_50 now (gameState e))) as Hp.
  destruct (slap_cases now e) as [[_ H]|[(_ & _ & H)|(_ & _ & e' & H & _)]];
    rewrite H; cbn [fst]; (split; [discriminate|]); intros points [=].
  subst points. split; [reflexivity | unfold MAX_SCORE_INCREMENT; lia].
Qed.

(** Combo 50 with every power-up active stays below the ceiling. *)
Lemma point_total_below_ceiling_witness :
  pointTotal (fun _ => mkPowerUp true true 0 0 0) 50 <= MAX_SCORE_INCREMENT.
Proof.
  assert (H : 50 <= 50) by lia.
  exact (proj1 (proj2 (point_total_below_ceiling (fun _ => mkPowerUp true true 0 0 0) 50 0
                         (startEngine 0 None None) H))).
Defined.

(** C3: in every state of a session, an accepted slap sets the combo to 1
    when at least 1200 ms have passed since the previous accepted slap and
    to min(previous combo + 1, 50) otherwise, and records its own time as the
    time of the last accepted slap; a rejected slap and every other
    operation of the engine leave both the combo and that time as they
    were. *)
Theorem combo_changes_only_by_accepted_slap (e : Engine) (op : Op) :
  reachable e ->
  let g := gameState e in
  let g' := gameState (run_op op e) in
  match op with
  | OpSlap now =>
      if is_awarded (fst (slap now e)) then
        (COMBO_TIMEOUT <= now - lastSlapAt g -> combo g' = 1) /\
        (now - lastSlapAt g < COMBO_TIMEOUT -> combo g' = Z.min (combo g + 1) 50) /\
        lastSlapAt g' = now
      else combo g' = combo g /\ lastSlapAt g' = lastSlapAt g
  | _ => combo g' = combo g /\ lastSlapAt g' = lastSlapAt g
  end.
Proof.
  intros Hr g g'. subst g g'.
  destruct (reachable_clocks e Hr) as [Hclk _].
  destruct op as [now|now|amount|id|id| | |d|]; cbn [run_op].
  - destruct (slap_cases now e) as [[_ H]|[(_ & _ & H)|(_ & _ & e' & H & Hsame & _)]];
      rewrite H; cbn [fst snd is_awarded]; [now split | now split |].
    rewrite Hsame. cbn [combo lastSlapAt].
    unfold calculateCombo. rewrite Hclk.
    destruct (Z.ltb_spec (now - lastSlapAt (gameState e)) COMBO_TIMEOUT); repeat split; lia.
  - unfold claimDailyReward. destruct (_ && _); now split.
  - unfold addDebugScore. destruct (0 <? amount); now split.
  - unfold activatePowerUp.
    destruct (negb _); [now split|]. destruct (0 <? _); [now split|].
    destruct (active _); now split.
  - unfold deactivatePowerUp. destruct (active _); now split.
  - now split.
  - now split.
  - unfold dailyResetTick. destruct d; now split.
  - now split.
Qed.

(** A second slap 250 ms after the first raises the combo by one. *)
Lemma combo_changes_only_by_accepted_slap_witness :
  let e := slaps [1000000] (startEngine 999000 None None) in
  reachable e /\
  is_awarded (fst (slap 1000250 e)) = true /\
  combo (gameState (run_op (OpSlap 1000250) e)) = Z.min (combo (gameState e) + 1) 50.
Proof.
  intros e.
  assert (Hr : reachable e) by apply (reach_step (OpSlap 1000000) _ (reach_start 999000)).
  assert (Ha : is_awarded (fst (slap 1000250 e)) = true) by (vm_compute; reflexivity).
  split; [exact Hr|]. split; [exact Ha|].
  pose proof (combo_changes_only_by_accepted_slap e (OpSlap 1000250) Hr) as H.
  cbv beta iota zeta in H. rewrite Ha in H.
  apply H. vm_compute. reflexivity.
Defined.

End EngineFacts.

(** ** The arena server *)
Section ArenaFacts.
Import Arena.


Lemma Qlt_bool_false (a b : Q) : Qlt_bool a b = false <-> (b <= a)%Q.
Proof.
  unfold Qlt_bool. rewrite negb_false_iff. apply Qle_bool_iff.
Qed.

Lemma lookup_modify k f s j :
  players (modify k f s) !! j
  = if decide (k = j) then f <$> players s !! k else players s !! j.
Proof.
  unfold modify. cbn [players]. rewrite lookup_alter.
  destruct (decide (k = j)) as [->|]; reflexivity.
Qed.

Lemma lookup_modify_eq k f s : players (modify k f s) !! k = f <$> players s !! k.
Proof. rewrite lookup_modify. now rewrite decide_True. Qed.

Lemma lookup_modify_ne k f s j : k <> j -> players (modify k f s) !! j = players s !! j.
Proof. intros H. rewrite lookup_modify. now rewrite decide_False. Qed.

Lemma players_broadcast ev s : players (broadcast ev s) = players s.
Proof. reflexivity. Qed.

Lemma broadcasts_broadcast ev s : broadcasts (broadcast ev s) = broadcasts s ++ [ev].
Proof. reflexivity. Qed.

Lemma broadcasts_modify k f s : broadcasts (modify k f s) = broadcasts s.
Proof. reflexivity. Qed.

Lemma fmap_Some_player (f : Player -> Player) p : f <$> Some p = Some (f p).
Proof. reflexivity. Qed.

Ltac roster :=
  repeat (rewrite players_broadcast || rewrite lookup_modify_eq ||
          (rewrite lookup_modify_ne by congruence) || rewrite fmap_Some_player ||
          rewrite broadcasts_broadcast || rewrite broadcasts_modify).













End ArenaFacts.

(** ** Stable sorting *)
Section SortFacts.
Context {A : Type} (before : A -> A -> bool).

Lemma insert_sorted_perm x l : insert_sorted before x l ≡ₚ x :: l.
Proof.
  induction l as [|y r IH]; cbn [insert_sorted]; [reflexivity|].
  destruct (before x y); [reflexivity|].
  rewrite IH. apply Permutation_swap.
Qed.

Lemma stable_sort_perm l : stable_sort before l ≡ₚ l.
Proof.
  induction l as [|x l IH]; cbn; [reflexivity|].
  fold (stable_sort before l). now rewrite insert_sorted_perm, IH.
Qed.

Lemma stable_sort_length l : length (stable_sort before l) = length l.
Proof. apply Permutation_length, stable_sort_perm. Qed.

Hypothesis before_total : forall a b, before a b = true \/ before b a = true.

Lemma insert_sorted_sorted x l :
  Sorted (beforeP before) l -> Sorted (beforeP before) (insert_sorted before x l).
Proof.
  induction l as [|y r IH]; intros Hs; cbn [insert_sorted].
  - repeat constructor.
  - destruct (before x y) eqn:E.
    + constructor; [exact Hs|]. constructor. exact E.
    + apply Sorted_inv in Hs as [Hr Hy].
      constructor; [now apply IH|].
      destruct r as [|z r]; cbn [insert_sorted].
      * constructor. destruct (before_total x y) as [H|H]; [congruence | exact H].
      * destruct (before x z).
        -- constructor. destruct (before_total x y) as [H|H]; [congruence | exact H].
        -- constructor. now apply HdRel_inv in Hy.
Qed.

Lemma stable_sort_sorted l : Sorted (beforeP before) (stable_sort before l).
Proof.
  induction l as [|x l IH]; cbn; [constructor|].
  now apply insert_sorted_sorted.
Qed.

(** Sorting a sorted array changes nothing. *)
Lemma stable_sort_id l : Sorted (beforeP before) l -> stable_sort before l = l.
Proof.
  induction l as [|x l IH]; intros Hs; [reflexivity|].
  apply Sorted_inv in Hs as [Hl Hx].
  cbn. fold (stable_sort before l). rewrite (IH Hl).
  destruct l as [|y r]; [reflexivity|].
  apply HdRel_inv in Hx. cbn [insert_sorted]. unfold beforeP in Hx. now rewrite Hx.
Qed.

Hypothesis before_trans : forall a b c, before a b = true -> before b c = true -> before a c = true.

(** When the comparator separates the elements, the result depends only on
    which elements the array holds. *)
Lemma stable_sort_unique l1 l2 :
  (forall a b, a ∈ l1 -> b ∈ l1 -> before a b = true -> before b a = true -> a = b) ->
  l1 ≡ₚ l2 -> stable_sort before l1 = stable_sort before l2.
Proof.
  intros Hsep Hperm.
  assert (Htr : Transitive (beforeP before)) by (intros a b c; apply before_trans).
  apply (Sorted_unique_strong (beforeP before)).
  - intros a b Ha Hb. apply Hsep.
    + now rewrite stable_sort_perm in Ha.
    + now rewrite stable_sort_perm, <- Hperm in Hb.
  - apply stable_sort_sorted.
  - apply stable_sort_sorted.
  - now rewrite !stable_sort_perm.
Qed.

End SortFacts.

(** ** The leaderboard merge *)
Section MergeFacts.
Import Leaderboard.

Lemma map_get_set k k' v m :
  map_get k (map_set k' v m) = if String.eqb k' k then Some v else map_get k m.
Proof.
  induction m as [|[k0 v0] r IH]; cbn [map_set map_get].
  - reflexivity.
  - destruct (String.eqb_spec k0 k') as [->|Hne]; cbn [map_get].
    + destruct (String.eqb k' k); reflexivity.
    + rewrite IH. destruct (String.eqb_spec k0 k) as [->|Hk]; [|reflexivity].
      destruct (String.eqb_spec k' k) as [->|]; [congruence | reflexivity].
Qed.

Lemma map_set_fresh k v m : k ∉ map fst m -> map_set k v m = m ++ [(k, v)].
Proof.
  induction m as [|[k0 v0] r IH]; intros Hk; cbn [map_set]; [reflexivity|].
  cbn in Hk. apply not_elem_of_cons in Hk as [Hne Hr].
  destruct (String.eqb_spec k0 k) as [->|_]; [congruence|].
  now rewrite IH.
Qed.

Lemma map_set_keys k v m :
  map fst (map_set k v m) = if decide (k ∈ map fst m) then map fst m else map fst m ++ [k].
Proof.
  induction m as [|[k0 v0] r IH]; cbn [map_set map fst].
  - rewrite decide_False; [reflexivity | apply not_elem_of_nil].
  - destruct (String.eqb_spec k0 k) as [->|Hne]; cbn [map fst].
    + rewrite decide_True; [reflexivity | left].
    + rewrite IH. destruct (decide (k ∈ map fst r)) as [Hin|Hnin].
      * rewrite decide_True; [reflexivity | now right].
      * rewrite decide_False; [reflexivity|].
        intros Hin. apply elem_of_cons in Hin as [->|]; congruence.
Qed.

Lemma map_set_NoDup k v m : NoDup (map fst m) -> NoDup (map fst (map_set k v m)).
Proof.
  intros Hnd. rewrite map_set_keys. destruct (decide _) as [|Hnin]; [exact Hnd|].
  apply NoDup_app. split; [exact Hnd|]. split; [|apply NoDup_singleton].
  intros x Hx Hx'. apply list_elem_of_singleton in Hx'. now subst.
Qed.

Lemma map_set_keyed e m : keyed m -> keyed (map_set (id e) e m).
Proof.
  unfold keyed. induction m as [|[k0 v0] r IH]; intros Hm; cbn [map_set].
  - now repeat constructor.
  - apply Forall_cons in Hm as [H0 Hr].
    destruct (String.eqb_spec k0 (id e)) as [->|Hne].
    + now constructor.
    + constructor; [exact H0 | now apply IH].
Qed.

Lemma fold_primary m P :
  NoDup (ids P) -> (forall e, e ∈ P -> id e ∉ map fst m) ->
  fold_left (fun merged entry => map_set (id entry) entry merged) P m = m ++ as_map P.
Proof.
  revert m. induction P as [|e P IH]; intros m Hnd Hfresh; cbn [fold_left as_map map].
  - now rewrite app_nil_r.
  - apply NoDup_cons in Hnd as [He Hnd].
    rewrite map_set_fresh by (apply Hfresh; left).
    rewrite IH; [now rewrite <- app_assoc | exact Hnd |].
    intros e' He'. rewrite map_app. cbn [map fst].
    intros Hin. apply elem_of_app in Hin as [Hin|Hin].
    + revert Hin. apply Hfresh. now right.
    + apply list_elem_of_singleton in Hin. apply He. rewrite <- Hin.
      unfold ids. change (map id P) with (id <$> P). now apply list_elem_of_fmap_2.
Qed.

Lemma find_entry_Some k l e : find_entry k l = Some e -> e ∈ l /\ id e = k.
Proof.
  unfold find_entry. intros H. apply find_some in H as [Hin Hk].
  split; [now apply list_elem_of_In | now apply String.eqb_eq].
Qed.

Lemma find_entry_None k l : find_entry k l = None -> k ∉ ids l.
Proof.
  unfold find_entry, ids. intros H Hin.
  change (map id l) with (id <$> l) in Hin.
  apply list_elem_of_fmap in Hin as (e & -> & He).
  apply list_elem_of_In in He.
  pose proof (find_none _ _ H e He) as Hn. cbn in Hn.
  now rewrite String.eqb_refl in Hn.
Qed.

Lemma find_entry_elem l e : NoDup (ids l) -> e ∈ l -> find_entry (id e) l = Some e.
Proof.
  induction l as [|x l IH]; intros Hnd He; [now apply elem_of_nil in He|].
  cbn in Hnd. apply NoDup_cons in Hnd as [Hx Hnd].
  unfold find_entry. cbn [find].
  apply elem_of_cons in He as [->|He]; [now rewrite String.eqb_refl|].
  destruct (String.eqb_spec (id x) (id e)) as [Heq|_].
  - exfalso. apply Hx. rewrite Heq. change (map id l) with (id <$> l).
    now apply list_elem_of_fmap_2.
  - now apply IH.
Qed.

Lemma map_get_as_map k l : map_get k (as_map l) = find_entry k l.
Proof.
  induction l as [|x l IH]; [reflexivity|].
  unfold find_entry. cbn [as_map map map_get find].
  destruct (String.eqb (id x) k); [reflexivity | exact IH].
Qed.

Lemma secondary_step_get k m e :
  map_get k (secondary_step m e)
  = if String.eqb (id e) k then merge_choice (map_get k m) (Some e) else map_get k m.
Proof.
  unfold secondary_step, merge_choice.
  destruct (String.eqb_spec (id e) k) as [<-|Hne].
  - destruct (map_get (id e) m) as [ex|] eqn:Hex.
    + destruct (replaces e ex); [|exact Hex].
      now rewrite map_get_set, String.eqb_refl.
    + now rewrite map_get_set, String.eqb_refl.
  - destruct (map_get (id e) m) as [ex|]; [destruct (replaces e ex)|];
      try reflexivity; rewrite map_get_set;
      destruct (String.eqb_spec (id e) k); congruence.
Qed.

Lemma fold_secondary_get k S m :
  NoDup (ids S) ->
  map_get k (fold_left secondary_step S m) = merge_choice (map_get k m) (find_entry k S).
Proof.
  revert m. induction S as [|e S IH]; intros m Hnd; [reflexivity|].
  cbn in Hnd. apply NoDup_cons in Hnd as [He Hnd].
  cbn [fold_left]. rewrite (IH _ Hnd), secondary_step_get.
  unfold find_entry at 2. cbn [find].
  destruct (String.eqb_spec (id e) k) as [<-|Hne]; [|reflexivity].
  destruct (find_entry (id e) S) as [e'|] eqn:Hf; [|reflexivity].
  exfalso. apply find_entry_Some in Hf as [Hin Hid]. apply He.
  rewrite <- Hid. change (map id S) with (id <$> S). now apply list_elem_of_fmap_2.
Qed.

Lemma joinLeaderboards_unfold A B :
  joinLeaderboards A B
  = fold_left secondary_step B
      (fold_left (fun merged entry => map_set (id entry) entry merged) A []).
Proof. reflexivity. Qed.

(** The join, id by id. *)
Lemma joinLeaderboards_get k A B :
  NoDup (ids A) -> NoDup (ids B) ->
  map_get k (joinLeaderboards A B) = merge_choice (find_entry k A) (find_entry k B).
Proof.
  intros HA HB. rewrite joinLeaderboards_unfold, (fold_secondary_get _ _ _ HB).
  rewrite fold_primary by (exact HA || (intros; apply not_elem_of_nil)).
  cbn [app]. now rewrite map_get_as_map.
Qed.

Lemma secondary_step_inv m e :
  NoDup (map fst m) /\ keyed m ->
  NoDup (map fst (secondary_step m e)) /\ keyed (secondary_step m e).
Proof.
  intros [Hnd Hk]. unfold secondary_step.
  destruct (map_get (id e) m) as [ex|]; [destruct (replaces e ex)|];
    try (split; assumption); (split; [now apply map_set_NoDup | now apply map_set_keyed]).
Qed.

Lemma joinLeaderboards_inv A B :
  NoDup (map fst (joinLeaderboards A B)) /\ keyed (joinLeaderboards A B).
Proof.
  rewrite joinLeaderboards_unfold.
  assert (H0 : NoDup (map fst (@nil (string * Entry))) /\ keyed []).
  { split; [apply NoDup_nil_2 | constructor]. }
  revert H0. generalize (@nil (string * Entry)).
  assert (HB : forall m, NoDup (map fst m) /\ keyed m ->
                 NoDup (map fst (fold_left secondary_step B m)) /\
                 keyed (fold_left secondary_step B m)).
  { induction B as [|e B IH]; intros m Hm; [exact Hm|].
    cbn [fold_left]. now apply IH, secondary_step_inv. }
  induction A as [|e A IH]; intros m Hm; cbn [fold_left].
  - now apply HB.
  - apply IH. destruct Hm. split; [now apply map_set_NoDup | now apply map_set_keyed].
Qed.

Lemma elem_of_map_get k v m :
  NoDup (map fst m) -> (k, v) ∈ m <-> map_get k m = Some v.
Proof.
  induction m as [|[k0 v0] r IH]; intros Hnd; cbn [map_get].
  - split; [intros H; now apply elem_of_nil in H | discriminate].
  - cbn in Hnd. apply NoDup_cons in Hnd as [Hk0 Hnd].
    rewrite elem_of_cons, (IH Hnd).
    destruct (String.eqb_spec k0 k) as [->|Hne].
    + split.
      * intros [[= ->]|Hget]; [reflexivity|].
        exfalso. apply Hk0. apply (IH Hnd) in Hget.
        change (map fst r) with (fst <$> r).
        now apply (list_elem_of_fmap_2 fst) in Hget.
      * intros [= ->]. now left.
    + split; [intros [[= -> ->]|H]; [congruence | exact H] | now right].
Qed.

Lemma same_lookups_perm m1 m2 :
  NoDup (map fst m1) -> NoDup (map fst m2) ->
  (forall k, map_get k m1 = map_get k m2) -> m1 ≡ₚ m2.
Proof.
  intros H1 H2 Hget. apply NoDup_Permutation.
  - now apply (NoDup_fmap_1 fst).
  - now apply (NoDup_fmap_1 fst).
  - intros [k v]. now rewrite !elem_of_map_get, Hget.
Qed.

Lemma scoreBefore_le a b : scoreBefore a b = true <-> score b <= score a.
Proof. unfold scoreBefore. rewrite Z.leb_le. lia. Qed.

Lemma scoreBefore_total a b : scoreBefore a b = true \/ scoreBefore b a = true.
Proof. rewrite !scoreBefore_le. lia. Qed.

Lemma scoreBefore_trans a b c :
  scoreBefore a b = true -> scoreBefore b c = true -> scoreBefore a c = true.
Proof. rewrite !scoreBefore_le. lia. Qed.

Lemma descending_sorted l : descending l <-> Sorted (beforeP scoreBefore) l.
Proof.
  unfold descending.
  split; intros H; induction H as [|a l Hl IH Hhd]; constructor; auto;
    destruct Hhd; constructor; now apply scoreBefore_le.
Qed.

Lemma sortByScore_descending l : descending (sortByScore l).
Proof. apply descending_sorted, stable_sort_sorted, scoreBefore_total. Qed.

Lemma descending_take n l : descending l -> descending (take n l).
Proof.
  unfold descending. revert n. induction l as [|a l IH]; intros n H.
  - now rewrite take_nil.
  - destruct n as [|n]; cbn [take]; [constructor|].
    apply Sorted_inv in H as [Hl Hhd]. constructor; [now apply IH|].
    destruct l as [|b l]; [now destruct n; constructor|].
    destruct n; cbn [take]; constructor. now apply HdRel_inv in Hhd.
Qed.

Lemma score_injective l a b :
  NoDup (map score l) -> a ∈ l -> b ∈ l -> score a = score b -> a = b.
Proof.
  induction l as [|x l IH]; intros Hnd Ha Hb Heq; [now apply elem_of_nil in Ha|].
  cbn in Hnd. apply NoDup_cons in Hnd as [Hx Hnd].
  change (map score l) with (score <$> l) in Hx.
  apply elem_of_cons in Ha as [->|Ha]; apply elem_of_cons in Hb as [->|Hb].
  - reflexivity.
  - exfalso. apply Hx. rewrite Heq. now apply list_elem_of_fmap_2.
  - exfalso. apply Hx. rewrite <- Heq. now apply list_elem_of_fmap_2.
  - now apply IH.
Qed.

(** The values of the join come from the two arrays. *)
Lemma joinLeaderboards_values A B v :
  NoDup (ids A) -> NoDup (ids B) ->
  v ∈ map_values (joinLeaderboards A B) -> v ∈ A ++ B.
Proof.
  intros HA HB Hv. unfold map_values in Hv.
  change (map snd ?m) with (snd <$> m) in Hv.
  apply list_elem_of_fmap in Hv as ([k v'] & -> & Hin). cbn [snd].
  apply elem_of_map_get in Hin; [|apply joinLeaderboards_inv].
  rewrite (joinLeaderboards_get _ _ _ HA HB) in Hin. unfold merge_choice in Hin.
  destruct (find_entry k B) as [b|] eqn:Hb.
  - apply find_entry_Some in Hb as [Hb _].
    destruct (find_entry k A) as [a|] eqn:Ha.
    + apply find_entry_Some in Ha as [Ha _].
      destruct (replaces b a); injection Hin as <-; apply elem_of_app; auto.
    + injection Hin as <-. apply elem_of_app; auto.
  - apply find_entry_Some in Hin as [Ha _]. apply elem_of_app; auto.
Qed.

Lemma merge_choice_comm A B k :
  NoDup (map score (A ++ B)) ->
  merge_choice (find_entry k A) (find_entry k B)
  = merge_choice (find_entry k B) (find_entry k A).
Proof.
  intros Hnd. unfold merge_choice.
  destruct (find_entry k A) as [a|] eqn:Ha, (find_entry k B) as [b|] eqn:Hb; try reflexivity.
  apply find_entry_Some in Ha as [Ha _]. apply find_entry_Some in Hb as [Hb _].
  assert (Hne : score a <> score b).
  { rewrite map_app in Hnd. apply NoDup_app in Hnd as (_ & Hdisj & _).
    intros Heq. apply (Hdisj (score a)).
    - change (map score A) with (score <$> A). now apply list_elem_of_fmap_2.
    - rewrite Heq. change (map score B) with (score <$> B). now apply list_elem_of_fmap_2. }
  unfold replaces.
  destruct (Z.ltb_spec (score a) (score b)), (Z.ltb_spec (score b) (score a));
    destruct (Z.eqb_spec (score b) (score a)), (Z.eqb_spec (score a) (score b));
    cbn [orb andb]; try reflexivity; lia.
Qed.

Lemma mergeLeaderboards_comm A B :
  NoDup (ids A) -> NoDup (ids B) -> NoDup (map score (A ++ B)) ->
  mergeLeaderboards A B = mergeLeaderboards B A.
Proof.
  intros HA HB Hsc. unfold mergeLeaderboards, sortByScore. f_equal.
  apply stable_sort_unique.
  - apply scoreBefore_total.
  - apply scoreBefore_trans.
  - intros a b Ha Hb Hab Hba. apply scoreBefore_le in Hab, Hba.
    apply (score_injective (A ++ B)); [exact Hsc | | | lia];
      now apply joinLeaderboards_values.
  - unfold map_values. change (map snd ?m) with (snd <$> m).
    apply fmap_Permutation, same_lookups_perm; try apply joinLeaderboards_inv.
    intros k. rewrite !joinLeaderboards_get by assumption.
    now apply merge_choice_comm.
Qed.

Lemma replaces_irrefl e : replaces e e = false.
Proof.
  unfold replaces. rewrite !Z.ltb_irrefl. now rewrite andb_false_r.
Qed.

Lemma joinLeaderboards_self A : NoDup (ids A) -> joinLeaderboards A A = as_map A.
Proof.
  intros HA. rewrite joinLeaderboards_unfold.
  rewrite fold_primary by (exact HA || (intros; apply not_elem_of_nil)). cbn [app].
  assert (H : forall S, (forall e, e ∈ S -> map_get (id e) (as_map A) = Some e) ->
                fold_left secondary_step S (as_map A) = as_map A).
  { induction S as [|e S IH]; intros HS; [reflexivity|].
    cbn [fold_left]. unfold secondary_step at 2.
    rewrite (HS e) by left. rewrite replaces_irrefl.
    apply IH. intros e' He'. apply HS. now right. }
  apply H. intros e He. rewrite map_get_as_map. now apply find_entry_elem.
Qed.

Lemma map_values_as_map A : map_values (as_map A) = A.
Proof.
  unfold map_values, as_map. rewrite map_map. cbn [snd]. apply map_id.
Qed.

Lemma mergeLeaderboards_self A :
  NoDup (ids A) -> mergeLeaderboards A A = take MAX_LEADERBOARD_SIZE (sortByScore A).
Proof.
  intros HA. unfold mergeLeaderboards.
  now rewrite joinLeaderboards_self, map_values_as_map.
Qed.

Lemma mergeLeaderboards_descending A B : descending (mergeLeaderboards A B).
Proof. apply descending_take, sortByScore_descending. Qed.

Lemma mergeLeaderboards_length A B :
  (length (mergeLeaderboards A B) <= MAX_LEADERBOARD_SIZE)%nat.
Proof. unfold mergeLeaderboards. rewrite length_take. lia. Qed.

(** The result of a merge holds every id at most once. *)
Lemma mergeLeaderboards_ids A B : NoDup (ids (mergeLeaderboards A B)).
Proof.
  destruct (joinLeaderboards_inv A B) as [Hnd Hk].
  unfold mergeLeaderboards, ids. change (map id ?l) with (id <$> l).
  rewrite fmap_take. eapply sublist_NoDup; [|apply sublist_take].
  unfold sortByScore. rewrite (stable_sort_perm scoreBefore).
  replace (id <$> map_values (joinLeaderboards A B)) with (map fst (joinLeaderboards A B));
    [exact Hnd|].
  unfold map_values. change (map snd ?m) with (snd <$> m).
  rewrite <- list_fmap_compose. change (map fst ?m) with (fst <$> m).
  apply list_fmap_ext.
  intros i kv Hkv. unfold keyed in Hk. rewrite Forall_forall in Hk.
  apply Hk. now apply list_elem_of_lookup_2 in Hkv.
Qed.

Lemma mergeLeaderboards_fixpoint A B :
  let M := mergeLeaderboards A B in mergeLeaderboards M M = M.
Proof.
  intros M. rewrite mergeLeaderboards_self by apply mergeLeaderboards_ids.
  unfold sortByScore.
  rewrite stable_sort_id by apply descending_sorted, mergeLeaderboards_descending.
  apply take_ge, mergeLeaderboards_length.
Qed.

(** C6: on leaderboards that hold each id at most once, the merge is
    idempotent - merging A with itself gives A re-sorted and truncated
    (A itself when A is already sorted and within the size limit), and a
    merge result merged with itself is unchanged - and it is independent of
    the argument order whenever all scores and timestamps are pairwise
    distinct.  For an id present on both sides the join keeps the entry with
    the higher score and, on equal scores, the one with the more recent
    timestamp; the result is sorted descending by score and holds at most
    100 entries. *)
Theorem merge_idempotent_and_order_independent (A B : list Entry) :
  NoDup (ids A) -> NoDup (ids B) ->
  mergeLeaderboards A A = take MAX_LEADERBOARD_SIZE (sortByScore A) /\
  (descending A -> (length A <= MAX_LEADERBOARD_SIZE)%nat -> mergeLeaderboards A A = A) /\
  mergeLeaderboards (mergeLeaderboards A B) (mergeLeaderboards A B) = mergeLeaderboards A B /\
  (NoDup (map score (A ++ B)) -> NoDup (map timestamp (A ++ B)) ->
     mergeLeaderboards A B = mergeLeaderboards B A) /\
  (forall a b, a ∈ A -> b ∈ B -> id a = id b ->
     exists kept, map_get (id a) (joinLeaderboards A B) = Some kept /\
       (score a < score b -> kept = b) /\
       (score b < score a -> kept = a) /\
       (score a = score b -> timestamp a < timestamp b -> kept = b) /\
       (score a = score b -> timestamp b < timestamp a -> kept = a)) /\
  descending (mergeLeaderboards A B) /\
  (length (mergeLeaderboards A B) <= MAX_LEADERBOARD_SIZE)%nat.
Proof.
  intros HA HB.
  split; [now apply mergeLeaderboards_self|].
  split.
  { intros Hd Hlen. rewrite mergeLeaderboards_self by exact HA.
    unfold sortByScore. rewrite stable_sort_id by now apply descending_sorted.
    now apply take_ge. }
  split; [apply mergeLeaderboards_fixpoint|].
  split; [intros Hsc _; now apply mergeLeaderboards_comm|].
  split; [|split; [apply mergeLeaderboards_descending | apply mergeLeaderboards_length]].
  intros a b Ha Hb Hid.
  rewrite (joinLeaderboards_get _ _ _ HA HB).
  rewrite (find_entry_elem A a HA Ha), Hid, (find_entry_elem B b HB Hb).
  cbn [merge_choice]. unfold replaces.
  destruct (Z.ltb_spec (score a) (score b)); cbn [orb].
  { exists b. repeat split; intros; (reflexivity || lia). }
  destruct (Z.eqb_spec (score b) (score a)); cbn [andb].
  - destruct (Z.ltb_spec (timestamp a) (timestamp b)).
    + exists b. repeat split; intros; (reflexivity || lia).
    + exists a. repeat split; intros; (reflexivity || lia).
  - exists a. repeat split; intros; (reflexivity || lia).
Qed.

(** The two sample boards merge to the same ranking in either order. *)
Lemma merge_idempotent_and_order_independent_witness :
  mergeLeaderboards boardA boardB = mergeLeaderboards boardB boardA /\
  mergeLeaderboards boardA boardB
  = [mkEntry "alice" "Alice" 300 10 "s1"; mkEntry "bob" "Bob" 250 30 "s3";
     mkEntry "carol" "Carol" 100 40 "s4"].
Proof.
  assert (HA : NoDup (ids boardA)) by compute_done.
  assert (HB : NoDup (ids boardB)) by compute_done.
  assert (Hs : NoDup (map score (boardA ++ boardB))) by compute_done.
  assert (Ht : NoDup (map timestamp (boardA ++ boardB))) by compute_done.
  destruct (merge_idempotent_and_order_independent boardA boardB HA HB)
    as (_ & _ & _ & Hcomm & _).
  split; [exact (Hcomm Hs Ht) | reflexivity].
Defined.

End MergeFacts.

(** ** The offline sync queue *)
Section QueueFacts.
Import SyncQueue.
Context {D : Type}.
Implicit Types (q : list (Item D)) (st : Persistence D) (it : Item D).

Lemma remove_by_id_sublist k q : remove_by_id k q `sublist_of` q.
Proof.
  induction q as [|x q IH]; cbn [remove_by_id]; [constructor|].
  destruct (String.eqb (id x) k); [now apply sublist_cons | now apply sublist_skip].
Qed.

Lemma remove_by_id_absent k q : NoDup (ids q) -> k ∉ ids (remove_by_id k q).
Proof.
  induction q as [|x q IH]; cbn [remove_by_id ids map]; intros Hnd; [apply not_elem_of_nil|].
  apply NoDup_cons in Hnd as [Hx Hnd].
  destruct (String.eqb_spec (id x) k) as [<-|Hne]; [exact Hx|].
  cbn [map]. apply not_elem_of_cons. split; [congruence | now apply IH].
Qed.

Lemma remove_by_id_other k q x : x ∈ q -> id x <> k -> x ∈ remove_by_id k q.
Proof.
  induction q as [|y q IH]; cbn [remove_by_id]; intros Hx Hne; [exact Hx|].
  apply elem_of_cons in Hx as [->|Hx].
  - destruct (String.eqb_spec (id y) k); [congruence | left].
  - destruct (String.eqb_spec (id y) k); [exact Hx | right; now apply IH].
Qed.

Lemma existsb_id_false k q :
  existsb (fun x : Item D => String.eqb (id x) k) q = false -> remove_by_id k q = q.
Proof.
  induction q as [|x q IH]; cbn [existsb remove_by_id]; [reflexivity|].
  destruct (String.eqb (id x) k); cbn [orb]; [discriminate|]. intros H. now rewrite IH.
Qed.

(** [settle] acts on the queue array as [settle_queue] does. *)
Lemma settle_syncQueue st ir : syncQueue (settle st ir) = settle_queue (syncQueue st) ir.
Proof.
  destruct ir as [item result]. unfold settle, settle_queue, dequeueSync, write_through.
  cbn [id record_failure maxAttempts attempts].
  destruct (succeeded result).
  - destruct (String.eqb (id item) ""); [reflexivity|].
    destruct (existsb _ _) eqn:E; [reflexivity|]. now rewrite existsb_id_false.
  - destruct (String.eqb_spec (id item) "") as [He|He].
    + rewrite He. now destruct (_ <=? _).
    + destruct (_ <=? _); [|reflexivity].
      cbn [syncQueue setQueue].
      destruct (existsb _ _) eqn:E; [reflexivity|]. now rewrite existsb_id_false.
Qed.

Lemma write_ids it' q :
  ids (map (fun it => if String.eqb (id it) (id it') then it' else it) q) = ids q.
Proof.
  unfold ids. rewrite map_map. apply map_ext. intros x.
  destruct (String.eqb_spec (id x) (id it')); congruence.
Qed.

Lemma ids_sublist q1 q2 : q1 `sublist_of` q2 -> ids q1 `sublist_of` ids q2.
Proof. intros H. unfold ids. change (map id ?l) with (id <$> l). now apply fmap_sublist. Qed.

(** Settling never adds an id to the queue. *)
Lemma settle_queue_ids q ir : ids (settle_queue q ir) `sublist_of` ids q.
Proof.
  destruct ir as [item result]. unfold settle_queue.
  destruct (String.eqb_spec (id item) "") as [He|He].
  - destruct (succeeded result); [reflexivity|].
    pose proof (write_ids (record_failure result item) q) as Hw.
    cbn [id record_failure] in Hw. rewrite He in Hw. now rewrite Hw.
  - destruct (succeeded result); [apply ids_sublist, remove_by_id_sublist|].
    destruct (_ <=? _).
    + etransitivity; [apply ids_sublist, remove_by_id_sublist|]. now rewrite write_ids.
    + now rewrite write_ids.
Qed.

Lemma settle_queue_NoDup q ir : NoDup (ids q) -> NoDup (ids (settle_queue q ir)).
Proof. intros H. eapply sublist_NoDup; [exact H | apply settle_queue_ids]. Qed.

(** Settling one item leaves the items with another id as they are. *)
Lemma settle_queue_other q item result x :
  x ∈ q -> id x <> id item -> x ∈ settle_queue q (item, result).
Proof.
  intros Hx Hne. unfold settle_queue.
  assert (Hmap : forall it', id it' = id item ->
            x ∈ map (fun it => if String.eqb (id it) (id it') then it' else it) q).
  { intros it' Hid. change (map ?f q) with (f <$> q).
    apply list_elem_of_fmap. exists x. split; [|exact Hx].
    rewrite Hid. destruct (String.eqb_spec (id x) (id item)); congruence. }
  destruct (String.eqb_spec (id item) "") as [He|He].
  - destruct (succeeded result); [exact Hx|].
    specialize (Hmap (record_failure result item) eq_refl).
    cbn [id record_failure] in Hmap. now rewrite He in Hmap.
  - destruct (succeeded result); [now apply remove_by_id_other|].
    destruct (_ <=? _); [|now apply Hmap].
    apply remove_by_id_other; [now apply Hmap | exact Hne].
Qed.

(** Settling the item itself: removed on success and on the last failure,
    otherwise kept with one more attempt. *)
Lemma settle_queue_self q item result :
  NoDup (ids q) -> item ∈ q -> id item <> "" ->
  let q' := settle_queue q (item, result) in
  (succeeded result = true -> id item ∉ ids q') /\
  (succeeded result = false -> maxAttempts item <= attempts item + 1 -> id item ∉ ids q') /\
  (succeeded result = false -> attempts item + 1 < maxAttempts item ->
     record_failure result item ∈ q').
Proof.
  intros Hnd Hin He q'. subst q'. unfold settle_queue.
  destruct (String.eqb_spec (id item) "") as [|_]; [congruence|].
  destruct (succeeded result).
  - split; [intros _; now apply remove_by_id_absent|]. split; discriminate.
  - split; [discriminate|]. cbn [id record_failure maxAttempts attempts].
    split; intros _ Hatt.
    + destruct (Z.leb_spec (maxAttempts item) (attempts item + 1)); [|lia].
      apply (remove_by_id_absent (id item)). now rewrite (write_ids (record_failure result item)).
    + destruct (Z.leb_spec (maxAttempts item) (attempts item + 1)); [lia|].
      change (map ?f q) with (f <$> q). apply list_elem_of_fmap.
      exists item. split; [|exact Hin]. now rewrite String.eqb_refl.
Qed.

Lemma zip_with_outcomes (f : Item D -> Outcome) (items : list (Item D)) :
  zip items (map f items) = map (fun it => (it, f it)) items.
Proof. induction items as [|x l IH]; [reflexivity|]. cbn. now rewrite <- IH. Qed.

Lemma processSyncBatch_syncQueue f batch st :
  syncQueue (processSyncBatch f batch st) = settle_all (processSyncItem f) batch (syncQueue st).
Proof.
  unfold processSyncBatch, settle_all. cbn [syncQueue saveSyncQueue].
  rewrite zip_with_outcomes.
  generalize (map (fun it => (it, processSyncItem f it)) batch) as irs. intros irs.
  revert st. induction irs as [|ir irs IH]; intros st; [reflexivity|].
  cbn [fold_left]. now rewrite IH, settle_syncQueue.
Qed.

Lemma settle_all_app f l1 l2 q :
  settle_all f (l1 ++ l2) q = settle_all f l2 (settle_all f l1 q).
Proof. unfold settle_all. now rewrite map_app, fold_left_app. Qed.

(** The fuel [processSyncQueue] gives to the batch loop is enough: the loop
    settles every selected item. *)
Lemma process_batches_syncQueue f fuel items st :
  (length items <= fuel)%nat ->
  syncQueue (process_batches f fuel items st)
  = settle_all (processSyncItem f) items (syncQueue st).
Proof.
  revert items st. induction fuel as [|fuel IH]; intros items st Hlen.
  - destruct items; [reflexivity | cbn in Hlen; lia].
  - destruct items as [|x items]; [reflexivity|].
    cbn [process_batches].
    rewrite IH.
    + rewrite processSyncBatch_syncQueue, <- settle_all_app. now rewrite take_drop.
    + rewrite length_drop. cbn [length] in *. unfold batchSize. lia.
Qed.

Lemma settle_all_ids f items q : ids (settle_all f items q) `sublist_of` ids q.
Proof.
  revert q. induction items as [|x l IH]; intros q; [reflexivity|].
  unfold settle_all. cbn [map fold_left]. fold (settle_all f l (settle_queue q (x, f x))).
  etransitivity; [apply IH | apply settle_queue_ids].
Qed.

Lemma settle_all_other f items q x :
  x ∈ q -> id x ∉ ids items -> x ∈ settle_all f items q.
Proof.
  revert q. induction items as [|y l IH]; intros q Hx Hid; [exact Hx|].
  unfold settle_all. cbn [map fold_left]. fold (settle_all f l (settle_queue q (y, f y))).
  cbn [ids map] in Hid. apply not_elem_of_cons in Hid as [Hne Hid].
  apply IH; [now apply settle_queue_other | exact Hid].
Qed.

Lemma elem_of_ids it q : it ∈ q -> id it ∈ ids q.
Proof. intros H. unfold ids. change (map id q) with (id <$> q). now apply list_elem_of_fmap_2. Qed.

(** What a drain does to each item it selected. *)
Lemma settle_all_item f items q it :
  NoDup (ids q) -> NoDup (ids items) -> (forall x, x ∈ items -> x ∈ q) ->
  it ∈ items -> id it <> "" ->
  let q' := settle_all f items q in
  (succeeded (f it) = true -> id it ∉ ids q') /\
  (succeeded (f it) = false -> maxAttempts it <= attempts it + 1 -> id it ∉ ids q') /\
  (succeeded (f it) = false -> attempts it + 1 < maxAttempts it ->
     record_failure (f it) it ∈ q').
Proof.
  revert q. induction items as [|x l IH]; intros q Hq Hl Hsub Hin He q';
    [now apply elem_of_nil in Hin|].
  subst q'. unfold settle_all. cbn [map fold_left].
  fold (settle_all f l (settle_queue q (x, f x))).
  cbn [ids map] in Hl. apply NoDup_cons in Hl as [Hx Hl]. fold (ids l) in Hx, Hl.
  apply elem_of_cons in Hin as [->|Hin].
  - destruct (settle_queue_self q x (f x) Hq (Hsub x ltac:(left)) He) as (Hs & Hf & Hr).
    split; [|split].
    + intros H Habs. apply (Hs H). eapply elem_of_sublist; [exact Habs | apply settle_all_ids].
    + intros H Hm Habs. apply (Hf H Hm).
      eapply elem_of_sublist; [exact Habs | apply settle_all_ids].
    + intros H Hm. apply settle_all_other; [now apply Hr | exact Hx].
  - apply IH; [now apply settle_queue_NoDup | exact Hl | | exact Hin | exact He].
    intros y Hy. apply settle_queue_other; [apply Hsub; now right|].
    intros Heq. apply Hx. rewrite <- Heq. now apply elem_of_ids.
Qed.

Lemma itemsToSync_sublist now st : itemsToSync now st `sublist_of` syncQueue st.
Proof.
  unfold itemsToSync. induction (syncQueue st) as [|x q IH]; cbn [List.filter]; [constructor|].
  destruct (readyForSync now x); [now apply sublist_skip | now apply sublist_cons].
Qed.

Lemma processSyncQueue_syncQueue f now st :
  syncQueue (processSyncQueue f now st) = syncQueue st \/
  syncQueue (processSyncQueue f now st)
  = settle_all (processSyncItem f) (itemsToSync now st) (syncQueue st).
Proof.
  unfold processSyncQueue. destruct (_ || _); [now left|]. right.
  cbn [syncQueue setInProgress]. now rewrite process_batches_syncQueue.
Qed.

(** A drain never adds an id to the queue, nor does a sequence of drains. *)
Lemma processSyncQueue_ids f now st :
  ids (syncQueue (processSyncQueue f now st)) `sublist_of` ids (syncQueue st).
Proof.
  destruct (processSyncQueue_syncQueue f now st) as [->| ->];
    [reflexivity | apply settle_all_ids].
Qed.

Lemma drains_ids ds st : ids (syncQueue (drains ds st)) `sublist_of` ids (syncQueue st).
Proof.
  revert st. induction ds as [|[now f] ds IH]; intros st; [reflexivity|].
  unfold drains. cbn [fold_left fst snd]. fold (drains ds (processSyncQueue f now st)).
  etransitivity; [apply IH | apply processSyncQueue_ids].
Qed.

Lemma never_selected_again k st :
  k ∉ ids (syncQueue st) ->
  forall ds now, k ∉ ids (itemsToSync now (drains ds st)).
Proof.
  intros Hk ds now Hin. apply Hk.
  eapply elem_of_sublist; [|apply drains_ids].
  eapply elem_of_sublist; [exact Hin | apply ids_sublist, itemsToSync_sublist].
Qed.

(** C7: let a drain run (online, none in progress) on a queue whose ids are
    unique, and let it select an item.  If the item's processing succeeds -
    on whichever attempt - the item is out of the queue when the drain ends.
    If it fails and this was its [maxAttempts]-th attempt, the item is
    evicted.  In both cases no later drain selects it again.  If it fails
    on an earlier attempt it stays queued with one more attempt counted. *)
Theorem sync_item_settles_once (f : Item D -> Outcome) (now : Z) st it :
  NoDup (ids (syncQueue st)) ->
  onlineStatus st = true -> syncInProgress st = false ->
  it ∈ itemsToSync now st -> id it <> "" ->
  let st' := processSyncQueue f now st in
  let result := processSyncItem f it in
  attempts it + 1 <= maxAttempts it /\
  (succeeded result = true ->
     (id it ∉ ids (syncQueue st')) /\
     (forall ds now', id it ∉ ids (itemsToSync now' (drains ds st')))) /\
  (succeeded result = false -> attempts it + 1 = maxAttempts it ->
     (id it ∉ ids (syncQueue st')) /\
     (forall ds now', id it ∉ ids (itemsToSync now' (drains ds st')))) /\
  (succeeded result = false -> attempts it + 1 < maxAttempts it ->
     record_failure result it ∈ syncQueue st').
Proof.
  intros Hnd Hon Hprog Hsel He st' result.
  assert (Hin : it ∈ syncQueue st).
  { eapply elem_of_sublist; [exact Hsel | apply itemsToSync_sublist]. }
  assert (Hready : readyForSync now it = true).
  { apply list_elem_of_In in Hsel. unfold itemsToSync in Hsel.
    now apply filter_In in Hsel as [_ Hr]. }
  assert (Hq : syncQueue st'
               = settle_all (processSyncItem f) (itemsToSync now st) (syncQueue st)).
  { subst st'. unfold processSyncQueue. rewrite Hon, Hprog.
    destruct (syncQueue st) as [|x q] eqn:Eq; [now apply elem_of_nil in Hin|].
    cbn [orb negb length Nat.eqb]. cbn [syncQueue setInProgress].
    rewrite process_batches_syncQueue by reflexivity. cbn [syncQueue setInProgress].
    now rewrite Eq. }
  pose proof (settle_all_item (processSyncItem f) (itemsToSync now st) (syncQueue st) it
                Hnd) as Hitem.
  destruct Hitem as (Hs & Hf & Hr); [| |exact Hsel|exact He|].
  { eapply sublist_NoDup; [exact Hnd | apply ids_sublist, itemsToSync_sublist]. }
  { intros x Hx. eapply elem_of_sublist; [exact Hx | apply itemsToSync_sublist]. }
  rewrite <- Hq in Hs, Hf, Hr. fold result in Hs, Hf, Hr.
  unfold readyForSync in Hready. apply andb_true_iff in Hready as [Hlt _].
  apply Z.ltb_lt in Hlt.
  split; [lia|]. split; [|split].
  - intros H. split; [now apply Hs | now apply never_selected_again, Hs].
  - intros H Hm. assert (Habs : id it ∉ ids (syncQueue st')) by (apply Hf; [exact H | lia]).
    split; [exact Habs | now apply never_selected_again].
  - exact Hr.
Qed.

Lemma itemBefore_iff (a b : Item D) :
  itemBefore a b = true <->
  priorityRank (priority b) < priorityRank (priority a) \/
  (priorityRank (priority b) = priorityRank (priority a) /\ timestamp a <= timestamp b).
Proof.
  unfold itemBefore, compareItems. rewrite Z.leb_le.
  destruct (Z.eqb_spec (priorityRank (priority b) - priorityRank (priority a)) 0);
    cbn [negb]; lia.
Qed.



Lemma queue_ordered_sorted q : queue_ordered q <-> Sorted (beforeP itemBefore) q.
Proof.
  unfold queue_ordered.
  split; intros H; induction H as [|a l Hl IH Hhd]; constructor; auto;
    destruct Hhd; constructor; now apply itemBefore_iff.
Qed.


Lemma Sorted_snoc {A : Type} (R : A -> A -> Prop) (l : list A) x :
  Sorted R l -> (forall y, y ∈ l -> R y x) -> Sorted R (l ++ [x]).
Proof.
  induction l as [|a l IH]; intros Hs Hall; cbn [app].
  - repeat constructor.
  - apply Sorted_inv in Hs as [Hl Hhd].
    constructor; [apply IH; [exact Hl | intros y Hy; apply Hall; now right]|].
    destruct l as [|b l]; cbn [app]; constructor.
    + apply Hall. left.
    + now apply HdRel_inv in Hhd.
Qed.

Lemma enqueueSync_syncQueue sanitize req now newId st :
  syncQueue (enqueueSync sanitize (Some req) now newId st)
  = let q := stable_sort itemBefore (syncQueue st ++ [sanitizedItem sanitize req now newId]) in
    if (MAX_QUEUE_SIZE <? length q)%nat then take MAX_QUEUE_SIZE q else q.
Proof. reflexivity. Qed.


(** Below the cap, an enqueue adds exactly the new item. *)
Lemma enqueueSync_room sanitize req now newId st :
  (length (syncQueue st) < MAX_QUEUE_SIZE)%nat ->
  syncQueue (enqueueSync sanitize (Some req) now newId st)
  ≡ₚ sanitizedItem sanitize req now newId :: syncQueue st.
Proof.
  intros Hlen. rewrite enqueueSync_syncQueue. cbv zeta.
  rewrite stable_sort_length, length_app. cbn [length].
  destruct (Nat.ltb_spec MAX_QUEUE_SIZE (length (syncQueue st) + 1)); [lia|].
  rewrite stable_sort_perm. now rewrite Permutation_app_comm.
Qed.

(** On a full, ordered queue the cap cuts the tail of the order: when no
    queued item ranks after the new one, it is the new item that is lost
    and the oldest item stays. *)
Lemma enqueueSync_full_drops_new sanitize req now newId st :
  length (syncQueue st) = MAX_QUEUE_SIZE ->
  queue_ordered (syncQueue st) ->
  (forall x, x ∈ syncQueue st ->
     priorityRank (str_or (arg_priority req) "normal") <= priorityRank (priority x) /\
     timestamp x <= now) ->
  syncQueue (enqueueSync sanitize (Some req) now newId st) = syncQueue st.
Proof.
  intros Hlen Hord Hall. rewrite enqueueSync_syncQueue. cbv zeta.
  rewrite stable_sort_id.
  - rewrite length_app, Hlen. cbn [length].
    destruct (Nat.ltb_spec MAX_QUEUE_SIZE (MAX_QUEUE_SIZE + 1)); [|lia].
    rewrite <- Hlen. now rewrite take_app_length.
  - apply Sorted_snoc; [now apply queue_ordered_sorted|].
    intros y Hy. apply itemBefore_iff. cbn [priority timestamp sanitizedItem].
    destruct (Hall y Hy). lia.
Qed.

End QueueFacts.

Section QueueExamples.
Import SyncQueue.

(** With the remote down, the item on its fifth attempt is evicted and the
    fresh one stays. *)
Lemma sync_item_settles_once_witness :
  ids (syncQueue (processSyncQueue remoteDown 1000000 twoItems)) = ["sync_b"] /\
  "sync_a" ∉ ids (syncQueue (processSyncQueue remoteDown 1000000 twoItems)).
Proof.
  split; [vm_compute; reflexivity|].
  assert (Hnd : NoDup (ids (syncQueue twoItems))) by compute_done.
  assert (Hsel : progressItem "sync_a" 0 4 ∈ itemsToSync 1000000 twoItems) by (vm_compute; left).
  assert (Hid : id (progressItem "sync_a" 0 4) <> "") by discriminate.
  destruct (sync_item_settles_once remoteDown 1000000 twoItems (progressItem "sync_a" 0 4)
              Hnd eq_refl eq_refl Hsel Hid) as (_ & _ & Hevict & _).
  apply Hevict; reflexivity.
Defined.

(** C8 (the code at the failing input): the queue holds 1000 items of
    priority normal queued at times 1 .. 1000; one more item of priority
    normal is enqueued at time 2000.  The queue stays within the cap and
    ordered, but what the cap drops is the item just enqueued: the queue is
    exactly what it was, with the oldest item (time 1) still at its head. *)
Theorem enqueue_on_full_queue_drops_newest :
  let st := mkPersistence fullQueue true false None in
  let st' := enqueueSync plainText (Some progressRequest) 2000 "sync_new" st in
  length fullQueue = 1000%nat /\
  syncQueue st' = fullQueue /\
  head (syncQueue st') = Some (progressItem "sync_1" 1 0) /\
  "sync_new" ∉ ids (syncQueue st').
Proof.
  intros st st'.
  assert (Hq : syncQueue st' = fullQueue) by (vm_compute; reflexivity).
  split; [vm_compute; reflexivity|]. split; [exact Hq|]. rewrite Hq.
  split; [vm_compute; reflexivity | compute_done].
Qed.

End QueueExamples.

(** ** The player-local leaderboard update *)
Section BoardFacts.
Import Leaderboard.

(** What [updateLeaderboard] does for a signed-in user and a non-negative
    score. *)
Lemma updateLeaderboard_unfold sanitize user score0 now sessionId syncId inTelegram b :
  (0 <= score0)%Q ->
  let entry := playerEntry sanitize user score0 now sessionId in
  let lb := take MAX_LEADERBOARD_SIZE
              (sortByScore (List.filter (fun e => negb (String.eqb (id e) (id entry)))
                                        (leaderboard b) ++ [entry])) in
  updateLeaderboard sanitize (Some user) score0 now sessionId syncId inTelegram b
  = mkBoard lb (Some lb)
      (if inTelegram
       then SyncQueue.enqueueSync sanitize (Some (syncRequest entry)) now syncId (persistence b)
       else persistence b).
Proof.
  intros Hs entry lb. unfold updateLeaderboard.
  apply Qlt_bool_false in Hs. rewrite Hs.
  fold (playerEntry sanitize user score0 now sessionId). fold entry. fold lb.
  now destruct inTelegram.
Qed.

(** C9 (counterexample): Ann (id 42) scores 120 on a board with an empty
    sync queue.  Outside Telegram the update enqueues nothing; inside
    Telegram it enqueues one item, whose attempt limit is 5. *)
Lemma update_outside_telegram_enqueues_nothing :
  SyncQueue.syncQueue
    (persistence (updateLeaderboard plainText (Some ann) 120 5000 "sess" "sync_1" false board0))
  = [] /\
  map SyncQueue.maxAttempts
    (SyncQueue.syncQueue
       (persistence (updateLeaderboard plainText (Some ann) 120 5000 "sess" "sync_1" true board0)))
  = [5].
Proof. split; vm_compute; reflexivity. Qed.

(** C9 (amended): for a signed-in user and a non-negative score the update
    removes any entry with the player's id, inserts the new entry, re-sorts
    descending by score, truncates to the maximum size and persists the
    result locally; when running inside Telegram it hands exactly one
    request to the sync queue - the new entry, priority normal - which, when
    the queue has room, adds exactly one item with that priority; outside
    Telegram the sync queue is left as it is. *)
Theorem update_leaderboard_rule (sanitize : string -> string) (user : User) (score0 : Q)
    (now : Z) (sessionId syncId : string) (inTelegram : bool) (b : Board) :
  (0 <= score0)%Q ->
  let entry := playerEntry sanitize user score0 now sessionId in
  let b' := updateLeaderboard sanitize (Some user) score0 now sessionId syncId inTelegram b in
  leaderboard b'
  = take MAX_LEADERBOARD_SIZE
      (sortByScore (List.filter (fun e => negb (String.eqb (id e) (id entry))) (leaderboard b)
                    ++ [entry])) /\
  descending (leaderboard b') /\
  (length (leaderboard b') <= MAX_LEADERBOARD_SIZE)%nat /\
  savedLeaderboard b' = Some (leaderboard b') /\
  (inTelegram = false -> persistence b' = persistence b) /\
  (inTelegram = true ->
     (exists request,
        persistence b'
        = SyncQueue.enqueueSync sanitize (Some request) now syncId (persistence b) /\
        SyncQueue.arg_type request = Some "leaderboard_update" /\
        SyncQueue.arg_data request = entry /\
        SyncQueue.arg_priority request = Some "normal") /\
     ((length (SyncQueue.syncQueue (persistence b)) < SyncQueue.MAX_QUEUE_SIZE)%nat ->
      exists item,
        SyncQueue.syncQueue (persistence b') ≡ₚ item :: SyncQueue.syncQueue (persistence b) /\
        SyncQueue.id item = syncId /\ SyncQueue.data item = entry /\
        SyncQueue.priority item = "normal" /\ SyncQueue.attempts item = 0)).
Proof.
  intros Hs entry b'. subst b'.
  rewrite (updateLeaderboard_unfold sanitize user score0 now sessionId syncId inTelegram b Hs).
  cbv zeta. fold entry. cbn [leaderboard savedLeaderboard persistence].
  split; [reflexivity|].
  split; [apply descending_take, sortByScore_descending|].
  split; [rewrite length_take; lia|].
  split; [reflexivity|].
  split; [now intros ->|].
  intros ->. split; [exists (syncRequest entry); repeat split|].
  intros Hroom.
  exists (SyncQueue.sanitizedItem sanitize (syncRequest entry) now syncId).
  split; [now apply enqueueSync_room|]. repeat split.
Qed.

(** Ann's 120 points enter the sample board in third place. *)
Lemma update_leaderboard_rule_witness :
  leaderboard (updateLeaderboard plainText (Some ann) 120 5000 "sess" "sync_1" true board0)
  = [mkEntry "alice" "Alice" 300 10 "s1"; mkEntry "bob" "Bob" 200 20 "s2";
     mkEntry "42" "Ann" 120 5000 "sess"].
Proof.
  assert (Hs : (0 <= 120)%Q) by (vm_compute; discriminate).
  rewrite (proj1 (update_leaderboard_rule plainText ann 120 5000 "sess" "sync_1" true board0 Hs)).
  vm_compute. reflexivity.
Defined.

End BoardFacts.

(** * Further properties *)

(** ** The engine: invariants of a session *)
Section EngineInvariants.
Import Engine.

(** Once the taps pass the two rate checks, [slap] counts the tap, computes
    the total and commits it. *)
Lemma slap_awarded_exact now e :
  Z.of_nat (length (window now e)) < 4 ->
  MIN_INTERVAL <= now - lastSlapAt (gameState e) ->
  let e1 := countTap now (setTapsWindow (window now e) e) in
  let newCombo := calculateCombo now (gameState e) in
  let points := pointTotal (powerUpsState e) newCombo in
  slap now e = (Awarded points, commitSlap now newCombo (score (gameState e)) points e1).
Proof.
  intros Hw Hi e1 newCombo points. unfold slap, isValidTapRate. fold (window now e).
  unfold MAX_TAPS_PER_SECOND.
  destruct (Z.leb_spec 4 (Z.of_nat (length (window now e)))); [lia|]. cbn [negb].
  change (gameState (setTapsWindow (window now e) e)) with (gameState e).
  destruct (Z.ltb_spec (now - lastSlapAt (gameState e)) MIN_INTERVAL); [lia|].
  cbv zeta. fold e1.
  change (calculateCombo now (gameState e1)) with newCombo.
  change (powerUpsState e1) with (powerUpsState e).
  rewrite !applyPowerUpEffects_total. fold points.
  pose proof (pointTotal_le_450 (powerUpsState e) newCombo (calculateCombo_le_50 now _)) as Hp.
  fold points in Hp.
  destruct (Z.ltb_spec MAX_SCORE_INCREMENT points) as [Hbad|_];
    [unfold MAX_SCORE_INCREMENT in Hbad; lia|].
  reflexivity.
Qed.

Lemma run_op_saved op e :
  savedGameState (run_op op e) = savedGameState e \/
  savedGameState (run_op op e) = Some (gameState (run_op op e)).
Proof.
  destruct op as [now|now|amount|id|id| | |d|]; cbn [run_op].
  - destruct (slap_cases now e) as [[_ ->]|[(_ & _ & ->)|(_ & _ & e' & -> & _ & _ & Hs)]];
      cbn [snd]; auto.
  - unfold claimDailyReward. destruct (_ && _); cbn [snd]; [now left | now right].
  - unfold addDebugScore. destruct (0 <? amount); now left.
  - unfold activatePowerUp.
    destruct (negb _); [now left|]. destruct (0 <? _); [now left|].
    destruct (active _); now left.
  - unfold deactivatePowerUp. destruct (active _); now left.
  - now left.
  - now left.
  - unfold dailyResetTick. destruct d; now left.
  - now right.
Qed.

(** A property of the game state that every session start establishes and
    every operation keeps holds throughout, also for what was persisted. *)
Lemma session_invariant (P : GameState -> Prop) :
  (forall now, P (initState now None)) ->
  (forall now g, P g -> P (initState now (Some g))) ->
  (forall op e, P (gameState e) -> P (gameState (run_op op e))) ->
  forall e, reachable e ->
    P (gameState e) /\ (forall g, savedGameState e = Some g -> P g).
Proof.
  intros Hfresh Hresume Hstep e Hr.
  induction Hr as [now|now e _ [_ IHs]|op e _ [IHg IHs]].
  - unfold startEngine. rewrite checkPowerUpUnlocks_gameState, checkPowerUpUnlocks_savedGameState.
    split; [apply Hfresh | discriminate].
  - unfold startEngine. rewrite checkPowerUpUnlocks_gameState, checkPowerUpUnlocks_savedGameState.
    cbn [gameState savedGameState]. split; [|exact IHs].
    destruct (savedGameState e) as [g|]; [apply Hresume; now apply IHs | apply Hfresh].
  - split; [now apply Hstep|]. intros g Hg.
    destruct (run_op_saved op e) as [Heq|Heq]; rewrite Heq in Hg.
    + now apply IHs.
    + injection Hg as <-. now apply Hstep.
Qed.


Lemma run_op_combo op e :
  1 <= combo (gameState e) <= 50 -> 1 <= combo (gameState (run_op op e)) <= 50.
Proof.
  intros Hc. destruct op as [now|now|amount|id|id| | |d|]; cbn [run_op].
  - destruct (slap_cases now e) as [[_ ->]|[(_ & _ & ->)|(_ & _ & e' & -> & Hsame & _)]];
      cbn [snd]; [exact Hc | exact Hc |].
    rewrite Hsame. cbn [combo]. unfold calculateCombo. destruct (_ <? _); lia.
  - unfold claimDailyReward. destruct (_ && _); exact Hc.
  - unfold addDebugScore. destruct (0 <? amount); exact Hc.
  - unfold activatePowerUp.
    destruct (negb _); [exact Hc|]. destruct (0 <? _); [exact Hc|].
    destruct (active _); exact Hc.
  - unfold deactivatePowerUp. destruct (active _); exact Hc.
  - exact Hc.
  - exact Hc.
  - unfold dailyResetTick. destruct d; exact Hc.
  - exact Hc.
Qed.



(** X1: throughout a session - fresh or resumed, after any operations - the
    combo multiplier is between 1 and 50, in the live state and in the
    persisted one. *)
Theorem combo_stays_in_range (e : Engine) :
  reachable e ->
  1 <= combo (gameState e) <= 50 /\
  (forall g, savedGameState e = Some g -> 1 <= combo g <= 50).
Proof.
  apply (session_invariant (fun g => 1 <= combo g <= 50)).
  - intros now. cbn. lia.
  - intros now g Hg. cbn. destruct (Z.ltb_spec (combo g) 1); lia.
  - apply run_op_combo.
Qed.

Lemma reachable_run_ops ops e : reachable e -> reachable (run_ops ops e).
Proof.
  revert e. induction ops as [|op ops IH]; intros e Hr; [exact Hr|].
  apply IH. now apply reach_step.
Qed.

Lemma slaps_run_ops times e : slaps times e = run_ops (map OpSlap times) e.
Proof.
  revert e. induction times as [|now times IH]; intros e; [reflexivity|].
  unfold slaps, run_ops in *. cbn [fold_left map]. apply IH.
Qed.

Lemma reachable_after_four_slaps : reachable after_four_slaps.
Proof.
  unfold after_four_slaps. rewrite slaps_run_ops.
  apply reachable_run_ops, reach_start.
Qed.

Lemma combo_stays_in_range_witness :
  1 <= combo (gameState after_four_slaps) <= 50.
Proof.
  exact (proj1 (combo_stays_in_range after_four_slaps reachable_after_four_slaps)).
Defined.







Lemma MIN_INTERVAL_eq : MIN_INTERVAL = 250.
Proof. reflexivity. Qed.

Lemma spaced_weaken lo lo' l : lo' <= lo -> spaced lo l -> spaced lo' l.
Proof. destruct l as [|x r]; [easy|]. cbn. intros ? [? ?]. split; [lia | assumption]. Qed.

Lemma spaced_filter (Q : Z -> bool) lo l : spaced lo l -> spaced lo (List.filter Q l).
Proof.
  revert lo. induction l as [|x r IH]; intros lo Hs; [exact I|].
  destruct Hs as [Hx Hr]. cbn [List.filter]. destruct (Q x).
  - split; [exact Hx | now apply IH].
  - apply IH. apply (spaced_weaken (x + MIN_INTERVAL)); [rewrite MIN_INTERVAL_eq; lia | exact Hr].
Qed.

Lemma spaced_filter_from (Q : Z -> bool) m lo l :
  (forall x, Q x = true -> m <= x) -> spaced lo l -> spaced m (List.filter Q l).
Proof.
  intros HQ. revert lo. induction l as [|x r IH]; intros lo Hs; [exact I|].
  destruct Hs as [Hx Hr]. cbn [List.filter]. destruct (Q x) eqn:E.
  - split; [now apply HQ | now apply spaced_filter].
  - now apply (IH (x + MIN_INTERVAL)).
Qed.

Lemma spaced_length lo hi l :
  spaced lo l -> (forall x, x ∈ l -> x < hi) -> l <> [] ->
  Z.of_nat (length l) * MIN_INTERVAL < hi - lo + MIN_INTERVAL.
Proof.
  revert lo. induction l as [|x r IH]; intros lo Hs Hhi Hne; [congruence|].
  destruct Hs as [Hx Hr].
  assert (Hxhi : x < hi) by (apply Hhi; left).
  destruct r as [|y r'].
  - cbn [length]. rewrite MIN_INTERVAL_eq. lia.
  - specialize (IH (x + MIN_INTERVAL) Hr).
    assert (Z.of_nat (length (y :: r')) * MIN_INTERVAL < hi - (x + MIN_INTERVAL) + MIN_INTERVAL).
    { apply IH; [intros z Hz; apply Hhi; now right | discriminate]. }
    change (length (x :: y :: r')) with (S (length (y :: r'))).
    rewrite Nat2Z.inj_succ. rewrite MIN_INTERVAL_eq in *. lia.
Qed.

Lemma accepted_times_spaced times e :
  spaced (lastSlapAt (gameState e) + MIN_INTERVAL) (accepted_times times e).
Proof.
  revert e. induction times as [|now times IH]; intros e; [exact I|].
  cbn [accepted_times].
  destruct (slap_cases now e) as [[_ H]|[(_ & _ & H)|(_ & Hi & e' & H & Hsame & _)]];
    rewrite H; cbn [fst snd is_awarded app].
  - apply (IH (setTapsWindow (window now e) e)).
  - apply (IH (setTapsWindow (window now e) e)).
  - split; [rewrite MIN_INTERVAL_eq in *; lia|]. specialize (IH e'). rewrite Hsame in IH. exact IH.
Qed.

(** X5: whatever the state the engine starts from and whatever the times of
    the calls, the slaps that are accepted lie at least 250 ms apart (and
    after the last accepted slap), so that no second - no interval
    [t, t + 1000) - contains more than 4 accepted slaps. *)
Theorem at_most_four_accepted_per_second (times : list Z) (e : Engine) (t : Z) :
  spaced (lastSlapAt (gameState e) + MIN_INTERVAL) (accepted_times times e) /\
  (length (within_second t (accepted_times times e)) <= 4)%nat.
Proof.
  split; [apply accepted_times_spaced|].
  pose proof (accepted_times_spaced times e) as Hs.
  assert (Hsp : spaced t (within_second t (accepted_times times e))).
  { unfold within_second. eapply spaced_filter_from; [|exact Hs].
    intros z Hz. apply andb_true_iff in Hz as [Hz _]. now apply Z.leb_le. }
  assert (Hhi : forall z, z ∈ within_second t (accepted_times times e) -> z < t + 1000).
  { intros z Hz. unfold within_second in Hz.
    apply list_elem_of_In, filter_In in Hz as [_ Hz].
    apply andb_true_iff in Hz as [_ Hz]. now apply Z.ltb_lt. }
  destruct (within_second t (accepted_times times e)) as [|x r] eqn:El; [cbn; lia|].
  assert (Hlen : Z.of_nat (length (x :: r)) * MIN_INTERVAL < (t + 1000) - t + MIN_INTERVAL)
    by (apply spaced_length; [exact Hsp | exact Hhi | discriminate]).
  rewrite MIN_INTERVAL_eq in Hlen. lia.
Qed.

(** X6: in every session state the sliding window holds at most 4 taps and
    the score history at most 100 entries. *)
Theorem buffers_stay_bounded (e : Engine) :
  reachable e ->
  (length (tapsWindow e) <= 4)%nat /\ (length (scoreHistory e) <= 100)%nat.
Proof.
  assert (Hstart : forall now saved savedPU,
            (length (tapsWindow (startEngine now saved savedPU)) <= 4)%nat /\
            (length (scoreHistory (startEngine now saved savedPU)) <= 100)%nat).
  { intros. unfold startEngine. rewrite checkPowerUpUnlocks_tapsWindow.
    unfold checkPowerUpUnlocks. destruct (fold_left _ _ _) as [ps any].
    destruct any; cbn; lia. }
  induction 1 as [now|now e _ _|op e _ [IHw IHh]]; [apply Hstart | apply Hstart |].
  destruct op as [now|now|amount|id|id| | |d|]; cbn [run_op].
  - assert (Hfl : (length (window now e) <= length (tapsWindow e))%nat)
      by (unfold window; apply List.filter_length_le).
    destruct (Z.leb_spec 4 (Z.of_nat (length (window now e)))) as [Hw|Hw].
    { destruct (slap_cases now e) as [[_ H]|[(? & _)|(? & _)]]; [|lia|lia].
      rewrite H. cbn. lia. }
    destruct (Z.ltb_spec (now - lastSlapAt (gameState e)) MIN_INTERVAL) as [Hi|Hi].
    { destruct (slap_cases now e) as [[? _]|[(_ & _ & H)|(_ & ? & _)]]; [lia| |lia].
      rewrite H. cbn. lia. }
    rewrite (slap_awarded_exact now e Hw Hi). cbn [snd]. unfold commitSlap. cbv zeta.
    match goal with |- context [if ?c then saveGameState ?x else ?x] =>
      set (c0 := c); set (x0 := x) end.
    assert (Hw0 : tapsWindow (if c0 then saveGameState x0 else x0) = tapsWindow x0)
      by now destruct c0.
    assert (Hh0 : scoreHistory (if c0 then saveGameState x0 else x0) = scoreHistory x0)
      by now destruct c0.
    rewrite Hw0, Hh0. subst x0. rewrite checkPowerUpUnlocks_tapsWindow.
    assert (Hh1 : forall x, scoreHistory (checkPowerUpUnlocks x) = scoreHistory x).
    { intros x. unfold checkPowerUpUnlocks. destruct (fold_left _ _ _) as [ps any].
      now destruct any. }
    rewrite Hh1. cbn [tapsWindow scoreHistory setGameState trackScoreHistory setScoreHistory
                      countTap setTapsWindow].
    split; [rewrite length_app; cbn; lia|].
    match goal with |- context [if ?c then tail ?h else ?h] =>
      destruct c eqn:Ec; [|apply Z.ltb_ge in Ec; lia] end.
    assert (Htl : forall h : list (Z * Z), (length (tail h) <= length h - 1)%nat)
      by (intros [|? ?]; cbn; lia).
    etransitivity; [apply Htl|]. rewrite length_app. cbn [length]. lia.
  - unfold claimDailyReward. destruct (_ && _); now split.
  - unfold addDebugScore. destruct (0 <? amount); now split.
  - unfold activatePowerUp.
    destruct (negb _); [now split|]. destruct (0 <? _); [now split|].
    destruct (active _); now split.
  - unfold deactivatePowerUp. destruct (active _); now split.
  - now split.
  - now split.
  - unfold dailyResetTick. destruct d; now split.
  - now split.
Qed.

Lemma buffers_stay_bounded_witness :
  (length (tapsWindow after_four_slaps) <= 4)%nat.
Proof.
  exact (proj1 (buffers_stay_bounded after_four_slaps reachable_after_four_slaps)).
Defined.

Lemma includes_false a l : includes a l = false -> a ∉ l.
Proof.
  unfold includes. intros H Hin. apply list_elem_of_In in Hin.
  assert (existsb (String.eqb a) l = true)
    by (apply existsb_exists; exists a; split; [exact Hin | apply String.eqb_refl]).
  congruence.
Qed.

Lemma unlockAchievement_NoDup a g :
  NoDup (achievements g) -> NoDup (achievements (unlockAchievement a g)).
Proof.
  intros Hnd. unfold unlockAchievement. destruct (includes a (achievements g)) eqn:E; [exact Hnd|].
  cbn [achievements]. apply NoDup_app. split; [exact Hnd|]. split; [|apply NoDup_singleton].
  intros x Hx Hx'. apply list_elem_of_singleton in Hx'. subst.
  now apply (includes_false a (achievements g)).
Qed.

Lemma checkAchievements_NoDup prev new g :
  NoDup (achievements g) -> NoDup (achievements (checkAchievements prev new g)).
Proof.
  intros Hnd. unfold checkAchievements.
  assert (Hif : forall (c : bool) a x, NoDup (achievements x) ->
             NoDup (achievements (if c then unlockAchievement a x else x))).
  { intros [] a x Hx; [now apply unlockAchievement_NoDup | exact Hx]. }
  apply Hif, Hif.
  generalize dependent g. induction milestones as [|m l IH]; intros g Hnd; [exact Hnd|].
  cbn [fold_left]. apply IH. now apply Hif.
Qed.

(** The game state after a call of [slap]: untouched, or the committed
    state with its achievements checked. *)
Lemma slap_gameState now e :
  gameState (snd (slap now e)) = gameState e \/
  exists g2 prev new,
    achievements g2 = achievements (gameState e) /\
    gameState (snd (slap now e)) = checkAchievements prev new g2.
Proof.
  destruct (Z.leb_spec 4 (Z.of_nat (length (window now e)))) as [Hw|Hw].
  { destruct (slap_cases now e) as [[_ H]|[(? & _)|(? & _)]]; [|lia|lia].
    rewrite H. now left. }
  destruct (Z.ltb_spec (now - lastSlapAt (gameState e)) MIN_INTERVAL) as [Hi|Hi].
  { destruct (slap_cases now e) as [[? _]|[(_ & _ & H)|(_ & ? & _)]]; [lia| |lia].
    rewrite H. now left. }
  right. rewrite (slap_awarded_exact now e Hw Hi). cbn [snd]. unfold commitSlap. cbv zeta.
  match goal with |- context [if ?c then saveGameState ?x else ?x] =>
    set (c0 := c); set (x0 := x) end.
  assert (Hg0 : gameState (if c0 then saveGameState x0 else x0) = gameState x0)
    by now destruct c0.
  rewrite Hg0. subst x0. rewrite checkPowerUpUnlocks_gameState.
  cbn [gameState setGameState].
  eexists _, _, _. split; [|reflexivity]. reflexivity.
Qed.

(** X7: in every session state the achievement list holds no id twice: an
    achievement is unlocked at most once. *)
Theorem achievements_unlocked_once (e : Engine) :
  reachable e ->
  NoDup (achievements (gameState e)) /\
  (forall g, savedGameState e = Some g -> NoDup (achievements g)).
Proof.
  apply (session_invariant (fun g => NoDup (achievements g))).
  - intros now. apply NoDup_nil_2.
  - intros now g Hg. exact Hg.
  - intros op e0 Hg. destruct op as [now|now|amount|id|id| | |d|]; cbn [run_op].
    + destruct (slap_gameState now e0) as [->|(g2 & prev & new & Ha & ->)]; [exact Hg|].
      apply checkAchievements_NoDup. now rewrite Ha.
    + unfold claimDailyReward. destruct (_ && _); exact Hg.
    + unfold addDebugScore. destruct (0 <? amount); exact Hg.
    + unfold activatePowerUp.
      destruct (negb _); [exact Hg|]. destruct (0 <? _); [exact Hg|].
      destruct (active _); exact Hg.
    + unfold deactivatePowerUp. destruct (active _); exact Hg.
    + exact Hg.
    + exact Hg.
    + unfold dailyResetTick. destruct d; exact Hg.
    + exact Hg.
Qed.

Lemma achievements_unlocked_once_witness :
  NoDup (achievements (gameState after_four_slaps)).
Proof.
  exact (proj1 (achievements_unlocked_once after_four_slaps reachable_after_four_slaps)).
Defined.

Lemma PowerUpId_eqb_eq a b : PowerUpId_eqb a b = true <-> a = b.
Proof. destruct a, b; cbn; split; congruence. Qed.










Lemma setPowerUp_same id p ps : setPowerUp id p ps id = p.
Proof.
  unfold setPowerUp. destruct (PowerUpId_eqb id id) eqn:E; [reflexivity|].
  assert (PowerUpId_eqb id id = true) by now apply PowerUpId_eqb_eq. congruence.
Qed.

Lemma setPowerUp_other id p ps k : k <> id -> setPowerUp id p ps k = ps k.
Proof.
  intros Hne. unfold setPowerUp. destruct (PowerUpId_eqb k id) eqn:E; [|reflexivity].
  apply PowerUpId_eqb_eq in E. congruence.
Qed.

Lemma activatePowerUp_ready id e :
  fst (activatePowerUp id e) = inr tt -> ready (powerUpsState e id) = true.
Proof.
  unfold activatePowerUp, ready.
  destruct (unlocked _); [|discriminate]. destruct (0 <? _); [discriminate|].
  destruct (active _); [discriminate|]. reflexivity.
Qed.

Lemma activatePowerUp_ok id e :
  ready (powerUpsState e id) = true ->
  activatePowerUp id e =
  (inr tt,
   savePowerUpsState
     (setPowerUpsState
        (setPowerUp id
           (mkPowerUp true true (getPowerUpCooldown id) (getPowerUpDuration id)
              (unlockThreshold (powerUpsState e id)))
           (powerUpsState e)) e)).
Proof.
  unfold activatePowerUp, ready.
  destruct (unlocked _); [|discriminate]. destruct (0 <? _); [discriminate|].
  destruct (active _); [discriminate|]. reflexivity.
Qed.

(** X9: [activatePowerUp] succeeds exactly on a power-up that is unlocked,
    off cooldown and not active; it then marks it active with the duration
    and cooldown of its kind and touches neither another power-up nor the
    game state, and a second activation right away is refused with
    "Power-up on cooldown".  A refused activation changes nothing. *)
Theorem activation_rule (id : PowerUpId) (e : Engine) :
  let r := fst (activatePowerUp id e) in
  let e' := snd (activatePowerUp id e) in
  (r = inr tt <-> ready (powerUpsState e id) = true) /\
  (r = inr tt ->
     active (powerUpsState e' id) = true /\
     duration (powerUpsState e' id) = getPowerUpDuration id /\
     cooldown (powerUpsState e' id) = getPowerUpCooldown id /\
     unlocked (powerUpsState e' id) = true /\
     (forall k, k <> id -> powerUpsState e' k = powerUpsState e k) /\
     gameState e' = gameState e /\
     fst (activatePowerUp id e') = inl "Power-up on cooldown") /\
  (r <> inr tt -> e' = e).
Proof.
  intros r e'. subst r e'. unfold activatePowerUp, ready.
  destruct (unlocked (powerUpsState e id)) eqn:Hu; cbn [negb andb fst snd].
  2:{ repeat split; try discriminate; try reflexivity; intros; discriminate. }
  destruct (Z.ltb_spec 0 (cooldown (powerUpsState e id))) as [Hc|Hc]; cbn [negb andb fst snd].
  { repeat split; try discriminate; try reflexivity; intros; discriminate. }
  destruct (active (powerUpsState e id)) eqn:Ha; cbn [negb andb fst snd].
  { repeat split; try discriminate; try reflexivity; intros; discriminate. }
  split; [split; reflexivity|]. split; [|congruence].
  intros _. cbn [powerUpsState savePowerUpsState setPowerUpsState gameState].
  rewrite !setPowerUp_same. cbn [active duration cooldown unlocked negb].
  repeat split.
  - intros k Hk. now apply setPowerUp_other.
  - destruct id; reflexivity.
Qed.

Lemma activation_rule_witness :
  fst (activatePowerUp doublePoints
         (snd (slap 1000000 (addDebugScore 499 (startEngine 999000 None None)))))
  = inr tt.
Proof.
  apply (proj1 (activation_rule doublePoints
                  (snd (slap 1000000 (addDebugScore 499 (startEngine 999000 None None)))))).
  vm_compute. reflexivity.
Defined.

Lemma cooldownTicks_spec n e id :
  let p := powerUpsState e id in
  let p' := powerUpsState (cooldownTicks n e) id in
  unlocked p' = unlocked p /\ active p' = active p /\ duration p' = duration p /\
  unlockThreshold p' = unlockThreshold p /\
  (0 <= cooldown p -> cooldown p' = Z.max 0 (cooldown p - 1000 * Z.of_nat n)) /\
  gameState (cooldownTicks n e) = gameState e.
Proof.
  induction n as [|n IH]; cbv zeta in *.
  - cbn. repeat split. lia.
  - destruct IH as (Hu & Ha & Hd & Ht & Hc & Hg).
    unfold cooldownTicks in *. rewrite Nat.iter_succ.
    set (e1 := Nat.iter n cooldownTick e) in *.
    unfold cooldownTick. cbn [powerUpsState setPowerUpsState gameState].
    destruct (Z.ltb_spec 0 (cooldown (powerUpsState e1 id))) as [Hpos|Hpos];
      cbn [unlocked active duration unlockThreshold cooldown];
      (split; [assumption|]); (split; [assumption|]); (split; [assumption|]);
      (split; [assumption|]); (split; [|assumption]);
      intros H0; specialize (Hc H0); lia.
Qed.

(** X10: after a successful activation the cooldown of the kind runs down by
    1000 ms per tick of the cooldown timer, whether or not the power-up is
    still active: while ticks x 1000 is below the cooldown a new activation
    is refused with "Power-up on cooldown"; once the ticks have covered the
    cooldown and the deactivation timer has run, the power-up can be
    activated again. *)
Theorem cooldown_timeline (id : PowerUpId) (e : Engine) (n : nat) :
  fst (activatePowerUp id e) = inr tt ->
  let e1 := cooldownTicks n (snd (activatePowerUp id e)) in
  cooldown (powerUpsState e1 id) = Z.max 0 (getPowerUpCooldown id - 1000 * Z.of_nat n) /\
  active (powerUpsState e1 id) = true /\
  (1000 * Z.of_nat n < getPowerUpCooldown id ->
     fst (activatePowerUp id e1) = inl "Power-up on cooldown" /\
     fst (activatePowerUp id (deactivatePowerUp id e1)) = inl "Power-up on cooldown") /\
  (getPowerUpCooldown id <= 1000 * Z.of_nat n ->
     fst (activatePowerUp id e1) = inl "Power-up already active" /\
     fst (activatePowerUp id (deactivatePowerUp id e1)) = inr tt).
Proof.
  intros Hok e1.
  assert (Hact : active (powerUpsState (snd (activatePowerUp id e)) id) = true /\
                 cooldown (powerUpsState (snd (activatePowerUp id e)) id)
                 = getPowerUpCooldown id /\
                 unlocked (powerUpsState (snd (activatePowerUp id e)) id) = true).
  { rewrite (activatePowerUp_ok id e (activatePowerUp_ready id e Hok)).
    cbn [snd powerUpsState savePowerUpsState setPowerUpsState].
    rewrite setPowerUp_same. repeat split. }
  destruct Hact as (Ha & Hc & Hu).
  destruct (cooldownTicks_spec n (snd (activatePowerUp id e)) id)
    as (Hu1 & Ha1 & _ & _ & Hc1 & _). cbv zeta in *. fold e1 in Hu1, Ha1, Hc1.
  assert (Hpos : 0 <= getPowerUpCooldown id) by (destruct id; cbn; lia).
  rewrite Hc in Hc1. specialize (Hc1 Hpos). rewrite Ha in Ha1. rewrite Hu in Hu1.
  split; [exact Hc1|]. split; [exact Ha1|].
  assert (Hd1 : powerUpsState (deactivatePowerUp id e1) id
             = mkPowerUp true false (cooldown (powerUpsState e1 id)) 0
                 (unlockThreshold (powerUpsState e1 id))).
  { unfold deactivatePowerUp. rewrite Ha1.
    cbn [powerUpsState savePowerUpsState setPowerUpsState].
    rewrite setPowerUp_same. now rewrite Hu1. }
  split; intros Hn.
  - split.
    + unfold activatePowerUp. rewrite Hu1, Hc1. cbn [negb].
      destruct (Z.ltb_spec 0 (Z.max 0 (getPowerUpCooldown id - 1000 * Z.of_nat n)));
        [reflexivity | lia].
    + unfold activatePowerUp. rewrite Hd1. cbn [unlocked cooldown negb]. rewrite Hc1.
      destruct (Z.ltb_spec 0 (Z.max 0 (getPowerUpCooldown id - 1000 * Z.of_nat n)));
        [reflexivity | lia].
  - split.
    + unfold activatePowerUp. rewrite Hu1, Hc1, Ha1. cbn [negb].
      destruct (Z.ltb_spec 0 (Z.max 0 (getPowerUpCooldown id - 1000 * Z.of_nat n)));
        [lia | reflexivity].
    + unfold activatePowerUp. rewrite Hd1. cbn [unlocked cooldown active negb]. rewrite Hc1.
      destruct (Z.ltb_spec 0 (Z.max 0 (getPowerUpCooldown id - 1000 * Z.of_nat n)));
        [lia | reflexivity].
Qed.

Lemma cooldown_timeline_witness :
  cooldown (powerUpsState
              (cooldownTicks 10
                 (snd (activatePowerUp doublePoints
                         (snd (slap 1000000 (addDebugScore 499 (startEngine 999000 None None)))))))
              doublePoints)
  = Z.max 0 (120000 - 1000 * Z.of_nat 10).
Proof.
  exact (proj1 (cooldown_timeline doublePoints
                  (snd (slap 1000000 (addDebugScore 499 (startEngine 999000 None None)))) 10
                  eq_refl)).
Defined.

End EngineInvariants.

(** ** The arena: roster invariants, the game loop and the client's view *)
Section ArenaLoopFacts.
Import Arena ArenaLoop.



Lemma server_eq s m n b :
  players s = m -> nextId s = n -> broadcasts s = b -> s = mkServer m n b.
Proof. destruct s; cbn; congruence. Qed.



Lemma charged_fields p :
  gas (charged p) = gas p - 20 /\ score (charged p) = score p + 10 /\
  combo (charged p) = Z.min (combo p + 1) 50 /\
  health (charged p) = health p /\ alive (charged p) = alive p /\
  id (charged p) = id p /\ x (charged p) = x p /\ y (charged p) = y p /\
  name (charged p) = name p.
Proof. unfold charged. cbn. repeat split. Qed.

(** The hit resolution as one update of the target and one of the attacker. *)
Lemma resolve_hit_eq a t s pt :
  players s !! t = Some pt ->
  resolve_hit a t s
  = mkServer (alter (rewarded (lethal pt)) a (alter struck t (players s))) (nextId s)
      (broadcasts s ++ (if lethal pt then [playerDied t a] else [])
                    ++ [playerHit t (health pt - 25) a 25]).
Proof.
  intros Ht. unfold resolve_hit.
  set (s1 := modify a _ (modify t _ s)).
  assert (H1 : exists p1, players s1 !! t = Some p1 /\ health p1 = health pt - 25).
  { subst s1. rewrite !lookup_modify. destruct (decide (a = t)) as [->|Hne].
    - rewrite decide_True by reflexivity. rewrite Ht. cbn. eexists. split; [reflexivity|].
      reflexivity.
    - rewrite decide_True by reflexivity. rewrite Ht. cbn. eexists. split; reflexivity. }
  destruct H1 as (p1 & Hp1 & Hh1). rewrite Hp1, Hh1. fold (lethal pt).
  destruct (lethal pt) eqn:Hl.
  - set (s2 := broadcast _ _).
    assert (H2 : exists p2, players s2 !! t = Some p2 /\ health p2 = health pt - 25).
    { subst s2. rewrite players_broadcast, !lookup_modify, Hp1.
      destruct (decide (a = t)) as [->|Hne]; rewrite decide_True by reflexivity.
      - cbn. eexists. split; [reflexivity|]. cbn. exact Hh1.
      - cbn. eexists. split; [reflexivity|]. cbn. exact Hh1. }
    destruct H2 as (p2 & Hp2 & Hh2). rewrite Hp2, Hh2.
    apply server_eq; [|reflexivity|].
    + subst s2 s1. cbn [players broadcast modify]. apply map_eq. intros k.
      rewrite !lookup_alter.
      repeat case_decide; subst; try congruence;
        rewrite ?Ht; try reflexivity;
        try (destruct (players s !! k)); cbn [fmap option_fmap option_map]; try f_equal;
        unfold rewarded, struck, lethal in *; cbn [set_health health]; rewrite ?Hl;
        reflexivity.
    + subst s2 s1. cbn [broadcasts broadcast modify]. now rewrite <- app_assoc.
  - rewrite Hp1, Hh1. apply server_eq; [|reflexivity|].
    + subst s1. cbn [players broadcast modify]. apply map_eq. intros k.
      rewrite !lookup_alter.
      repeat case_decide; subst; try congruence;
        rewrite ?Ht; try reflexivity;
        try (destruct (players s !! k)); cbn [fmap option_fmap option_map]; try f_equal;
        unfold rewarded, struck, lethal in *; cbn [set_health health]; rewrite ?Hl;
        reflexivity.
    + subst s1. reflexivity.
Qed.

Lemma charged_roster a s :
  modify a (fun p => set_combo (Z.min (combo p + 1) 50) p)
    (modify a (fun p => set_score (score p + 10) p)
       (modify a (fun p => set_gas (gas p - 20) p) s))
  = mkServer (alter charged a (players s)) (nextId s) (broadcasts s).
Proof.
  unfold modify. cbn [players nextId broadcasts]. f_equal.
  rewrite !alter_alter_eq. reflexivity.
Qed.

(** A slap of a player that is missing, dead or short of gas is dropped. *)
Lemma on_slap_rejected a tgt s :
  (forall pa, players s !! a = Some pa -> alive pa = false \/ gas pa < 20) ->
  on_slap a tgt s = s.
Proof.
  intros H. unfold on_slap. destruct (players s !! a) as [pa|]; [|reflexivity].
  destruct (H pa eq_refl) as [->|Hg]; [reflexivity|].
  destruct (Z.ltb_spec (gas pa) 20); [|lia]. now rewrite orb_true_r.
Qed.

(** An accepted slap as one update of the roster and a list of broadcasts. *)
Lemma on_slap_accepted a tgt s pa :
  players s !! a = Some pa -> alive pa = true -> 20 <= gas pa ->
  on_slap a tgt s
  = mkServer (slap_roster a tgt (players s)) (nextId s)
             (broadcasts s ++ slap_events a tgt (players s)).
Proof.
  intros Ha Hal Hgas. unfold on_slap. rewrite Ha, Hal.
  destruct (Z.ltb_spec (gas pa) 20); [lia|]. cbn [negb orb].
  rewrite charged_roster. unfold slap_events, slap_roster, hit_target.
  set (m1 := alter charged a (players s)).
  assert (H1 : m1 !! a = Some (charged pa)).
  { subst m1. now rewrite lookup_alter_eq, Ha. }
  cbn [players]. rewrite H1.
  destruct tgt as [t|].
  - destruct (m1 !! t) as [pt|] eqn:Ht.
    + destruct (alive pt && in_slap_range pt (charged pa)) eqn:Hhit.
      * rewrite (resolve_hit_eq a t _ pt) by exact Ht. cbn [players nextId broadcasts broadcast].
        destruct (alter (rewarded (lethal pt)) a (alter struck t m1) !! a) as [p|] eqn:Hp.
        -- unfold broadcast. cbn [players nextId broadcasts]. f_equal.
           now rewrite <- !app_assoc.
        -- now rewrite app_nil_r.
      * cbn [players]. rewrite H1. reflexivity.
    + cbn [players]. rewrite H1. reflexivity.
  - cbn [players]. rewrite H1. reflexivity.
Qed.












Lemma nextId_on_message k m s : nextId (on_message k m s) = nextId s.
Proof.
  destruct m as [vx vy|tgt|n]; cbn [on_message].
  - unfold on_move. destruct (players s !! k) as [pk|]; [|reflexivity].
    destruct (alive pk); reflexivity.
  - destruct (players s !! k) as [pa|] eqn:Ha.
    2:{ rewrite on_slap_rejected; [reflexivity|]. intros pa Hpa. congruence. }
    destruct (alive pa) eqn:Hal.
    2:{ rewrite on_slap_rejected; [reflexivity|]. intros q Hq. left. congruence. }
    destruct (Z.ltb_spec (gas pa) 20) as [Hlow|Hgas].
    { rewrite on_slap_rejected; [reflexivity|]. intros q Hq. right. congruence. }
    now rewrite (on_slap_accepted k tgt s pa Ha Hal Hgas).
  - destruct (String.eqb n ""); reflexivity.
Qed.





Lemma alive_recharge p : alive (recharge p) = alive p.
Proof. unfold recharge. destruct (alive p) eqn:E; [cbn|]; now rewrite ?E. Qed.

Lemma activePlayers_recharge m : activePlayers (recharge <$> m) = activePlayers m.
Proof.
  unfold activePlayers. rewrite map_filter_fmap, map_size_fmap. f_equal.
  apply map_filter_ext. intros i p _. cbn. now rewrite alive_recharge.
Qed.


Lemma iter_recharge n p :
  gas p <= 100 ->
  Nat.iter n recharge p
  = if alive p then set_gas (Z.min 100 (gas p + 8 * Z.of_nat n)) p else p.
Proof.
  intros Hg. induction n as [|n IH].
  - change (Nat.iter 0 recharge p) with p. destruct (alive p); [|reflexivity].
    destruct p; unfold set_gas;
      cbn [Arena.id x y health gas alive score combo name] in *. f_equal. lia.
  - rewrite Nat.iter_succ, IH. unfold recharge at 1.
    destruct (alive p) eqn:Hal; [|now rewrite Hal].
    unfold set_gas; cbn [Arena.id x y health gas alive score combo name].
    rewrite Hal. f_equal. lia.
Qed.

Lemma ticks_lookup n w k :
  players (arena (ticks n w)) !! k = Nat.iter n recharge <$> players (arena w) !! k.
Proof.
  induction n as [|n IH].
  - cbn. now destruct (players (arena w) !! k).
  - unfold ticks in *. rewrite Nat.iter_succ. unfold tick at 1. cbn [arena players].
    rewrite lookup_fmap, IH. now destruct (players (arena w) !! k).
Qed.

(** X12: over [n] ticks of the game loop with nothing else happening, an
    alive player's gas rises by 8 per tick up to 100 and nothing else about
    it changes; a dead player is left as it is. *)
Theorem gas_recharges_over_ticks (w : World) (n : nat) (k : Z) (p : Player) :
  players (arena w) !! k = Some p ->
  gas p <= 100 ->
  players (arena (ticks n w)) !! k
  = Some (if alive p then set_gas (Z.min 100 (gas p + 8 * Z.of_nat n)) p else p).
Proof.
  intros Hp Hg. rewrite ticks_lookup, Hp. cbn. f_equal. now apply iter_recharge.
Qed.

Lemma gas_recharges_over_ticks_witness :
  players (arena (ticks 2 (step (Receive 1 (slap (Some 2))) skirmish))) !! 1
  = Some (mkPlayer 1 100 100 100 96 true 110 2 None).
Proof.
  apply (gas_recharges_over_ticks (step (Receive 1 (slap (Some 2))) skirmish) 2 1
           (mkPlayer 1 100 100 100 80 true 110 2 None)).
  - reflexivity.
  - cbn. lia.
Defined.




Lemma broadcasts_since_self s : broadcasts_since s s = [].
Proof. unfold broadcasts_since. now rewrite drop_all. Qed.


Lemma handle_unchanged f w : f (arena w) = arena w -> handle f w = w.
Proof.
  intros H. unfold handle. rewrite H, broadcasts_since_self. cbn [map].
  rewrite app_nil_r. now destruct w.
Qed.


Lemma all_alive_active m :
  (forall k p, m !! k = Some p -> alive p = true) -> activePlayers m = size m.
Proof.
  intros H. unfold activePlayers. f_equal. apply map_filter_id.
  intros i p Hp. cbn. now apply (H i).
Qed.

(** X14: when a reset timer fires, every player of the roster - and nobody
    else - starts over at the position drawn for it with health 100, gas
    100, alive, score 0 and combo 1, keeping its id and name; the new roster
    is broadcast as [gameReset]; one timer less is pending; and since
    everybody is alive again, the tick that follows arms no new reset. *)
Theorem reset_starts_a_fresh_round (w : World) (spawn : Z -> Q * Q) (k : Z) :
  let w' := step (Reset spawn) w in
  players (arena w') !! k = reset_player (spawn k) <$> players (arena w) !! k /\
  nextId (arena w') = nextId (arena w) /\
  sent w' = sent w ++ [gameReset (players (arena w'))] /\
  resetTimers w' = Nat.pred (resetTimers w) /\
  lone_survivor (players (arena w')) = false /\
  resetTimers (tick w') = resetTimers w'.
Proof.
  intros w'. subst w'. cbn [step resetGame arena players nextId sent resetTimers].
  set (m' := map_imap _ _).
  assert (Hl : forall j, m' !! j = reset_player (spawn j) <$> players (arena w) !! j).
  { intros j. subst m'. rewrite map_lookup_imap. now destruct (players (arena w) !! j). }
  assert (Hlone : lone_survivor m' = false).
  { unfold lone_survivor. rewrite all_alive_active.
    - destruct (size m') as [|[|n]]; reflexivity.
    - intros j p. rewrite Hl. destruct (players (arena w) !! j); [|discriminate].
      now intros [= <-]. }
  split; [apply Hl|]. split; [reflexivity|]. split; [reflexivity|]. split; [reflexivity|].
  split; [exact Hlone|].
  unfold tick. cbn [resetTimers arena players].
  rewrite activePlayers_recharge, map_size_fmap.
  fold (lone_survivor m'). now rewrite Hlone.
Qed.

(** X15: a [move] or [slap] from a player that is dead or no longer in the
    roster, and a [slap] from a player with less than 20 gas, is dropped:
    the roster, the id counter, the broadcasts and the timers stay as they
    were. *)
Theorem dropped_message_changes_nothing (w : World) (k : Z) (m : Message) :
  (forall n, m <> updateProfile n) ->
  (forall p, players (arena w) !! k = Some p ->
     alive p = false \/ (gas p < 20 /\ exists t, m = slap t)) ->
  step (Receive k m) w = w.
Proof.
  intros Hm H. cbn [step]. apply handle_unchanged.
  destruct m as [vx vy|tgt|n]; cbn [on_message].
  - unfold on_move. destruct (players (arena w) !! k) as [p|]; [|reflexivity].
    destruct (H p eq_refl) as [->|(_ & t & Ht)]; [reflexivity | discriminate].
  - apply on_slap_rejected. intros p Hp.
    destruct (H p Hp) as [?|[? _]]; [now left | now right].
  - now destruct (Hm n).
Qed.

Lemma dropped_message_changes_nothing_witness :
  step (Receive 2 (move 0 0)) knockout = knockout.
Proof.
  apply (dropped_message_changes_nothing knockout 2 (move 0 0)).
  - discriminate.
  - intros p Hp. left.
    assert (Hk : players (arena knockout) !! 2
                 = Some (mkPlayer 2 130 100 0 100 false 0 1 None)) by reflexivity.
    rewrite Hk in Hp. now injection Hp as <-.
Defined.





Lemma same_but_name_refl p : Multiplayer.same_but_name p p.
Proof. unfold Multiplayer.same_but_name. tauto. Qed.

Lemma mirrors_refl m : Multiplayer.mirrors m m.
Proof.
  intros k. destruct (m !! k); constructor. apply same_but_name_refl.
Qed.


Lemma sent_since_app w s l n : sent_since w (mkWorld s (sent w ++ l) n) = l.
Proof. unfold sent_since. cbn [sent]. apply drop_app_length. Qed.










Lemma union_covers (m v : gmap Z Player) :
  (forall k, m !! k = None -> v !! k = None) -> m ∪ v = m.
Proof.
  intros H. apply map_eq. intros k. rewrite lookup_union.
  destruct (m !! k) as [p|] eqn:E.
  - now destruct (v !! k).
  - now rewrite (H k E).
Qed.

Lemma mirrors_None v m k : Multiplayer.mirrors v m -> m !! k = None -> v !! k = None.
Proof.
  intros Hm Hk. pose proof (Hm k) as H. rewrite Hk in H. now inversion H.
Qed.







(** X19: a tick that finds somebody alive brings the copy of such a client
    in line with the roster in every field, names included. *)
Theorem tick_resynchronises_the_client (w : World) (c : Multiplayer.Client) :
  Multiplayer.mirrors (Multiplayer.players c) (players (arena w)) ->
  (0 < activePlayers (players (arena w)))%nat ->
  Multiplayer.players (Multiplayer.receive c (sent_since w (tick w)))
  = players (arena (tick w)).
Proof.
  intros Hm Hact. unfold tick. rewrite activePlayers_recharge.
  destruct (Nat.ltb_spec 0 (activePlayers (players (arena w)))); [|lia].
  rewrite sent_since_app. cbn. apply union_covers.
  intros j. rewrite lookup_fmap. destruct (players (arena w) !! j) eqn:E; [discriminate|].
  intros _. now apply (mirrors_None _ _ _ Hm).
Qed.

Lemma tick_resynchronises_the_client_witness :
  Multiplayer.players
    (Multiplayer.receive (Multiplayer.mkClient (Some 1) (players (arena skirmish)))
       (sent_since skirmish (tick skirmish)))
  = players (arena (tick skirmish)).
Proof.
  apply (tick_resynchronises_the_client skirmish
           (Multiplayer.mkClient (Some 1) (players (arena skirmish)))).
  - apply mirrors_refl.
  - vm_compute. lia.
Defined.

Lemma slap_roster_None a tgt m k : m !! k = None -> slap_roster a tgt m !! k = None.
Proof.
  intros Hk. unfold slap_roster.
  destruct (hit_target a tgt m) as [[t pt]|]; rewrite !lookup_alter;
    repeat case_decide; subst; now rewrite ?Hk.
Qed.

Lemma step_keeps_out st w k :
  players (arena w) !! k = None /\ k < nextId (arena w) ->
  players (arena (step st w)) !! k = None /\ k < nextId (arena (step st w)).
Proof.
  intros [Hk Hn]. destruct st as [vx vy|j m|j|j| |spawn]; cbn [step handle arena].
  - unfold on_connection. cbn [snd players nextId broadcast].
    rewrite lookup_insert_ne by lia. split; [exact Hk | lia].
  - rewrite nextId_on_message. split; [|exact Hn].
    destruct m as [vx vy|tgt|n]; cbn [on_message].
    + unfold on_move. destruct (players (arena w) !! j) as [pj|]; [|exact Hk].
      destruct (alive pj); [|exact Hk]. cbn [negb players broadcast modify].
      rewrite lookup_alter. case_decide; subst; now rewrite Hk.
    + destruct (players (arena w) !! j) as [pa|] eqn:Ha.
      2:{ rewrite on_slap_rejected; [exact Hk|]. intros pa Hpa. congruence. }
      destruct (alive pa) eqn:Hal.
      2:{ rewrite on_slap_rejected; [exact Hk|]. intros q Hq. left. congruence. }
      destruct (Z.ltb_spec (gas pa) 20) as [Hlow|Hgas].
      { rewrite on_slap_rejected; [exact Hk|]. intros q Hq. right. congruence. }
      rewrite (on_slap_accepted j tgt (arena w) pa Ha Hal Hgas). cbn [players].
      now apply slap_roster_None.
    + destruct (String.eqb n ""); [exact Hk|]. cbn [players modify].
      rewrite lookup_alter. case_decide; subst; now rewrite Hk.
  - unfold on_error. destruct (players (arena w) !! j); [|now split].
    cbn [on_close players nextId broadcast]. split; [|exact Hn].
    rewrite lookup_delete. now case_decide.
  - cbn [on_close players nextId broadcast]. split; [|exact Hn].
    rewrite lookup_delete. now case_decide.
  - unfold tick. cbn [arena players nextId]. split; [|exact Hn].
    now rewrite lookup_fmap, Hk.
  - unfold resetGame. cbn [arena players nextId]. split; [|exact Hn].
    now rewrite map_lookup_imap, Hk.
Qed.

(** X20: ids are not reused.  Once the connection of player [k] has closed,
    no later connection, message, tick or reset puts a player under [k]
    again: a new connection always gets the next id, which only grows. *)
Theorem closed_id_is_not_reused (w : World) (k : Z) (sts : list Step) :
  k < nextId (arena w) ->
  players (arena (steps sts (step (Close k) w))) !! k = None.
Proof.
  intros Hk.
  assert (H0 : players (arena (step (Close k) w)) !! k = None /\
               k < nextId (arena (step (Close k) w))).
  { cbn [step handle arena on_close players nextId broadcast].
    split; [apply lookup_delete_eq | exact Hk]. }
  revert H0. generalize (step (Close k) w). clear Hk.
  induction sts as [|st sts IH]; intros w' H0; [apply H0|].
  change (steps (st :: sts) w') with (steps sts (step st w')).
  apply IH. now apply step_keeps_out.
Qed.

Lemma closed_id_is_not_reused_witness :
  players (arena (steps [Connect 60 60; Tick] (step (Close 1) skirmish))) !! 1 = None.
Proof.
  apply (closed_id_is_not_reused skirmish 1 [Connect 60 60; Tick]).
  vm_compute. reflexivity.
Defined.

End ArenaLoopFacts.

(** ** Where a stable sort puts the element appended last *)
Section SortPlacement.
Context {A : Type} (before : A -> A -> bool).
Hypothesis before_trans :
  forall a b c, before a b = true -> before b c = true -> before a c = true.

Lemma insert_sorted_stops x y l1 l2 :
  before y x = true ->
  insert_sorted before y (l1 ++ x :: l2) = insert_sorted before y l1 ++ x :: l2.
Proof.
  intros Hyx. induction l1 as [|z l1 IH]; cbn [app insert_sorted].
  - now rewrite Hyx.
  - destruct (before y z); [reflexivity|]. now rewrite IH.
Qed.

Lemma insert_sorted_passes x y l1 l2 :
  (forall z, z ∈ l1 -> before y z = false) -> before y x = false ->
  insert_sorted before y (l1 ++ x :: l2) = l1 ++ x :: insert_sorted before y l2.
Proof.
  intros Hl1 Hyx. induction l1 as [|z l1 IH]; cbn [app insert_sorted].
  - now rewrite Hyx.
  - rewrite (Hl1 z) by left. rewrite IH; [reflexivity|].
    intros z' Hz'. apply Hl1. now right.
Qed.

(** The element appended last ends up behind exactly the elements that the
    comparator does not put after it. *)
Lemma stable_sort_snoc l x :
  stable_sort before (l ++ [x])
  = stable_sort before (List.filter (fun y => before y x) l)
    ++ x :: stable_sort before (List.filter (fun y => negb (before y x)) l).
Proof.
  induction l as [|a l IH]; [reflexivity|].
  change (stable_sort before ((a :: l) ++ [x]))
    with (insert_sorted before a (stable_sort before (l ++ [x]))).
  rewrite IH. cbn [List.filter].
  destruct (before a x) eqn:Hax; cbn [negb].
  - now rewrite insert_sorted_stops.
  - rewrite insert_sorted_passes; [reflexivity| |exact Hax].
    intros z Hz. rewrite stable_sort_perm in Hz.
    apply list_elem_of_In, filter_In in Hz as [_ Hzx].
    destruct (before a z) eqn:Haz; [|reflexivity].
    rewrite (before_trans a z x Haz Hzx) in Hax. discriminate.
Qed.

End SortPlacement.

(** ** The leaderboard: rank after an update, grouping before a sync *)
Section RankFacts.
Import Leaderboard LeaderboardApi.

Lemma findIndex_none {A : Type} (p : A -> bool) (l : list A) :
  (forall z, z ∈ l -> p z = false) -> findIndex p l = None.
Proof.
  induction l as [|a l IH]; intros H; [reflexivity|]. cbn [findIndex].
  rewrite (H a) by left. rewrite IH; [reflexivity|]. intros z Hz. apply H. now right.
Qed.

Lemma findIndex_skip {A : Type} (p : A -> bool) (l1 l2 : list A) x :
  (forall z, z ∈ l1 -> p z = false) -> p x = true ->
  findIndex p (l1 ++ x :: l2) = Some (length l1).
Proof.
  induction l1 as [|a l1 IH]; intros H Hx; cbn [app findIndex length].
  - now rewrite Hx.
  - rewrite (H a) by left. rewrite IH; [reflexivity| |exact Hx].
    intros z Hz. apply H. now right.
Qed.

Lemma filter_filter_length {A : Type} (p q : A -> bool) (l : list A) :
  length (List.filter q (List.filter p l)) = length (List.filter (fun a => p a && q a) l).
Proof.
  induction l as [|a l IH]; [reflexivity|]. cbn [List.filter].
  destruct (p a); cbn [andb List.filter]; [|exact IH].
  destruct (q a); cbn [length]; now rewrite IH.
Qed.

(** The board after an update, with the place of the new entry made
    explicit. *)
Lemma updateLeaderboard_placement sanitize user score0 now sessionId syncId inTelegram b :
  (0 <= score0)%Q ->
  let entry := playerEntry sanitize user score0 now sessionId in
  let b' := updateLeaderboard sanitize (Some user) score0 now sessionId syncId inTelegram b in
  exists l1 l2,
    leaderboard b' = take MAX_LEADERBOARD_SIZE (l1 ++ entry :: l2) /\
    length l1 = ahead_of (id entry) (Qfloor score0) (leaderboard b) /\
    l1 ++ l2 ≡ₚ List.filter (fun e => negb (String.eqb (id e) (id entry))) (leaderboard b).
Proof.
  intros Hs entry b'.
  pose proof (updateLeaderboard_unfold sanitize user score0 now sessionId syncId inTelegram b Hs)
    as Hu.
  cbv zeta in Hu. fold entry in Hu. subst b'. rewrite Hu.
  cbn [leaderboard]. clear Hu.
  set (others := List.filter _ (leaderboard b)).
  unfold sortByScore. rewrite (stable_sort_snoc scoreBefore scoreBefore_trans).
  eexists _, _. split; [reflexivity|]. split.
  - rewrite stable_sort_length. subst others. rewrite filter_filter_length.
    unfold ahead_of. f_equal. apply filter_ext. intros e. f_equal.
    unfold scoreBefore. subst entry. cbn [score playerEntry].
    destruct (Z.leb_spec (Qfloor score0 - score e) 0), (Z.leb_spec (Qfloor score0) (score e));
      (reflexivity || lia).
  - rewrite !stable_sort_perm.
    clear. induction others as [|a l IH]; [reflexivity|]. cbn [List.filter].
    destruct (scoreBefore a entry); cbn [negb app]; [now rewrite IH|].
    rewrite <- Permutation_middle. now rewrite IH.
Qed.

Lemma others_lack_id (k : string) (l l' : list Entry) z :
  l' ≡ₚ List.filter (fun e => negb (String.eqb (id e) k)) l ->
  z ∈ l' -> String.eqb (id z) k = false /\ z ∈ l.
Proof.
  intros Hp Hz. rewrite Hp in Hz. apply list_elem_of_In, filter_In in Hz as [Hin Hne].
  split; [now apply negb_true_iff | now apply list_elem_of_In].
Qed.

(** X21: after [updateLeaderboard] the player stands right behind everybody
    else whose score is at least the new one - on equal scores the entries
    already on the board stay ahead: with [ahead] such players, the new
    entry sits at index [ahead] and [getPlayerRank] returns [ahead + 1];
    when 100 or more players are ahead the update leaves the player off the
    board and the rank is [null].  The entry is among the 50 shown by
    [getLeaderboard] exactly when fewer than 50 are ahead. *)
Theorem rank_after_update (sanitize : string -> string) (user : User) (score0 : Q)
    (now : Z) (sessionId syncId : string) (inTelegram : bool) (b : Board) :
  (0 <= score0)%Q ->
  let entry := playerEntry sanitize user score0 now sessionId in
  let b' := updateLeaderboard sanitize (Some user) score0 now sessionId syncId inTelegram b in
  let ahead := ahead_of (id entry) (Qfloor score0) (leaderboard b) in
  getPlayerRank (id entry) (leaderboard b')
  = (if (ahead <? MAX_LEADERBOARD_SIZE)%nat then Some (S ahead) else None) /\
  ((ahead < MAX_LEADERBOARD_SIZE)%nat -> leaderboard b' !! ahead = Some entry) /\
  ((ahead < 50)%nat -> getLeaderboard (leaderboard b') !! ahead = Some entry) /\
  ((50 <= ahead)%nat ->
     getPlayerRank (id entry) (getLeaderboard (leaderboard b')) = None).
Proof.
  intros Hs entry b' ahead.
  destruct (updateLeaderboard_placement sanitize user score0 now sessionId syncId inTelegram b Hs)
    as (l1 & l2 & Hb & Hlen & Hperm).
  fold entry in Hb, Hlen, Hperm. fold b' in Hb. fold ahead in Hlen.
  assert (Hl1 : forall z, z ∈ l1 -> String.eqb (id z) (id entry) = false).
  { intros z Hz. eapply others_lack_id; [exact Hperm|]. apply elem_of_app. now left. }
  assert (Hat : forall n, (ahead < n)%nat -> take n (l1 ++ entry :: l2) !! ahead = Some entry).
  { intros n Hn. rewrite lookup_take_lt by exact Hn.
    rewrite lookup_app_r by lia. now rewrite Hlen, Nat.sub_diag. }
  assert (Hnone : forall n, (n <= ahead)%nat ->
            findIndex (fun e => String.eqb (id e) (id entry)) (take n (l1 ++ entry :: l2))
            = None).
  { intros n Hn. rewrite take_app_le by lia. apply findIndex_none.
    intros z Hz. apply Hl1. eapply elem_of_sublist; [exact Hz | apply sublist_take]. }
  rewrite Hb. unfold getPlayerRank, getLeaderboard.
  split; [|split; [|split]].
  - destruct (Nat.ltb_spec ahead MAX_LEADERBOARD_SIZE) as [Hlt|Hge].
    + rewrite take_app_ge by lia.
      replace (MAX_LEADERBOARD_SIZE - length l1)%nat
        with (S (MAX_LEADERBOARD_SIZE - length l1 - 1)) by lia.
      cbn [take]. rewrite findIndex_skip; [now rewrite Hlen | exact Hl1 | apply String.eqb_refl].
    + now rewrite Hnone.
  - apply Hat.
  - intros H50. rewrite take_take. apply Hat. unfold MAX_LEADERBOARD_SIZE. lia.
  - intros H50. rewrite take_take.
    replace (50 `min` MAX_LEADERBOARD_SIZE)%nat with 50%nat by reflexivity.
    now rewrite Hnone.
Qed.

Lemma rank_after_update_witness :
  getPlayerRank "42"
    (leaderboard (updateLeaderboard plainText (Some ann) 200 5000 "sess" "sync_1" true board0))
  = Some 3%nat.
Proof.
  exact (proj1 (rank_after_update plainText ann 200 5000 "sess" "sync_1" true board0
                  ltac:(unfold Qle; cbn; lia))).
Defined.

(** X22: an update touches nobody else's entry: every entry of the board
    afterwards is the new entry or an entry that was on the board under
    another id, each as often as before at most; so a board with one entry
    per id stays one, and the player's id is on it at most once whatever
    the board was. *)
Theorem update_keeps_one_entry_per_player (sanitize : string -> string) (user : User)
    (score0 : Q) (now : Z) (sessionId syncId : string) (inTelegram : bool) (b : Board) :
  (0 <= score0)%Q ->
  let entry := playerEntry sanitize user score0 now sessionId in
  let b' := updateLeaderboard sanitize (Some user) score0 now sessionId syncId inTelegram b in
  (forall e, e ∈ leaderboard b' -> e = entry \/ (e ∈ leaderboard b /\ id e <> id entry)) /\
  (length (List.filter (fun e => String.eqb (id e) (id entry)) (leaderboard b')) <= 1)%nat /\
  (NoDup (ids (leaderboard b)) -> NoDup (ids (leaderboard b'))).
Proof.
  intros Hs entry b'.
  destruct (updateLeaderboard_placement sanitize user score0 now sessionId syncId inTelegram b Hs)
    as (l1 & l2 & Hb & _ & Hperm).
  fold entry in Hb, Hperm. fold b' in Hb.
  set (others := List.filter _ (leaderboard b)) in Hperm.
  assert (Hfull : l1 ++ entry :: l2 ≡ₚ entry :: others).
  { rewrite <- Permutation_middle. now rewrite Hperm. }
  assert (Hsub : leaderboard b' `sublist_of` l1 ++ entry :: l2).
  { rewrite Hb. apply sublist_take. }
  assert (Hothers : forall z, z ∈ others -> String.eqb (id z) (id entry) = false /\
                                             z ∈ leaderboard b).
  { intros z Hz. now apply (others_lack_id (id entry) (leaderboard b) others). }
  split; [|split].
  - intros e He. eapply elem_of_sublist in He; [|exact Hsub].
    rewrite Hfull in He. apply elem_of_cons in He as [->|He]; [now left|]. right.
    destruct (Hothers e He) as [Hne Hin]. split; [exact Hin|].
    now apply String.eqb_neq.
  - transitivity (length (List.filter (fun e => String.eqb (id e) (id entry))
                            (l1 ++ entry :: l2))).
    + apply sublist_length. clear -Hsub.
      induction Hsub as [|x l l' _ IH|x l l' _ IH]; cbn [List.filter].
      * constructor.
      * destruct (String.eqb (id x) (id entry)); [now apply sublist_skip | exact IH].
      * destruct (String.eqb (id x) (id entry)); [now apply sublist_cons | exact IH].
    + assert (Hcount : forall l l' : list Entry, l ≡ₚ l' ->
                length (List.filter (fun e => String.eqb (id e) (id entry)) l)
                = length (List.filter (fun e => String.eqb (id e) (id entry)) l')).
      { intros l l' Hp. induction Hp as [|x l l' _ IH|x y l|l l' l'' _ IH1 _ IH2];
          cbn [List.filter].
        - reflexivity.
        - destruct (String.eqb (id x) (id entry)); cbn [length]; now rewrite IH.
        - destruct (String.eqb (id x) (id entry)), (String.eqb (id y) (id entry)); reflexivity.
        - now rewrite IH1. }
      rewrite (Hcount _ _ Hfull). cbn [List.filter]. rewrite String.eqb_refl. cbn [length].
      assert (H0 : List.filter (fun e => String.eqb (id e) (id entry)) others = []).
      { clear -Hothers. induction others as [|z l IH]; [reflexivity|]. cbn [List.filter].
        rewrite (proj1 (Hothers z ltac:(left))). apply IH.
        intros z' Hz'. apply Hothers. now right. }
      now rewrite H0.
  - intros Hnd. unfold ids in *. change (map id ?l) with (id <$> l) in *.
    eapply sublist_NoDup; [|apply fmap_sublist, Hsub].
    rewrite Hfull. rewrite fmap_cons. apply NoDup_cons. split.
    + intros Hin. apply list_elem_of_fmap in Hin as (z & Hid & Hz).
      destruct (Hothers z Hz) as [Hne _]. apply String.eqb_neq in Hne. congruence.
    + eapply sublist_NoDup; [exact Hnd|]. apply fmap_sublist. subst others.
      clear. induction (leaderboard b) as [|x l IH]; cbn [List.filter]; [constructor|].
      destruct (negb _); [now apply sublist_skip | now apply sublist_cons].
Qed.

Lemma update_keeps_one_entry_per_player_witness :
  NoDup (ids (leaderboard
                (updateLeaderboard plainText (Some ann) 200 5000 "sess" "sync_1" true board0))).
Proof.
  apply (update_keeps_one_entry_per_player plainText ann 200 5000 "sess" "sync_1" true board0
           ltac:(unfold Qle; cbn; lia)).
  compute_done.
Defined.

Lemma map_set_length k v m : (length (map_set k v m) <= S (length m))%nat.
Proof.
  induction m as [|[k' v'] m IH]; cbn [map_set length]; [lia|].
  destruct (String.eqb k' k); cbn [length]; lia.
Qed.

Lemma latestScores_spec (items : list (SyncQueue.Item Entry)) :
  let latest := latestScores items in
  NoDup (map fst latest) /\
  keyed latest /\
  (length latest <= length items)%nat /\
  (forall k v, (k, v) ∈ latest -> exists item, item ∈ items /\ SyncQueue.data item = v) /\
  (forall item, item ∈ items ->
     exists v, map_get (id (SyncQueue.data item)) latest = Some v /\
               timestamp (SyncQueue.data item) <= timestamp v).
Proof.
  induction items as [|x l IH] using rev_ind.
  - cbn. repeat split; try constructor; try lia.
    + intros k v H. now apply elem_of_nil in H.
    + intros item H. now apply elem_of_nil in H.
  - cbv zeta in *. destruct IH as (Hnd & Hk & Hlen & Hfrom & Hlatest).
    unfold latestScores in *. rewrite fold_left_app. cbn [fold_left].
    set (m := fold_left _ l []) in *.
    set (d := SyncQueue.data x).
    assert (Hset : NoDup (map fst (map_set (id d) d m)) /\ keyed (map_set (id d) d m) /\
                   (length (map_set (id d) d m) <= length (l ++ [x]))%nat /\
                   (forall k v, (k, v) ∈ map_set (id d) d m ->
                      exists item, item ∈ l ++ [x] /\ SyncQueue.data item = v)).
    { split; [now apply map_set_NoDup|]. split; [now apply map_set_keyed|].
      split; [pose proof (map_set_length (id d) d m); rewrite length_app; cbn; lia|].
      intros k v Hin. apply elem_of_map_get in Hin; [|now apply map_set_NoDup].
      rewrite map_get_set in Hin. destruct (String.eqb (id d) k).
      - injection Hin as <-. exists x. split; [apply elem_of_app; right; left | reflexivity].
      - apply elem_of_map_get in Hin; [|exact Hnd].
        destruct (Hfrom k v Hin) as (item & Hi & Hd). exists item.
        split; [apply elem_of_app; now left | exact Hd]. }
    assert (Hkeep : (length m <= length (l ++ [x]))%nat /\
                    (forall k v, (k, v) ∈ m ->
                       exists item, item ∈ l ++ [x] /\ SyncQueue.data item = v)).
    { split; [rewrite length_app; cbn; lia|]. intros k v Hin.
      destruct (Hfrom k v Hin) as (item & Hi & Hd). exists item.
      split; [apply elem_of_app; now left | exact Hd]. }
    destruct Hset as (Hs1 & Hs2 & Hs3 & Hs4). destruct Hkeep as (Hk3 & Hk4).
    destruct (map_get (id d) m) as [known|] eqn:Hget.
    + destruct (Z.ltb_spec (timestamp known) (timestamp d)) as [Hnew|Hold].
      * split; [exact Hs1|]. split; [exact Hs2|]. split; [exact Hs3|]. split; [exact Hs4|].
        intros item Hin. rewrite map_get_set.
        apply elem_of_app in Hin as [Hin|Hin].
        -- destruct (Hlatest item Hin) as (v & Hv & Hts).
           destruct (String.eqb_spec (id d) (id (SyncQueue.data item))) as [He|_].
           ++ exists d. split; [reflexivity|]. rewrite <- He, Hget in Hv.
              injection Hv as <-. lia.
           ++ now exists v.
        -- apply list_elem_of_singleton in Hin as ->. fold d. rewrite String.eqb_refl.
           exists d. split; [reflexivity | lia].
      * split; [exact Hnd|]. split; [exact Hk|]. split; [exact Hk3|]. split; [exact Hk4|].
        intros item Hin. apply elem_of_app in Hin as [Hin|Hin]; [now apply Hlatest|].
        apply list_elem_of_singleton in Hin as ->. fold d. exists known. split; [exact Hget | lia].
    + split; [exact Hs1|]. split; [exact Hs2|]. split; [exact Hs3|]. split; [exact Hs4|].
      intros item Hin. rewrite map_get_set.
      apply elem_of_app in Hin as [Hin|Hin].
      * destruct (Hlatest item Hin) as (v & Hv & Hts).
        destruct (String.eqb_spec (id d) (id (SyncQueue.data item))) as [He|_].
        -- rewrite <- He, Hget in Hv. discriminate.
        -- now exists v.
      * apply list_elem_of_singleton in Hin as ->. fold d. rewrite String.eqb_refl.
        exists d. split; [reflexivity | lia].
Qed.

(** X23: before a sync, [syncLeaderboard] takes the queued items of type
    leaderboard_update and groups them by player: the grouping holds one
    score per player id, each taken from a queued update of that player,
    and it is the latest one - no queued update of the player carries a
    later timestamp. *)
Theorem latest_score_per_player (syncQueue : list (SyncQueue.Item Entry)) :
  let items := leaderboardItems syncQueue in
  let latest := latestScores items in
  (forall item, item ∈ items <->
     item ∈ syncQueue /\ SyncQueue.type item = "leaderboard_update") /\
  NoDup (map fst latest) /\
  keyed latest /\
  (length latest <= length items)%nat /\
  (forall k v, (k, v) ∈ latest -> exists item, item ∈ items /\ SyncQueue.data item = v) /\
  (forall item, item ∈ items ->
     exists v, map_get (id (SyncQueue.data item)) latest = Some v /\
               timestamp (SyncQueue.data item) <= timestamp v).
Proof.
  intros items latest. split; [|apply latestScores_spec].
  intros item. subst items. unfold leaderboardItems.
  rewrite list_elem_of_In, filter_In, <- list_elem_of_In.
  now rewrite String.eqb_eq.
Qed.

End RankFacts.

(** ** The sync queue: invariants of a session, round trips, drains *)
Section QueueSessionFacts.
Import SyncQueue QueueSession.
Context {D : Type}.
Implicit Types (q : list (Item D)) (st : Persistence D) (it : Item D).





Lemma same_id_same_item q x y :
  NoDup (ids q) -> x ∈ q -> y ∈ q -> id x = id y -> x = y.
Proof.
  induction q as [|a q IH]; intros Hnd Hx Hy Hid; [now apply elem_of_nil in Hx|].
  cbn [ids map] in Hnd. apply NoDup_cons in Hnd as [Ha Hnd]. fold (ids q) in Ha, Hnd.
  apply elem_of_cons in Hx as [->|Hx]; apply elem_of_cons in Hy as [->|Hy].
  - reflexivity.
  - exfalso. apply Ha. rewrite Hid. now apply elem_of_ids.
  - exfalso. apply Ha. rewrite <- Hid. now apply elem_of_ids.
  - now apply IH.
Qed.



Lemma remove_by_id_middle (q1 q2 : list (Item D)) x :
  id x ∉ ids q1 -> remove_by_id (id x) (q1 ++ x :: q2) = q1 ++ q2.
Proof.
  induction q1 as [|a q1 IH]; cbn [app remove_by_id ids map]; intros Hx.
  - now rewrite String.eqb_refl.
  - apply not_elem_of_cons in Hx as [Hne Hx].
    destruct (String.eqb_spec (id a) (id x)); [congruence|]. now rewrite IH.
Qed.



Lemma itemsToSync_ready now st x :
  x ∈ itemsToSync now st <-> x ∈ syncQueue st /\ readyForSync now x = true.
Proof.
  unfold itemsToSync. rewrite list_elem_of_In, filter_In, <- list_elem_of_In. reflexivity.
Qed.





Lemma filter_sublist {A : Type} (p : A -> bool) (l : list A) : List.filter p l `sublist_of` l.
Proof.
  induction l as [|a l IH]; cbn [List.filter]; [constructor|].
  destruct (p a); [now apply sublist_skip | now apply sublist_cons].
Qed.








Lemma not_due_iff now (x : Item D) : not_due now x <-> readyForSync now x = false.
Proof.
  unfold not_due, readyForSync. rewrite andb_false_iff, !Z.ltb_ge. reflexivity.
Qed.

(** X27: a drain leaves alone every item that is not due: an item whose
    attempts are used up, or that failed [k] times and was queued no more
    than [k] x 30 s ago, is in the queue after the drain exactly as it
    was. *)
Theorem items_not_due_are_left_alone (f : Item D -> Outcome) (now : Z)
    (st : Persistence D) (x : Item D) :
  NoDup (ids (syncQueue st)) ->
  x ∈ syncQueue st -> not_due now x ->
  x ∈ syncQueue (processSyncQueue f now st).
Proof.
  intros Hnd Hx Hdue. apply not_due_iff in Hdue.
  destruct (processSyncQueue_syncQueue f now st) as [->| ->]; [exact Hx|].
  apply settle_all_other; [exact Hx|]. intros Hin.
  unfold ids in Hin. change (map id ?l) with (id <$> l) in Hin.
  apply list_elem_of_fmap in Hin as (y & Hid & Hy).
  apply itemsToSync_ready in Hy as [Hyq Hyr].
  assert (x = y) by now apply (same_id_same_item (syncQueue st)).
  congruence.
Qed.

Lemma settle_all_successes f (P : Item D -> bool) q pre :
  NoDup (ids q) -> (forall y, y ∈ List.filter P q -> id y <> "" /\ id y ∉ ids pre) ->
  (forall y, y ∈ List.filter P q -> succeeded (f y) = true) ->
  settle_all f (List.filter P q) (pre ++ q) = pre ++ List.filter (fun y => negb (P y)) q.
Proof.
  revert pre. induction q as [|a q IH]; intros pre Hnd Hids Hok; [reflexivity|].
  cbn [ids map] in Hnd. apply NoDup_cons in Hnd as [Ha Hnd]. fold (ids q) in Ha, Hnd.
  cbn [List.filter] in *. destruct (P a) eqn:HPa; cbn [negb].
  - unfold settle_all. cbn [map fold_left]. fold (settle_all f (List.filter P q)).
    destruct (Hids a ltac:(left)) as [Hne Hpre].
    unfold settle_queue. destruct (String.eqb_spec (id a) ""); [congruence|].
    rewrite (Hok a) by left. rewrite remove_by_id_middle by exact Hpre.
    apply IH; [exact Hnd | |].
    + intros y Hy. apply Hids. now right.
    + intros y Hy. apply Hok. now right.
  - replace (pre ++ a :: q) with ((pre ++ [a]) ++ q) by now rewrite <- app_assoc.
    rewrite IH; [now rewrite <- app_assoc | exact Hnd | | exact Hok].
    intros y Hy. destruct (Hids y Hy) as [Hne Hpre]. split; [exact Hne|].
    unfold ids. rewrite map_app. cbn [map]. intros Hin.
    apply elem_of_app in Hin as [Hin|Hin]; [now apply Hpre|].
    apply list_elem_of_singleton in Hin. apply Ha. rewrite <- Hin. apply elem_of_ids.
    eapply elem_of_sublist; [exact Hy | apply filter_sublist].
Qed.

Lemma processSyncQueue_online f now st :
  onlineStatus st = true -> syncInProgress st = false ->
  syncQueue (processSyncQueue f now st)
  = settle_all (processSyncItem f) (itemsToSync now st) (syncQueue st).
Proof.
  intros Hon Hprog. unfold processSyncQueue. rewrite Hon, Hprog. cbn [orb negb].
  destruct (length (syncQueue st) =? 0)%nat eqn:E.
  - apply Nat.eqb_eq in E. unfold itemsToSync.
    destruct (syncQueue st); [reflexivity | discriminate].
  - cbn [syncQueue setInProgress]. now rewrite process_batches_syncQueue.
Qed.

(** X28: a drain in which every submission succeeds leaves exactly the
    items that were not due, in their order. *)
Theorem drain_with_all_successes (f : Item D -> Outcome) (now : Z) (st : Persistence D) :
  NoDup (ids (syncQueue st)) ->
  Forall (fun x => id x <> "") (syncQueue st) ->
  onlineStatus st = true -> syncInProgress st = false ->
  (forall x, x ∈ itemsToSync now st -> succeeded (processSyncItem f x) = true) ->
  syncQueue (processSyncQueue f now st)
  = List.filter (fun x => negb (readyForSync now x)) (syncQueue st).
Proof.
  intros Hnd Hids Hon Hprog Hok.
  rewrite (processSyncQueue_online f now st Hon Hprog).
  unfold itemsToSync in *.
  apply (settle_all_successes (processSyncItem f) (readyForSync now) (syncQueue st) []);
    [exact Hnd | | exact Hok].
  intros y Hy. split; [|apply not_elem_of_nil].
  rewrite Forall_forall in Hids. apply Hids.
  eapply elem_of_sublist; [exact Hy | apply filter_sublist].
Qed.

End QueueSessionFacts.

Section QueueSessionExamples.
Import SyncQueue QueueSession.



Lemma items_not_due_are_left_alone_witness :
  progressItem "sync_a" 0 4 ∈ syncQueue (processSyncQueue remoteDown 100000 twoItems).
Proof.
  apply (items_not_due_are_left_alone remoteDown 100000 twoItems (progressItem "sync_a" 0 4)).
  - compute_done.
  - left.
  - right. vm_compute. discriminate.
Defined.

Lemma drain_with_all_successes_witness :
  syncQueue (processSyncQueue (fun _ => Fulfilled true) 100000 twoItems)
  = [progressItem "sync_a" 0 4].
Proof.
  apply (drain_with_all_successes (fun _ => Fulfilled true) 100000 twoItems).
  - compute_done.
  - repeat constructor; discriminate.
  - reflexivity.
  - reflexivity.
  - intros x Hx.
    assert (Hsel : itemsToSync 100000 twoItems = [progressItem "sync_b" 10 0])
      by (vm_compute; reflexivity).
    rewrite Hsel in Hx. apply list_elem_of_singleton in Hx as ->. reflexivity.
Defined.


End QueueSessionExamples.

(** ** The request rate limiter *)
Section RateLimitFacts.
Import Security.

Lemma allowed_app identifier l1 l2 log :
  allowed identifier (l1 ++ l2) log
  = allowed identifier l1 log ++ allowed identifier l2 (after_calls identifier l1 log).
Proof.
  revert log. induction l1 as [|now l1 IH]; intros log; [reflexivity|].
  cbn [app allowed after_calls fold_left]. rewrite IH, <- app_assoc. reflexivity.
Qed.

Lemma after_calls_app identifier l1 l2 log :
  after_calls identifier (l1 ++ l2) log
  = after_calls identifier l2 (after_calls identifier l1 log).
Proof. unfold after_calls. apply fold_left_app. Qed.

Lemma filter_length_le {A : Type} (p q : A -> bool) (l : list A) :
  (forall a, p a = true -> q a = true) ->
  (length (List.filter p l) <= length (List.filter q l))%nat.
Proof.
  intros H. induction l as [|a l IH]; [reflexivity|]. cbn [List.filter].
  destruct (p a) eqn:Hp.
  - rewrite (H a Hp). cbn [length]. lia.
  - destruct (q a); cbn [length]; lia.
Qed.

Lemma filter_filter_implied {A : Type} (p q : A -> bool) (l : list A) :
  (forall a, p a = true -> q a = true) ->
  List.filter p (List.filter q l) = List.filter p l.
Proof.
  intros H. induction l as [|a l IH]; [reflexivity|]. cbn [List.filter].
  destruct (q a) eqn:Hq; cbn [List.filter]; [now rewrite IH|].
  destruct (p a) eqn:Hp; [|exact IH]. rewrite (H a Hp) in Hq. discriminate.
Qed.

(** What holds after the calls at [times], made on a clock that does not run
    backwards: from any later time on, the log and the list of allowed
    calls show the same requests within the window. *)
Lemma limiter_invariant identifier times :
  Sorted Z.le times ->
  let log := after_calls identifier times ∅ in
  let A := allowed identifier times ∅ in
  (forall now, Forall (fun t => t <= now) times ->
     List.filter (fun a => now - RATE_LIMIT_WINDOW <? a) (default [] (log !! identifier))
     = List.filter (fun a => now - RATE_LIMIT_WINDOW <? a) A) /\
  (forall t, (length (List.filter (in_window t) A) <= MAX_REQUESTS_PER_WINDOW)%nat) /\
  (length (default [] (log !! identifier)) <= MAX_REQUESTS_PER_WINDOW)%nat.
Proof.
  induction times as [|now l IH] using rev_ind; intros Hs.
  - cbv zeta. unfold after_calls. cbn [allowed fold_left]. rewrite lookup_empty.
    cbn [default List.filter length].
    split; [reflexivity|]. split; [intros _|]; unfold MAX_REQUESTS_PER_WINDOW; lia.
  - assert (Hl : Sorted Z.le l /\ Forall (fun t => t <= now) l).
    { clear IH. induction l as [|a l IHl]; [split; constructor|].
      cbn [app] in Hs. apply Sorted_inv in Hs as [Hs Hhd].
      destruct (IHl Hs) as [Hsl Hall]. split.
      - constructor; [exact Hsl|]. destruct l; [constructor|].
        apply HdRel_inv in Hhd. now constructor.
      - constructor; [|exact Hall]. destruct l as [|b l].
        + apply HdRel_inv in Hhd. exact Hhd.
        + apply HdRel_inv in Hhd. apply Forall_cons in Hall as [Hb _]. lia. }
    destruct Hl as [Hsl Hle]. specialize (IH Hsl). cbv zeta in IH |- *.
    destruct IH as (Hsame & Hwin & Hlen).
    rewrite after_calls_app, allowed_app.
    set (log := after_calls identifier l ∅) in *.
    set (A := allowed identifier l ∅) in *.
    cbn [after_calls allowed fold_left]. rewrite app_nil_r.
    unfold checkRateLimit.
    set (valid := List.filter (fun timestamp => now - RATE_LIMIT_WINDOW <? timestamp)
                    (default [] (log !! identifier))).
    assert (Hvalid : valid = List.filter (fun a => now - RATE_LIMIT_WINDOW <? a) A)
      by (apply Hsame; exact Hle).
    destruct (Nat.leb_spec MAX_REQUESTS_PER_WINDOW (length valid)) as [Hfull|Hroom];
      cbn [fst snd]; rewrite lookup_insert_eq;
      change (default [] (Some ?x)) with x.
    + rewrite app_nil_r. split; [|split; [exact Hwin|]].
      * intros now' Hall. apply Forall_app in Hall as [_ Hnow].
        apply Forall_cons in Hnow as [Hnow _].
        rewrite <- (Hsame now') by (eapply Forall_impl; [exact Hle | intros; cbn in *; lia]).
        subst valid. apply filter_filter_implied.
        intros a Ha. apply Z.ltb_lt in Ha. apply Z.ltb_lt. lia.
      * subst valid. etransitivity; [|exact Hlen].
        apply sublist_length.
        clear. induction (default [] (log !! identifier)) as [|a r IHr]; cbn [List.filter];
          [constructor|].
        destruct (_ <? _); [now apply sublist_skip | now apply sublist_cons].
    + split; [|split].
      * intros now' Hall. apply Forall_app in Hall as [Hall Hnow].
        apply Forall_cons in Hnow as [Hnow _].
        rewrite !List.filter_app. f_equal.
        rewrite <- (Hsame now' Hall). subst valid. apply filter_filter_implied.
        intros a Ha. apply Z.ltb_lt in Ha. apply Z.ltb_lt. lia.
      * intros t. rewrite List.filter_app, length_app. cbn [List.filter].
        destruct (in_window t now) eqn:Hin; cbn [length]; [|specialize (Hwin t); lia].
        unfold in_window in Hin. apply andb_true_iff in Hin as [H1 H2].
        apply Z.ltb_lt in H1. apply Z.leb_le in H2.
        assert (Hsub : (length (List.filter (in_window t) A) <= length valid)%nat).
        { rewrite Hvalid. apply filter_length_le. intros a Ha.
          unfold in_window in Ha. apply andb_true_iff in Ha as [Ha _].
          apply Z.ltb_lt in Ha. apply Z.ltb_lt. lia. }
        lia.
      * rewrite length_app. cbn [length]. lia.
Qed.

(** X29: the limiter never lets more than 100 requests of one identifier
    through within any minute: for calls made on a clock that does not run
    backwards, starting from an empty log, the calls that returned [true]
    number at most 100 in every window of 60 s; the log kept for the
    identifier never holds more than 100 timestamps; and a call touches the
    log of no other identifier. *)
Theorem at_most_100_requests_per_minute (identifier : string) (times : list Z) :
  Sorted Z.le times ->
  (forall t, (length (List.filter (in_window t) (allowed identifier times ∅))
              <= MAX_REQUESTS_PER_WINDOW)%nat) /\
  (length (default [] (after_calls identifier times ∅ !! identifier))
   <= MAX_REQUESTS_PER_WINDOW)%nat /\
  (forall other now log, other <> identifier ->
     snd (checkRateLimit identifier now log) !! other = log !! other).
Proof.
  intros Hs. destruct (limiter_invariant identifier times Hs) as (_ & Hwin & Hlen).
  split; [exact Hwin|]. split; [exact Hlen|].
  intros other now log Hne. unfold checkRateLimit.
  destruct (_ <=? _)%nat; cbn [snd]; now rewrite lookup_insert_ne.
Qed.

Lemma at_most_100_requests_per_minute_witness :
  (length (List.filter (in_window 1500%Z) (allowed "default" [1000; 1200; 1500]%Z ∅))
   <= MAX_REQUESTS_PER_WINDOW)%nat.
Proof.
  apply (at_most_100_requests_per_minute "default" [1000; 1200; 1500]).
  repeat constructor; lia.
Defined.

End RateLimitFacts.

(** ** Saving and loading state *)
Section StorageFacts.
Import Storage.
Context {D : Type}.
Variable cleanupOldData : gmap string (@Stored D) -> gmap string (@Stored D).

(** X30: what [saveState] stored under a key, [loadState] returns for that
    key as long as no more than 30 days have passed since, leaving the
    storage as it is, whether or not a cleanup ran before the write; after
    more than 30 days it returns [null] and removes the entry.  Saving under
    another key in between, with no cleanup, does not change what is
    returned.  An empty key or undefined data
    makes [saveState] throw "Failed to save data locally" and store
    nothing. *)
Theorem saved_state_loads_back (key : string) (data : D) (now now' : Z)
    (wouldExceedQuota : bool) (ls : gmap string (@Stored D)) :
  key <> "" ->
  let r := saveState cleanupOldData key (Some data) now wouldExceedQuota ls in
  fst r = None /\
  (now' - now <= maxAge -> loadState key now' (snd r) = (Some data, snd r)) /\
  (maxAge < now' - now ->
     loadState key now' (snd r) = (None, delete (STORAGE_PREFIX +:+ key) (snd r))) /\
  (forall other d t, other <> key -> other <> "" ->
     fst (loadState key now' (snd (saveState cleanupOldData other (Some d) t false (snd r))))
     = fst (loadState key now' (snd r))) /\
  (forall k q, saveState cleanupOldData k None now q ls = (Some "Failed to save data locally", ls)) /\
  (forall d q, saveState cleanupOldData "" d now q ls = (Some "Failed to save data locally", ls)).
Proof.
  intros Hkey r. subst r. unfold saveState.
  destruct (String.eqb_spec key ""); [congruence|]. cbn [fst snd].
  set (ls1 := if wouldExceedQuota then cleanupOldData ls else ls).
  set (ls2 := <[STORAGE_PREFIX +:+ key := Wrapper (Some data) (Some now)]> ls1).
  assert (Hget : ls2 !! (STORAGE_PREFIX +:+ key) = Some (Wrapper (Some data) (Some now))).
  { subst ls2. apply lookup_insert_eq. }
  assert (Hnum : num_or (Some now) 0 = now).
  { unfold num_or. now destruct (Z.eqb_spec now 0). }
  split; [reflexivity|]. split; [|split; [|split; [|split]]].
  - intros Hage. unfold loadState. destruct (String.eqb_spec key ""); [congruence|].
    rewrite Hget, Hnum.
    destruct (Z.ltb_spec maxAge (now' - now)); [lia | reflexivity].
  - intros Hage. unfold loadState, removeState.
    destruct (String.eqb_spec key ""); [congruence|].
    rewrite Hget, Hnum.
    destruct (Z.ltb_spec maxAge (now' - now)); [reflexivity | lia].
  - intros other d t Hother Hne. unfold loadState.
    destruct (String.eqb_spec key ""); [congruence|].
    destruct (String.eqb_spec other ""); [congruence|]. cbn [snd].
    rewrite lookup_insert_ne.
    { rewrite Hget, Hnum. now destruct (maxAge <? now' - now). }
    intros Heq. apply Hother. unfold STORAGE_PREFIX in Heq. cbn in Heq.
    now injection Heq.
  - intros k q. reflexivity.
  - intros [d|] q; reflexivity.
Qed.

End StorageFacts.

Section StorageExamples.
Import Storage.

Lemma saved_state_loads_back_witness :
  loadState "score" 2000 (snd (saveState (fun _ => ∅) "score" (Some 42) 1000 true ∅))
  = (Some 42, snd (saveState (fun _ => ∅) "score" (Some 42) 1000 true ∅)).
Proof.
  apply (proj1 (proj2 (saved_state_loads_back (D := Z) (fun _ => ∅) "score" 42 1000 2000 true ∅
                         ltac:(discriminate)))).
  vm_compute. discriminate.
Defined.

End StorageExamples.
